(** * FastUIDraw: path tessellation and the sweep-line event loop

    A shallow embedding of [src/fastuidraw/tessellated_path.cpp] and of the
    event loop and intersection code of [src/3rd_party/glu-tess/sweep.cpp],
    with the properties of the design document proved about it.

    Conventions of the embedding.
    - [float] and [double] values are rationals ([Q]); NaN and infinities
      are not modelled.  The rounding of the arithmetic is modelled where the
      properties depend on it, in [add_tessellated_arc_segment] and
      [add_arc_segment]:
      the rounding to [float] and to [double], the trigonometric functions,
      the vector norm and the constant [M_PI] are parameters (class
      [FloatMath]), and the identity as rounding gives exact arithmetic.
      Elsewhere the arithmetic is exact, and the properties proved of it
      compare and copy values or state sums in the order of the code.
    - [unsigned int] values are [N] with the wrap-around modulo [2^32]
      written out ([wrap], [uadd]).
    - A [std::vector] is a [list]; [push_back] appends at the end; indexed
      writes use [alter] and [<[i:=x]>], which do nothing out of range, where
      the C++ is undefined.
    - An assertion that fails, and a use the C++ leaves undefined, is the
      result [None]. *)

From Stdlib Require Import QArith Qabs Qround Qminmax Qpower Lqa Lia NArith ZArith.
From stdpp Require Import base option list numbers.

Set Default Proof Using "Type".

Local Open Scope Q_scope.

(** ** Machine integers *)

Definition uint_modulus : N := (2 ^ 32)%N.

Definition wrap (n : N) : N := (n mod uint_modulus)%N.

Definition uadd (a b : N) : N := wrap (a + b).

(** [static_cast<unsigned int>(x)] for a float [x]: truncation; the C++ is
    undefined when the truncated value is not representable. *)
Definition uint_of_float (x : Q) : N := wrap (Z.to_N (Qfloor x)).

(** [static_cast<float>(n)] for an unsigned [n]. *)
Definition float_of_uint (n : N) : Q := inject_Z (Z.of_N n).

Definition Qltb (a b : Q) : bool := negb (Qle_bool b a).

(** ** Geometry primitives *)

Record vec2 : Type := mk_vec2 { vx : Q; vy : Q }.

Definition vec2_add (a b : vec2) : vec2 := mk_vec2 (vx a + vx b) (vy a + vy b).
Definition vec2_sub (a b : vec2) : vec2 := mk_vec2 (vx a - vx b) (vy a - vy b).
Definition vec2_scale (c : Q) (a : vec2) : vec2 := mk_vec2 (c * vx a) (c * vy a).
Definition vec2_div (a : vec2) (c : Q) : vec2 := mk_vec2 (vx a / c) (vy a / c).

Record range_type (A : Type) : Type := mk_range { m_begin : A; m_end : A }.
Arguments mk_range {A} _ _.
Arguments m_begin {A} _.
Arguments m_end {A} _.

(** The mathematical environment of the code: the [double] constant [M_PI],
    the rounding of a real number to a [float] and to a [double], [t_cos],
    [t_sin] and [vecN::magnitude]. *)
Class FloatMath : Type := {
  M_PI : Q;
  to_float : Q -> Q;
  to_double : Q -> Q;
  t_cos : Q -> Q;
  t_sin : Q -> Q;
  magnitude : vec2 -> Q
}.

(** ** Segments *)

Inductive segment_type_t : Type := arc_segment | line_segment.

Definition is_arc (t : segment_type_t) : bool :=
  match t with arc_segment => true | line_segment => false end.

Record segment : Type := mk_segment {
  m_type : segment_type_t;
  m_start_pt : vec2;
  m_end_pt : vec2;
  m_center : vec2;
  m_arc_angle : range_type Q;
  m_radius : Q;
  m_length : Q;
  m_distance_from_edge_start : Q;
  m_distance_from_contour_start : Q;
  m_edge_length : Q;
  m_open_contour_length : Q;
  m_closed_contour_length : Q;
  m_enter_segment_unit_vector : vec2;
  m_leaving_segment_unit_vector : vec2;
  m_tangent_with_predecessor : bool
}.

(** A segment as [segment S;] declares it, with the geometry that the
    [SegmentStorage] methods assign; the other fields are assigned later by
    [add_edge] and [end_contour], and hold [0] until then. *)
Definition new_segment (ty : segment_type_t) (start_pt end_pt center : vec2)
    (arc_angle : range_type Q) (radius : Q) (tangent : bool) : segment :=
  {| m_type := ty; m_start_pt := start_pt; m_end_pt := end_pt;
     m_center := center; m_arc_angle := arc_angle; m_radius := radius;
     m_length := 0; m_distance_from_edge_start := 0;
     m_distance_from_contour_start := 0; m_edge_length := 0;
     m_open_contour_length := 0; m_closed_contour_length := 0;
     m_enter_segment_unit_vector := mk_vec2 0 0;
     m_leaving_segment_unit_vector := mk_vec2 0 0;
     m_tangent_with_predecessor := tangent |}.

(** [d->back()]. *)
Definition back (d : list segment) : segment :=
  List.last d (new_segment line_segment (mk_vec2 0 0) (mk_vec2 0 0) (mk_vec2 0 0)
                 (mk_range 0 0) 0 false).

(** ** SegmentStorage *)

(** [center + radius * v] for [vec2] of [float]: the product and the sum
    are rounded, coordinate by coordinate. *)
Definition vec2_to_float `{FloatMath} (v : vec2) : vec2 :=
  mk_vec2 (to_float (vx v)) (to_float (vy v)).

Definition arc_point `{FloatMath} (center : vec2) (radius : Q) (v : vec2) : vec2 :=
  vec2_to_float (vec2_add center (vec2_to_float (vec2_scale radius v))).

(** [float max_arc(M_PI / 4.0)]: the quotient is a [double]. *)
Definition max_arc `{FloatMath} : Q := to_float (to_double (M_PI / 4)).

(** The [for] loop of [add_tessellated_arc_segment]; [fuel] bounds the number
    of iterations, [i] and [theta] are the loop variables.  The sum
    [theta + da] is a [float]. *)
Fixpoint add_tessellated_arc_segment_loop `{FloatMath} (fuel : nat) (i cnt : N)
    (theta da : Q) (start end_ center : vec2) (radius : Q)
    (tangent_with_predecessor : bool) (d : list segment) : list segment :=
  match fuel with
  | O => d
  | S fuel' =>
    if (i <? cnt)%N then
      let start_pt := if (i =? 0)%N then start else m_end_pt (back d) in
      let tangent := if (i =? 0)%N then tangent_with_predecessor else true in
      let next := to_float (theta + da) in
      let end_pt :=
        if (uadd i 1 =? cnt)%N then end_
        else arc_point center radius (mk_vec2 (t_cos next) (t_sin next)) in
      let S := new_segment arc_segment start_pt end_pt center
                 (mk_range theta next) radius tangent in
      add_tessellated_arc_segment_loop fuel' (uadd i 1) cnt next da
        start end_ center radius tangent_with_predecessor (d ++ [S])
    else d
  end.

(** [cnt] of [add_tessellated_arc_segment]: the difference of the angles
    and the quotient are [float]s. *)
Definition arc_count `{FloatMath} (arc_angle : range_type Q) : N :=
  let a := Qabs (to_float (m_end arc_angle - m_begin arc_angle)) in
  uadd 1 (uint_of_float (to_float (a / max_arc))).

Definition add_tessellated_arc_segment `{FloatMath} (start end_ center : vec2)
    (radius : Q) (arc_angle : range_type Q) (tangent_with_predecessor : bool)
    (d : list segment) : list segment :=
  let cnt := arc_count arc_angle in
  let da := to_float (to_float (m_end arc_angle - m_begin arc_angle)
                      / to_float (float_of_uint cnt)) in
  add_tessellated_arc_segment_loop (N.to_nat cnt) 0 cnt (m_begin arc_angle) da
    start end_ center radius tangent_with_predecessor d.

Definition add_line_segment (start end_ : vec2) (d : list segment) : list segment :=
  d ++ [new_segment line_segment start end_ (mk_vec2 0 0) (mk_range 0 0) 0 false].

(** [const float crit_angles[]]: each product is a [double], converted to
    [float]. *)
Definition crit_angles `{FloatMath} : list Q :=
  map (fun k => to_float (to_double (k * M_PI)))
    [ - (1 # 2); 0; 1 # 2; 1; 3 # 2; 2; 5 # 2 ].

Definition crit_pts : list vec2 :=
  [ mk_vec2 0 (-1); mk_vec2 1 0; mk_vec2 0 1; mk_vec2 (-1) 0; mk_vec2 0 (-1);
    mk_vec2 1 0; mk_vec2 0 1 ].

(** The state of the loop of [add_arc_segment]: [prev_angle], [prev_pt],
    [tangent_with_predessor] and the storage. *)
Record arc_split_state : Type := mk_arc_split_state {
  prev_angle : Q;
  prev_pt : vec2;
  tangent_with_predessor : bool;
  storage : list segment
}.

(** One iteration of the loop of [add_arc_segment], at index [i]
    ([reverse_i] is [6 - i]). *)
Definition add_arc_segment_step `{FloatMath} (center : vec2) (radius : Q)
    (arc_angle : range_type Q) (st : arc_split_state) (i : nat) : arc_split_state :=
  let increasing := Qltb (m_begin arc_angle) (m_end arc_angle) in
  let K := if increasing then i else (6 - i)%nat in
  let crit := nth K crit_angles 0 in
  let should_split :=
    if increasing
    then Qltb (m_begin arc_angle) crit && Qltb crit (m_end arc_angle)
    else Qltb (m_end arc_angle) crit && Qltb crit (m_begin arc_angle) in
  if should_split then
    let end_pt := arc_point center radius (nth K crit_pts (mk_vec2 0 0)) in
    {| prev_angle := crit; prev_pt := end_pt; tangent_with_predessor := false;
       storage := add_tessellated_arc_segment (prev_pt st) end_pt center radius
                    (mk_range (prev_angle st) crit) (tangent_with_predessor st)
                    (storage st) |}
  else st.

Definition add_arc_segment `{FloatMath} (start end_ center : vec2) (radius : Q)
    (arc_angle : range_type Q) (d : list segment) : list segment :=
  let st := fold_left (add_arc_segment_step center radius arc_angle) (seq 0%nat 7%nat)
              (mk_arc_split_state (m_begin arc_angle) start false d) in
  add_tessellated_arc_segment (prev_pt st) end_ center radius
    (mk_range (prev_angle st) (m_end arc_angle)) (tangent_with_predessor st)
    (storage st).

(** A call of a [SegmentStorage] method, as an interpolator makes it; the
    storage is write-only, so what an interpolator does to it is the sequence
    of its calls. *)
Inductive storage_call : Type :=
  | call_add_line_segment (start end_ : vec2)
  | call_add_arc_segment (start end_ center : vec2) (radius : Q)
      (arc_angle : range_type Q).

Definition run_storage_call `{FloatMath} (d : list segment) (c : storage_call)
    : list segment :=
  match c with
  | call_add_line_segment start end_ => add_line_segment start end_ d
  | call_add_arc_segment start end_ center radius arc_angle =>
      add_arc_segment start end_ center radius arc_angle d
  end.

Definition run_storage_calls `{FloatMath} (calls : list storage_call)
    (d : list segment) : list segment :=
  fold_left run_storage_call calls d.

(** ** Paths, interpolators and tessellation parameters *)

Inductive edge_type_t : Type := starts_new_edge | continues_edge.

Module TessellationParams.
Record t : Type := mk {
  m_max_distance : Q;
  m_max_recursion : N;
  m_allow_arcs : bool
}.
End TessellationParams.

(** The virtual interface of [PathContour::interpolator_base] and of
    [PathContour::tessellation_state].  [produce_tessellation] returns the
    tessellation state (if any), the storage calls it made and the value it
    wrote to [out_max_distance]; [resume_tessellation] changes the state
    object, so it returns the state afterwards as well. *)
Class PathInterface : Type := {
  interpolator_base : Type;
  tessellation_state : Type;
  edge_type : interpolator_base -> edge_type_t;
  produce_tessellation :
    interpolator_base -> TessellationParams.t ->
    option tessellation_state * list storage_call * Q;
  recursion_depth : tessellation_state -> N;
  resume_tessellation :
    tessellation_state -> TessellationParams.t ->
    tessellation_state * list storage_call * Q
}.

(** A contour is the sequence of its interpolators ([interpolator(e)] for
    [e < number_points()]); a path is the sequence of its contours. *)
Definition PathContour `{PathInterface} : Type := list interpolator_base.
Definition Path `{PathInterface} : Type := list PathContour.

Definition number_points `{PathInterface} (c : PathContour) : N := N.of_nat (length c).
Definition Path_number_contours `{PathInterface} (p : Path) : N := N.of_nat (length p).

(** Modelled from the spec: the companion [Path] that [add_edge] builds with
    [operator<<] (path.cpp is not part of the sources) is kept as the sequence
    of the values streamed into it. *)
Inductive path_command : Type :=
  | path_point (pt : vec2)
  | path_edge_type (tp : edge_type_t)
  | path_arc (angle : Q) (pt : vec2)
  | path_contour_end
  | path_contour_end_arc (angle : Q).

(** Modelled from the spec: [BoundingBox<float>] of private/bounding_box.hpp
    (not part of the sources): empty, or the componentwise least and greatest
    corner of the points united so far. *)
Record BoundingBox : Type := mk_BoundingBox {
  bb_empty : bool;
  bb_min : vec2;
  bb_max : vec2
}.

Definition empty_BoundingBox : BoundingBox :=
  mk_BoundingBox true (mk_vec2 0 0) (mk_vec2 0 0).

Definition union_point (pt : vec2) (BB : BoundingBox) : BoundingBox :=
  if bb_empty BB then mk_BoundingBox false pt pt
  else mk_BoundingBox false
         (mk_vec2 (Qmin (vx (bb_min BB)) (vx pt)) (Qmin (vy (bb_min BB)) (vy pt)))
         (mk_vec2 (Qmax (vx (bb_max BB)) (vx pt)) (Qmax (vy (bb_max BB)) (vy pt))).

Record Edge : Type := mk_Edge {
  m_edge_range : range_type N;
  m_edge_type : edge_type_t
}.

(** An [Edge] as [resize] creates it. *)
Definition default_Edge : Edge := mk_Edge (mk_range 0%N 0%N) starts_new_edge.

Module TessellatedPathBuildingState.
(** [m_temp] is the [std::list] of the per-edge vectors; [m_start_contour],
    an iterator into it, is the index of the vector it points to, and [None]
    while it is not assigned. *)
Record t : Type := mk {
  m_loc : N;
  m_ende : N;
  m_temp : list (list segment);
  m_contour_length : Q;
  m_open_contour_length : Q;
  m_closed_contour_length : Q;
  m_start_contour : option nat
}.
End TessellatedPathBuildingState.

Module TessellatedPathPrivate.
(** [m_stroked] and [m_filled] hold the address of the derived object, [None]
    for a null reference. *)
Record t : Type := mk {
  m_edges : list (list Edge);
  m_segment_data : list segment;
  m_bounding_box : BoundingBox;
  m_params : TessellationParams.t;
  m_max_distance : Q;
  m_has_arcs : bool;
  m_max_segments : N;
  m_max_recursion : N;
  m_stroked : option nat;
  m_filled : option nat;
  m_path : list path_command
}.

Definition set_m_edges (v : list (list Edge)) (d : t) : t :=
  mk v (m_segment_data d) (m_bounding_box d) (m_params d) (m_max_distance d)
     (m_has_arcs d) (m_max_segments d) (m_max_recursion d) (m_stroked d)
     (m_filled d) (m_path d).

Definition set_m_segment_data (v : list segment) (d : t) : t :=
  mk (m_edges d) v (m_bounding_box d) (m_params d) (m_max_distance d)
     (m_has_arcs d) (m_max_segments d) (m_max_recursion d) (m_stroked d)
     (m_filled d) (m_path d).

Definition set_m_max_recursion (v : N) (d : t) : t :=
  mk (m_edges d) (m_segment_data d) (m_bounding_box d) (m_params d)
     (m_max_distance d) (m_has_arcs d) (m_max_segments d) v (m_stroked d)
     (m_filled d) (m_path d).

Definition set_m_stroked (v : option nat) (d : t) : t :=
  mk (m_edges d) (m_segment_data d) (m_bounding_box d) (m_params d)
     (m_max_distance d) (m_has_arcs d) (m_max_segments d) (m_max_recursion d) v
     (m_filled d) (m_path d).

Definition set_m_filled (v : option nat) (d : t) : t :=
  mk (m_edges d) (m_segment_data d) (m_bounding_box d) (m_params d)
     (m_max_distance d) (m_has_arcs d) (m_max_segments d) (m_max_recursion d)
     (m_stroked d) v (m_path d).
End TessellatedPathPrivate.

Module PerEdge.
Record t `{PathInterface} : Type := mk {
  m_tess_state : option tessellation_state;
  m_interpolator : option interpolator_base
}.
Arguments mk {_} _ _.
End PerEdge.

Module PerContour.
Record t `{PathInterface} : Type := mk { m_edges : list PerEdge.t }.
Arguments mk {_} _.
End PerContour.

Module RefinerPrivate.
(** [m_path] refers to the tessellated path the refiner holds; the refiner
    reads only what the constructor of that path fixed, so the reference is
    kept as the value. *)
Record t `{PathInterface} : Type := mk {
  m_path : TessellatedPathPrivate.t;
  m_contours : list PerContour.t
}.
Arguments mk {_} _ _.
End RefinerPrivate.

(** ** Anonymous-namespace helpers of tessellated_path.cpp *)

Definition union_segment `{FloatMath} (S : segment) (BB : BoundingBox) : BoundingBox :=
  let BB1 := union_point (m_end_pt S) (union_point (m_start_pt S) BB) in
  match m_type S with
  | arc_segment =>
      let half_angle := (1 # 2) * (m_end (m_arc_angle S) - m_begin (m_arc_angle S)) in
      let c := t_cos (m_begin (m_arc_angle S) + half_angle) in
      let s := t_sin (m_begin (m_arc_angle S) + half_angle) in
      let l := 1 - t_cos half_angle in
      let tau := vec2_scale l (mk_vec2 c s) in
      union_point (vec2_add (m_end_pt S) tau)
        (union_point (vec2_add (m_start_pt S) tau) BB1)
  | line_segment => BB1
  end.

Definition set_local_values (len : Q) (enter leaving : vec2) (S : segment) : segment :=
  mk_segment (m_type S) (m_start_pt S) (m_end_pt S) (m_center S) (m_arc_angle S)
    (m_radius S) len (m_distance_from_edge_start S)
    (m_distance_from_contour_start S) (m_edge_length S)
    (m_open_contour_length S) (m_closed_contour_length S) enter leaving
    (m_tangent_with_predecessor S).

Definition compute_local_segment_values `{FloatMath} (S : segment) : segment :=
  match m_type S with
  | line_segment =>
      let delta := vec2_sub (m_end_pt S) (m_start_pt S) in
      let len := magnitude delta in
      let delta' := if Qltb 0 len then vec2_div delta len else mk_vec2 1 0 in
      set_local_values len delta' delta' S
  | arc_segment =>
      let b := m_begin (m_arc_angle S) in
      let e := m_end (m_arc_angle S) in
      let sgn := if Qltb b e then 1 else -1 in
      set_local_values (Qabs (e - b) * m_radius S)
        (vec2_scale sgn (mk_vec2 (- t_sin b) (t_cos b)))
        (vec2_scale sgn (mk_vec2 (- t_sin e) (t_cos e))) S
  end.

Definition add_segment_to_path (last_segment : bool) (S : segment)
    (path : list path_command) : list path_command :=
  let theta := m_end (m_arc_angle S) - m_begin (m_arc_angle S) in
  if last_segment then
    match m_type S with
    | arc_segment => path ++ [path_contour_end_arc theta]
    | line_segment => path ++ [path_contour_end]
    end
  else
    match m_type S with
    | arc_segment => path ++ [path_arc theta (m_end_pt S)]
    | line_segment => path ++ [path_point (m_end_pt S)]
    end.

(** ** TessellatedPathPrivate methods *)

Definition new_TessellatedPathPrivate (num_contours : N)
    (TP : TessellationParams.t) : TessellatedPathPrivate.t :=
  {| TessellatedPathPrivate.m_edges := replicate (N.to_nat num_contours) [];
     TessellatedPathPrivate.m_segment_data := [];
     TessellatedPathPrivate.m_bounding_box := empty_BoundingBox;
     TessellatedPathPrivate.m_params := TP;
     TessellatedPathPrivate.m_max_distance := 0;
     TessellatedPathPrivate.m_has_arcs := false;
     TessellatedPathPrivate.m_max_segments := 0%N;
     TessellatedPathPrivate.m_max_recursion := 0%N;
     TessellatedPathPrivate.m_stroked := None;
     TessellatedPathPrivate.m_filled := None;
     TessellatedPathPrivate.m_path := [] |}.

Definition new_TessellatedPathBuildingState : TessellatedPathBuildingState.t :=
  {| TessellatedPathBuildingState.m_loc := 0%N;
     TessellatedPathBuildingState.m_ende := 0%N;
     TessellatedPathBuildingState.m_temp := [];
     TessellatedPathBuildingState.m_contour_length := 0;
     TessellatedPathBuildingState.m_open_contour_length := 0;
     TessellatedPathBuildingState.m_closed_contour_length := 0;
     TessellatedPathBuildingState.m_start_contour := None |}.

Definition start_contour (d : TessellatedPathPrivate.t)
    (b : TessellatedPathBuildingState.t) (o : nat) (num_edges : N)
    : TessellatedPathPrivate.t * TessellatedPathBuildingState.t :=
  (TessellatedPathPrivate.set_m_edges
     (alter (resize (N.to_nat num_edges) default_Edge) o
        (TessellatedPathPrivate.m_edges d)) d,
   {| TessellatedPathBuildingState.m_loc := TessellatedPathBuildingState.m_loc b;
      TessellatedPathBuildingState.m_ende := num_edges;
      TessellatedPathBuildingState.m_temp := TessellatedPathBuildingState.m_temp b;
      TessellatedPathBuildingState.m_contour_length := 0;
      TessellatedPathBuildingState.m_open_contour_length := 0;
      TessellatedPathBuildingState.m_closed_contour_length := 0;
      TessellatedPathBuildingState.m_start_contour :=
        TessellatedPathBuildingState.m_start_contour b |}).

Definition set_distances (from_edge_start from_contour_start : Q) (S : segment)
    : segment :=
  mk_segment (m_type S) (m_start_pt S) (m_end_pt S) (m_center S) (m_arc_angle S)
    (m_radius S) (m_length S) from_edge_start from_contour_start
    (m_edge_length S) (m_open_contour_length S) (m_closed_contour_length S)
    (m_enter_segment_unit_vector S) (m_leaving_segment_unit_vector S)
    (m_tangent_with_predecessor S).

Definition set_edge_length (v : Q) (S : segment) : segment :=
  mk_segment (m_type S) (m_start_pt S) (m_end_pt S) (m_center S) (m_arc_angle S)
    (m_radius S) (m_length S) (m_distance_from_edge_start S)
    (m_distance_from_contour_start S) v (m_open_contour_length S)
    (m_closed_contour_length S) (m_enter_segment_unit_vector S)
    (m_leaving_segment_unit_vector S) (m_tangent_with_predecessor S).

Definition set_contour_lengths (open closed : Q) (S : segment) : segment :=
  mk_segment (m_type S) (m_start_pt S) (m_end_pt S) (m_center S) (m_arc_angle S)
    (m_radius S) (m_length S) (m_distance_from_edge_start S)
    (m_distance_from_contour_start S) (m_edge_length S) open closed
    (m_enter_segment_unit_vector S) (m_leaving_segment_unit_vector S)
    (m_tangent_with_predecessor S).

(** What the first loop of [add_edge] updates besides [work_room]. *)
Record add_edge_acc : Type := mk_add_edge_acc {
  acc_has_arcs : bool;
  acc_bounding_box : BoundingBox;
  acc_contour_length : Q;
  acc_path : list path_command
}.

(** The first loop of [add_edge] over [work_room], from index [n] on: [prev]
    is [work_room[n - 1]] as the loop left it ([None] when [n = 0]) and
    [work] holds [work_room[n]], [work_room[n + 1]], ... *)
Fixpoint add_edge_loop `{FloatMath} (is_closing_edge : bool) (prev : option segment)
    (work : list segment) (acc : add_edge_acc) : list segment * add_edge_acc :=
  match work with
  | [] => ([], acc)
  | S0 :: rest =>
      let has_arcs := acc_has_arcs acc || is_arc (m_type S0) in
      let bb := union_segment S0 (acc_bounding_box acc) in
      let S1 := compute_local_segment_values S0 in
      let from_edge_start :=
        match prev with
        | Some P => m_distance_from_edge_start P + m_length P
        | None => 0
        end in
      let S2 := set_distances from_edge_start (acc_contour_length acc) S1 in
      let contour_length := acc_contour_length acc + m_length S2 in
      let path1 :=
        match prev with
        | Some _ => acc_path acc ++ [path_edge_type continues_edge]
        | None => acc_path acc
        end in
      let last_segment := is_closing_edge && bool_decide (rest = []) in
      let path2 := add_segment_to_path last_segment S2 path1 in
      let '(rest', acc') :=
        add_edge_loop is_closing_edge (Some S2) rest
          (mk_add_edge_acc has_arcs bb contour_length path2) in
      (S2 :: rest', acc')
  end.

(** The second loop of [add_edge]: for [n < needed], [work_room[n]] gets the
    edge length read from [work_room[needed - 1]]. *)
Definition add_edge_length_loop (needed : N) (work_room : list segment)
    : list segment :=
  fold_left
    (fun w n =>
       match w !! (N.to_nat needed - 1)%nat with
       | Some L =>
           alter (set_edge_length (m_distance_from_edge_start L + m_length L)) n w
       | None => w
       end)
    (seq 0%nat (N.to_nat needed)) work_room.

Definition set_edge_range (r : range_type N) (E : Edge) : Edge :=
  mk_Edge r (m_edge_type E).

Definition set_edge_type (tp : edge_type_t) (E : Edge) : Edge :=
  mk_Edge (m_edge_range E) tp.

(** [add_edge]; the result is [None] when [FASTUIDRAWassert(needed > 0u)]
    fails.  The vector moved into [m_temp] is returned through the builder,
    and [work_room] is empty afterwards. *)
Definition add_edge `{FloatMath} (d : TessellatedPathPrivate.t)
    (builder : TessellatedPathBuildingState.t) (o e : nat)
    (work_room : list segment) (edge_max_distance : Q) (is_closing_edge : bool)
    : option (TessellatedPathPrivate.t * TessellatedPathBuildingState.t) :=
  let needed := wrap (N.of_nat (length work_room)) in
  let loc := TessellatedPathBuildingState.m_loc builder in
  let edges :=
    alter (alter (set_edge_range (mk_range loc (uadd loc needed))) e) o
      (TessellatedPathPrivate.m_edges d) in
  let loc' := uadd loc needed in
  if (needed =? 0)%N then None else
  let max_segments := N.max (TessellatedPathPrivate.m_max_segments d) needed in
  let max_distance := Qmax (TessellatedPathPrivate.m_max_distance d) edge_max_distance in
  let path0 :=
    if bool_decide (e = 0%nat)
    then TessellatedPathPrivate.m_path d ++ [path_point (m_start_pt (hd (back []) work_room))]
    else TessellatedPathPrivate.m_path d in
  let '(work1, acc) :=
    add_edge_loop is_closing_edge None work_room
      (mk_add_edge_acc (TessellatedPathPrivate.m_has_arcs d)
         (TessellatedPathPrivate.m_bounding_box d)
         (TessellatedPathBuildingState.m_contour_length builder) path0) in
  let work2 := add_edge_length_loop needed work1 in
  let ende := TessellatedPathBuildingState.m_ende builder in
  let open_length :=
    if (uadd (N.of_nat e) 2 =? ende)%N then acc_contour_length acc
    else TessellatedPathBuildingState.m_open_contour_length builder in
  let closed_length :=
    if (uadd (N.of_nat e) 2 =? ende)%N
    then TessellatedPathBuildingState.m_closed_contour_length builder
    else if (uadd (N.of_nat e) 1 =? ende)%N then acc_contour_length acc
    else TessellatedPathBuildingState.m_closed_contour_length builder in
  let temp := TessellatedPathBuildingState.m_temp builder in
  Some
    ({| TessellatedPathPrivate.m_edges := edges;
        TessellatedPathPrivate.m_segment_data := TessellatedPathPrivate.m_segment_data d;
        TessellatedPathPrivate.m_bounding_box := acc_bounding_box acc;
        TessellatedPathPrivate.m_params := TessellatedPathPrivate.m_params d;
        TessellatedPathPrivate.m_max_distance := max_distance;
        TessellatedPathPrivate.m_has_arcs := acc_has_arcs acc;
        TessellatedPathPrivate.m_max_segments := max_segments;
        TessellatedPathPrivate.m_max_recursion := TessellatedPathPrivate.m_max_recursion d;
        TessellatedPathPrivate.m_stroked := TessellatedPathPrivate.m_stroked d;
        TessellatedPathPrivate.m_filled := TessellatedPathPrivate.m_filled d;
        TessellatedPathPrivate.m_path := acc_path acc |},
     {| TessellatedPathBuildingState.m_loc := loc';
        TessellatedPathBuildingState.m_ende := ende;
        TessellatedPathBuildingState.m_temp := temp ++ [work2];
        TessellatedPathBuildingState.m_contour_length := acc_contour_length acc;
        TessellatedPathBuildingState.m_open_contour_length := open_length;
        TessellatedPathBuildingState.m_closed_contour_length := closed_length;
        TessellatedPathBuildingState.m_start_contour :=
          if bool_decide (e = 0%nat) then Some (length temp)
          else TessellatedPathBuildingState.m_start_contour builder |}).

(** [end_contour]: every segment of the vectors from [m_start_contour] to the
    end of [m_temp] gets the two contour lengths.  Comparing an unassigned
    iterator is undefined: [None]. *)
Definition end_contour (builder : TessellatedPathBuildingState.t)
    : option TessellatedPathBuildingState.t :=
  match TessellatedPathBuildingState.m_start_contour builder with
  | None => None
  | Some k =>
      let temp := TessellatedPathBuildingState.m_temp builder in
      if bool_decide (k = length temp) then Some builder
      else
        let stamp :=
          set_contour_lengths
            (TessellatedPathBuildingState.m_open_contour_length builder)
            (TessellatedPathBuildingState.m_closed_contour_length builder) in
        Some
          {| TessellatedPathBuildingState.m_loc := TessellatedPathBuildingState.m_loc builder;
             TessellatedPathBuildingState.m_ende := TessellatedPathBuildingState.m_ende builder;
             TessellatedPathBuildingState.m_temp :=
               take k temp ++ map (map stamp) (drop k temp);
             TessellatedPathBuildingState.m_contour_length :=
               TessellatedPathBuildingState.m_contour_length builder;
             TessellatedPathBuildingState.m_open_contour_length :=
               TessellatedPathBuildingState.m_open_contour_length builder;
             TessellatedPathBuildingState.m_closed_contour_length :=
               TessellatedPathBuildingState.m_closed_contour_length builder;
             TessellatedPathBuildingState.m_start_contour := Some k |}
  end.

(** [finalize]; [None] when [m_edges.back().back()] does not exist or when
    [FASTUIDRAWassert(total_needed == m_segment_data.size())] fails. *)
Definition finalize (d : TessellatedPathPrivate.t)
    (b : TessellatedPathBuildingState.t) : option TessellatedPathPrivate.t :=
  last_contour ← list.last (TessellatedPathPrivate.m_edges d);
  last_edge ← list.last last_contour;
  let total_needed := m_end (m_edge_range last_edge) in
  let segment_data :=
    TessellatedPathPrivate.m_segment_data d
    ++ concat (TessellatedPathBuildingState.m_temp b) in
  if (total_needed =? N.of_nat (length segment_data))%N
  then Some (TessellatedPathPrivate.set_m_segment_data segment_data d)
  else None.

(** ** TessellatedPath constructors and Refiner *)

(** A [PerEdge] and a [PerContour] as [resize] creates them. *)
Definition default_PerEdge `{PathInterface} : PerEdge.t := PerEdge.mk None None.
Definition default_PerContour `{PathInterface} : PerContour.t := PerContour.mk [].

(** The loop over the edges of a contour in
    the constructor of [TessellatedPath] from a [Path];
    [refiner_d] is [None] when no refiner was asked for, and else holds the
    refiner's [m_contours].  [work_room] is empty at the start of each
    iteration, as the assertion there says: [add_edge] swaps it into [m_temp]. *)
Fixpoint Path_ctor_edge_loop `{FloatMath} `{PathInterface} (o e : nat) (ende : N)
    (interpolators : list interpolator_base) (d : TessellatedPathPrivate.t)
    (builder : TessellatedPathBuildingState.t)
    (refiner_d : option (list PerContour.t))
    : option (TessellatedPathPrivate.t * TessellatedPathBuildingState.t
              * option (list PerContour.t)) :=
  match interpolators with
  | [] => Some (d, builder, refiner_d)
  | interpolator :: rest =>
      let '(tess_state, calls, tmp) :=
        produce_tessellation interpolator (TessellatedPathPrivate.m_params d) in
      let work_room := run_storage_calls calls [] in
      let d1 :=
        match tess_state with
        | Some ts =>
            TessellatedPathPrivate.set_m_max_recursion
              (N.max (TessellatedPathPrivate.m_max_recursion d) (recursion_depth ts)) d
        | None => d
        end in
      let refiner_d1 :=
        alter (fun c => PerContour.mk
                 (<[e := PerEdge.mk tess_state (Some interpolator)]> (PerContour.m_edges c)))
          o <$> refiner_d in
      '(d2, builder2) ← add_edge d1 builder o e work_room tmp
                          (uadd (N.of_nat e) 1 =? ende)%N;
      let d3 :=
        TessellatedPathPrivate.set_m_edges
          (alter (alter (set_edge_type (edge_type interpolator)) e) o
             (TessellatedPathPrivate.m_edges d2)) d2 in
      Path_ctor_edge_loop o (S e) ende rest d3 builder2 refiner_d1
  end.

(** The loop over the contours of the same constructor, from contour [o] on. *)
Fixpoint Path_ctor_contour_loop `{FloatMath} `{PathInterface} (o : nat)
    (contours : list PathContour) (d : TessellatedPathPrivate.t)
    (builder : TessellatedPathBuildingState.t)
    (refiner_d : option (list PerContour.t))
    : option (TessellatedPathPrivate.t * TessellatedPathBuildingState.t
              * option (list PerContour.t)) :=
  match contours with
  | [] => Some (d, builder, refiner_d)
  | contour :: rest =>
      let refiner_d1 :=
        alter (fun c => PerContour.mk
                 (resize (N.to_nat (number_points contour)) default_PerEdge
                    (PerContour.m_edges c)))
          o <$> refiner_d in
      let '(d1, builder1) := start_contour d builder o (number_points contour) in
      '(d2, builder2, refiner_d2) ←
        Path_ctor_edge_loop o 0%nat (number_points contour) contour d1 builder1 refiner_d1;
      builder3 ← end_contour builder2;
      Path_ctor_contour_loop (S o) rest d2 builder3 refiner_d2
  end.

(** The constructor of [TessellatedPath] from a [Path], tessellation
    parameters and a location [ref] for a refiner; [want_ref] says whether
    [ref] is not null.  The result is the new object's private data and the refiner
    written to [*ref], if any. *)
Definition TessellatedPath_from_Path `{FloatMath} `{PathInterface} (input : Path)
    (TP : TessellationParams.t) (want_ref : bool)
    : option (TessellatedPathPrivate.t * option RefinerPrivate.t) :=
  let d := new_TessellatedPathPrivate (Path_number_contours input) TP in
  if (Path_number_contours input =? 0)%N then Some (d, None)
  else
    let refiner_d : option (list PerContour.t) :=
      if want_ref
      then Some (replicate (N.to_nat (Path_number_contours input)) default_PerContour)
      else None in
    '(d1, builder1, refiner_d1) ←
      Path_ctor_contour_loop 0%nat input d new_TessellatedPathBuildingState refiner_d;
    d2 ← finalize d1 builder1;
    Some (d2, fmap (M:=option) (RefinerPrivate.mk d2) refiner_d1).

(** The loop over the edges of a contour in
    the constructor of [TessellatedPath] from a [Refiner].  The tessellation state
    is shared with the refiner, so the edges are returned with the states as
    [resume_tessellation] left them. *)
Fixpoint Refiner_ctor_edge_loop `{FloatMath} `{PathInterface} (o e : nat) (ende : N)
    (edges : list PerEdge.t) (d : TessellatedPathPrivate.t)
    (builder : TessellatedPathBuildingState.t)
    : option (TessellatedPathPrivate.t * TessellatedPathBuildingState.t
              * list PerEdge.t) :=
  match edges with
  | [] => Some (d, builder, [])
  | edge :: rest =>
      interpolator ← PerEdge.m_interpolator edge;
      let '(edge1, calls, tmp, d1) :=
        match PerEdge.m_tess_state edge with
        | Some ts =>
            let '(ts', calls, tmp) :=
              resume_tessellation ts (TessellatedPathPrivate.m_params d) in
            (PerEdge.mk (Some ts') (PerEdge.m_interpolator edge), calls, tmp,
             TessellatedPathPrivate.set_m_max_recursion
               (N.max (TessellatedPathPrivate.m_max_recursion d) (recursion_depth ts')) d)
        | None =>
            let '(_, calls, tmp) :=
              produce_tessellation interpolator (TessellatedPathPrivate.m_params d) in
            (edge, calls, tmp, d)
        end in
      let work_room := run_storage_calls calls [] in
      '(d2, builder2) ← add_edge d1 builder o e work_room tmp
                          (uadd (N.of_nat e) 1 =? ende)%N;
      let d3 :=
        TessellatedPathPrivate.set_m_edges
          (alter (alter (set_edge_type (edge_type interpolator)) e) o
             (TessellatedPathPrivate.m_edges d2)) d2 in
      '(d4, builder4, rest') ← Refiner_ctor_edge_loop o (S e) ende rest d3 builder2;
      Some (d4, builder4, edge1 :: rest')
  end.

Fixpoint Refiner_ctor_contour_loop `{FloatMath} `{PathInterface} (o : nat)
    (contours : list PerContour.t) (d : TessellatedPathPrivate.t)
    (builder : TessellatedPathBuildingState.t)
    : option (TessellatedPathPrivate.t * TessellatedPathBuildingState.t
              * list PerContour.t) :=
  match contours with
  | [] => Some (d, builder, [])
  | contour :: rest =>
      let ende := N.of_nat (length (PerContour.m_edges contour)) in
      let '(d1, builder1) := start_contour d builder o ende in
      '(d2, builder2, edges') ←
        Refiner_ctor_edge_loop o 0%nat ende (PerContour.m_edges contour) d1 builder1;
      builder3 ← end_contour builder2;
      '(d4, builder4, rest') ← Refiner_ctor_contour_loop (S o) rest d2 builder3;
      Some (d4, builder4, PerContour.mk edges' :: rest')
  end.

(** The tessellation parameters that the constructor of [TessellatedPath]
    from a [Refiner] sets up. *)
Definition refiner_params `{PathInterface} (ref_d : RefinerPrivate.t) (max_distance : Q)
    (additional_recursion_count : N) : TessellationParams.t :=
  {| TessellationParams.m_max_distance := max_distance;
     TessellationParams.m_max_recursion :=
       uadd (TessellatedPathPrivate.m_max_recursion (RefinerPrivate.m_path ref_d))
         additional_recursion_count;
     TessellationParams.m_allow_arcs :=
       TessellationParams.m_allow_arcs
         (TessellatedPathPrivate.m_params (RefinerPrivate.m_path ref_d)) |}.

(** The constructor of [TessellatedPath] from a [Refiner], [max_distance] and
    [additional_recursion_count]: the new object's private data and the
    refiner's contours afterwards. *)
Definition TessellatedPath_from_Refiner `{FloatMath} `{PathInterface}
    (ref_d : RefinerPrivate.t) (max_distance : Q) (additional_recursion_count : N)
    : option (TessellatedPathPrivate.t * list PerContour.t) :=
  let params := refiner_params ref_d max_distance additional_recursion_count in
  let d :=
    new_TessellatedPathPrivate (N.of_nat (length (RefinerPrivate.m_contours ref_d)))
      params in
  match RefinerPrivate.m_contours ref_d with
  | [] => Some (d, [])
  | _ =>
      '(d1, builder1, contours') ←
        Refiner_ctor_contour_loop 0%nat (RefinerPrivate.m_contours ref_d) d
          new_TessellatedPathBuildingState;
      d2 ← finalize d1 builder1;
      Some (d2, contours')
  end.

(** [Refiner::refine_tessellation]: the refiner afterwards. *)
Definition refine_tessellation `{FloatMath} `{PathInterface} (d : RefinerPrivate.t)
    (max_distance : Q) (additional_recursion_count : N) : option RefinerPrivate.t :=
  if Qltb max_distance (TessellatedPathPrivate.m_max_distance (RefinerPrivate.m_path d))
  then
    '(p, contours') ← TessellatedPath_from_Refiner d max_distance additional_recursion_count;
    Some (RefinerPrivate.mk p contours')
  else Some d.

(** ** TessellatedPath accessors *)

Definition max_distance (d : TessellatedPathPrivate.t) : Q :=
  TessellatedPathPrivate.m_max_distance d.

Definition segment_data (d : TessellatedPathPrivate.t) : list segment :=
  TessellatedPathPrivate.m_segment_data d.

Definition number_contours (d : TessellatedPathPrivate.t) : nat :=
  length (TessellatedPathPrivate.m_edges d).

(** The accessors that index [m_edges] are undefined out of range: [None]. *)
Definition number_edges (d : TessellatedPathPrivate.t) (contour : nat) : option nat :=
  length <$> TessellatedPathPrivate.m_edges d !! contour.

Definition edge_range (d : TessellatedPathPrivate.t) (contour edge : nat)
    : option (range_type N) :=
  es ← TessellatedPathPrivate.m_edges d !! contour;
  E ← es !! edge;
  Some (m_edge_range E).

Definition contour_range (d : TessellatedPathPrivate.t) (contour : nat)
    : option (range_type N) :=
  es ← TessellatedPathPrivate.m_edges d !! contour;
  first ← head es;
  final ← list.last es;
  Some (mk_range (m_begin (m_edge_range first)) (m_end (m_edge_range final))).

(** [c_array::sub_array(range_type)]. *)
Definition sub_array {A : Type} (r : range_type N) (l : list A) : list A :=
  take (N.to_nat (m_end r) - N.to_nat (m_begin r)) (drop (N.to_nat (m_begin r)) l).

Definition edge_segment_data (d : TessellatedPathPrivate.t) (contour edge : nat)
    : option (list segment) :=
  r ← edge_range d contour edge;
  Some (sub_array r (segment_data d)).

Definition contour_segment_data (d : TessellatedPathPrivate.t) (contour : nat)
    : option (list segment) :=
  r ← contour_range d contour;
  Some (sub_array r (segment_data d)).

(** ** Derived geometry: [stroked()] and [filled()] *)

(** The objects that [FASTUIDRAWnew StrokedPath] and [FASTUIDRAWnew FilledPath]
    create from the tessellated path; the heap lists them in the order
    of creation, and the address of an object is its index there. *)
Inductive derived_object : Type := StrokedPath_object | FilledPath_object.

Definition stroked (d : TessellatedPathPrivate.t) (heap : list derived_object)
    : option nat * TessellatedPathPrivate.t * list derived_object :=
  match TessellatedPathPrivate.m_stroked d with
  | None =>
      let a := length heap in
      (Some a, TessellatedPathPrivate.set_m_stroked (Some a) d,
       heap ++ [StrokedPath_object])
  | Some a => (Some a, d, heap)
  end.

Definition filled (d : TessellatedPathPrivate.t) (heap : list derived_object)
    : option nat * TessellatedPathPrivate.t * list derived_object :=
  match TessellatedPathPrivate.m_filled d with
  | None =>
      if negb (TessellatedPathPrivate.m_has_arcs d) then
        let a := length heap in
        (Some a, TessellatedPathPrivate.set_m_filled (Some a) d,
         heap ++ [FilledPath_object])
      else (None, d, heap)
  | Some a => (Some a, d, heap)
  end.

(** ** The sweep-line tessellator (sweep.cpp) *)

Module Sweep.

(** A mesh vertex: its address, its sweep coordinates and its client id. *)
Record GLUvertex : Type := mk_GLUvertex {
  address : nat;
  s : Q;
  t : Q;
  client_id : N
}.

(** Modelled from the spec: the macros [VertEq], [VertLeq] and [VertL1dist]
    of geom.hpp, which is not part of the sources.  [VertLeq] is the
    lexicographic order that the comment in
    [glu_fastuidraw_gl_computeInterior] states for the events, [VertEq] is
    equality of the coordinates and [VertL1dist] the L1 distance. *)
Definition VertEq (u v : GLUvertex) : bool :=
  Qeq_bool (s u) (s v) && Qeq_bool (t u) (t v).

Definition VertLeq (u v : GLUvertex) : bool :=
  Qltb (s u) (s v) || (Qeq_bool (s u) (s v) && Qle_bool (t u) (t v)).

Definition VertL1dist (u v : GLUvertex) : Q :=
  Qabs (s u - s v) + Qabs (t u - t v).

(** Modelled from the spec: the priority queue of priorityq.cpp (not part of
    the sources) holds the pending vertex events; [pqExtractMin] removes and
    returns an event that is least in the [VertLeq] order, [pqMinimum]
    returns it without removing it, and both return nothing on an empty
    queue. *)
Definition PriorityQ : Type := list GLUvertex.

Fixpoint pqExtractMin (pq : PriorityQ) : option (GLUvertex * PriorityQ) :=
  match pq with
  | [] => None
  | v :: rest =>
      match pqExtractMin rest with
      | None => Some (v, [])
      | Some (m, rest') =>
          if VertLeq v m then Some (v, rest) else Some (m, v :: rest')
      end
  end.

Definition pqMinimum (pq : PriorityQ) : option GLUvertex := fst <$> pqExtractMin pq.

Definition pqInsert (v : GLUvertex) (pq : PriorityQ) : PriorityQ := v :: pq.

(** What the event loop uses and mesh.cpp and dict.cpp define, which are not
    part of the sources: the mesh, the edge dictionary, the splice of the
    mesh that [SpliceMergeVertices] performs on [v->anEdge] and
    [vNext->anEdge], and [SweepEvent], which works on all of them.  [None] is
    the non-local exit on a failed allocation. *)
Class SweepInterface : Type := {
  GLUmesh : Type;
  Dict : Type;
  glu_fastuidraw_gl_meshSplice : GLUmesh -> GLUvertex -> GLUvertex -> option GLUmesh;
  SweepEvent_body :
    PriorityQ * GLUmesh * Dict -> GLUvertex -> option (PriorityQ * GLUmesh * Dict)
}.

Record fastuidraw_GLUtesselator `{SweepInterface} : Type := mk_tess {
  pq : PriorityQ;
  mesh : GLUmesh;
  dict : Dict
}.
Arguments mk_tess {_} _ _ _.

Definition SweepEvent `{SweepInterface} (tess : fastuidraw_GLUtesselator)
    (vEvent : GLUvertex) : option fastuidraw_GLUtesselator :=
  '(q, m, d) ← SweepEvent_body (pq tess, mesh tess, dict tess) vEvent;
  Some (mk_tess q m d).

(** [SpliceMergeVertices(tess, e1, e2)] for [e1 = v->anEdge] and
    [e2 = vNext->anEdge]: [CallCombine] is called with [needed = FALSE] and
    does nothing, and the two vertices are spliced into one, [e1->Org] being
    kept. *)
Definition SpliceMergeVertices `{SweepInterface} (tess : fastuidraw_GLUtesselator)
    (v vNext : GLUvertex) : option fastuidraw_GLUtesselator :=
  m ← glu_fastuidraw_gl_meshSplice (mesh tess) v vNext;
  Some (mk_tess (pq tess) m (dict tess)).

(** The inner [for( ;; )] loop of [glu_fastuidraw_gl_computeInterior]: the
    vertices merged into [v], in order, and the tesselator afterwards.  Each
    iteration removes an event, so [fuel] above the length of the queue is
    never used up. *)
Fixpoint merge_loop `{SweepInterface} (fuel : nat) (tess : fastuidraw_GLUtesselator)
    (v : GLUvertex) : option (list GLUvertex * fastuidraw_GLUtesselator) :=
  match fuel with
  | O => None
  | S fuel' =>
      match pqMinimum (pq tess) with
      | None => Some ([], tess)
      | Some vNext =>
          if negb (VertEq vNext v) then Some ([], tess)
          else
            '(vNext', pq') ← pqExtractMin (pq tess);
            tess1 ← SpliceMergeVertices (mk_tess pq' (mesh tess) (dict tess)) v vNext';
            '(merged, tess2) ← merge_loop fuel' tess1 v;
            Some (vNext' :: merged, tess2)
      end
  end.

(** A call of [SweepEvent] by the event loop: the event [v], the tesselator
    when [v] was extracted from the queue, the vertices merged into [v] and
    the tesselator passed to [SweepEvent]. *)
Record sweep_call `{SweepInterface} : Type := mk_sweep_call {
  call_vertex : GLUvertex;
  call_before : fastuidraw_GLUtesselator;
  call_merged : list GLUvertex;
  call_tess : fastuidraw_GLUtesselator
}.
Arguments mk_sweep_call {_} _ _ _ _.

(** The [while] loop of [glu_fastuidraw_gl_computeInterior]: the calls of
    [SweepEvent] that it makes, in order, and the tesselator at the end
    ([None] after a non-local exit, or when [fuel] iterations were not
    enough: [SweepEvent] may add events). *)
Fixpoint glu_fastuidraw_gl_computeInterior_loop `{SweepInterface} (fuel : nat)
    (tess : fastuidraw_GLUtesselator)
    : list sweep_call * option fastuidraw_GLUtesselator :=
  match fuel with
  | O => ([], None)
  | S fuel' =>
      match pqExtractMin (pq tess) with
      | None => ([], Some tess)
      | Some (v, pq') =>
          match merge_loop (S (length pq')) (mk_tess pq' (mesh tess) (dict tess)) v with
          | None => ([], None)
          | Some (merged, tess1) =>
              let call := mk_sweep_call v tess merged tess1 in
              match SweepEvent tess1 v with
              | None => ([call], None)
              | Some tess2 =>
                  let '(calls, res) :=
                    glu_fastuidraw_gl_computeInterior_loop fuel' tess2 in
                  (call :: calls, res)
              end
          end
      end
  end.

(** The mesh after [SpliceMergeVertices] merged each of [merged] into [v]. *)
Fixpoint merged_mesh `{SweepInterface} (m : GLUmesh) (v : GLUvertex)
    (merged : list GLUvertex) : option GLUmesh :=
  match merged with
  | [] => Some m
  | w :: rest => m' ← glu_fastuidraw_gl_meshSplice m v w; merged_mesh m' v rest
  end.

(** [VertexWeights]: the two weights written to [weights[0]] and
    [weights[1]]. *)
Definition VertexWeights (isect org dst : GLUvertex) : Q * Q :=
  let t1 := VertL1dist org isect in
  let t2 := VertL1dist dst isect in
  ((1 # 2) * t2 / (t1 + t2), (1 # 2) * t1 / (t1 + t2)).






(** What is to hold at a call of [SweepEvent]: no pending event has the
    coordinates of the event vertex; the events that were pending when the
    vertex was extracted are the vertex, the merged ones and those still
    pending; the merged ones have the coordinates of the vertex; and the mesh
    is the one in which [SpliceMergeVertices] merged each of them into the
    vertex. *)
Definition sweep_call_ok `{SweepInterface} (c : sweep_call) : Prop :=
  Forall (fun w => VertEq w (call_vertex c) = false) (pq (call_tess c))
  /\ pq (call_before c) ≡ₚ call_vertex c :: call_merged c ++ pq (call_tess c)
  /\ Forall (fun w => VertEq w (call_vertex c) = true) (call_merged c)
  /\ merged_mesh (mesh (call_before c)) (call_vertex c) (call_merged c)
     = Some (mesh (call_tess c)).

End Sweep.

(** ** Vocabulary of the properties *)

(** [chain p l q]: the segments of [l] follow one another from [p] to [q],
    each starting exactly where the one before ended. *)
Fixpoint chain (p : vec2) (l : list segment) (q : vec2) : Prop :=
  match l with
  | [] => p = q
  | S0 :: rest => m_start_pt S0 = p /\ chain (m_end_pt S0) rest q
  end.

(** Consecutive segments are positionally contiguous. *)
Definition contiguous (l : list segment) : Prop :=
  forall (i : nat) (S T : segment),
    l !! i = Some S -> l !! (i + 1)%nat = Some T -> m_end_pt S = m_start_pt T.

(** The angle that an arc segment spans. *)
Definition arc_span (S : segment) : Q :=
  Qabs (m_end (m_arc_angle S) - m_begin (m_arc_angle S)).

(** The number of segments that [add_tessellated_arc_segment] makes of this
    angle range fits an [unsigned int]: the conversion of [a / max_arc] is
    defined and adding one to it does not wrap. *)
Definition arc_count_fitsb `{FloatMath} (arc_angle : range_type Q) : bool :=
  (Z.to_N (Qfloor (to_float
     (Qabs (to_float (m_end arc_angle - m_begin arc_angle)) / max_arc)))
   <? uint_modulus - 1)%N.

Definition arc_count_fits `{FloatMath} (arc_angle : range_type Q) : Prop :=
  arc_count_fitsb arc_angle = true.

(** [x] lies between the two ends of the angle range, whichever is larger. *)
Definition in_hullb (rng : range_type Q) (x : Q) : bool :=
  Qle_bool (m_begin rng) x && Qle_bool x (m_end rng)
  || Qle_bool (m_end rng) x && Qle_bool x (m_begin rng).

(** The angles at which [add_arc_segment] may cut an arc: its two ends and
    the critical angles between them. *)
Definition arc_cuts `{FloatMath} (arc_angle : range_type Q) : list Q :=
  m_begin arc_angle :: m_end arc_angle :: List.filter (in_hullb arc_angle) crit_angles.

(** The numbers of segments of the parts into which [add_arc_segment] cuts
    an arc fit an [unsigned int]: that of the part between any two of the
    cuts does.  For a rounding that is monotone and odd, as that of IEEE 754
    is, this is so when the number of segments of the whole arc fits. *)
Definition arc_pieces_fit `{FloatMath} (arc_angle : range_type Q) : Prop :=
  forallb (fun a => forallb (fun b => arc_count_fitsb (mk_range a b)) (arc_cuts arc_angle))
    (arc_cuts arc_angle) = true.

Definition call_start (c : storage_call) : vec2 :=
  match c with
  | call_add_line_segment start _ => start
  | call_add_arc_segment start _ _ _ _ => start
  end.

Definition call_end (c : storage_call) : vec2 :=
  match c with
  | call_add_line_segment _ end_ => end_
  | call_add_arc_segment _ end_ _ _ _ => end_
  end.

Definition call_fits `{FloatMath} (c : storage_call) : Prop :=
  match c with
  | call_add_line_segment _ _ => True
  | call_add_arc_segment _ _ _ _ arc_angle => arc_pieces_fit arc_angle
  end.

(** The storage calls of an edge follow one another: each call starts at the
    end point of the call before it. *)
Fixpoint calls_chained (p : vec2) (calls : list storage_call) (q : vec2) : Prop :=
  match calls with
  | [] => p = q
  | c :: rest => call_start c = p /\ calls_chained (call_end c) rest q
  end.

(** The sum of the lengths of segments, added in the order of the segments
    as [add_edge] adds them to [m_contour_length]. *)
Definition sum_lengths (from : Q) (l : list segment) : Q :=
  fold_left (fun acc S => acc + m_length S) l from.

(** The angle step [da] of [add_tessellated_arc_segment]. *)
Definition arc_da `{FloatMath} (arc_angle : range_type Q) : Q :=
  to_float (to_float (m_end arc_angle - m_begin arc_angle)
            / to_float (float_of_uint (arc_count arc_angle))).

(** The angle ranges of the segments that one call of
    [add_tessellated_arc_segment] appends: the first begins at [theta], each
    ends at the sum, as a [float], of its beginning and [da], and the next
    begins there. *)
Fixpoint angles_from `{FloatMath} (theta da : Q) (l : list segment) : Prop :=
  match l with
  | [] => True
  | S0 :: rest =>
      m_arc_angle S0 = mk_range theta (to_float (theta + da))
      /\ angles_from (to_float (theta + da)) da rest
  end.

(** A segment is an arc segment of the circle of this center and radius. *)
Definition arc_of (center : vec2) (radius : Q) (S : segment) : Prop :=
  m_type S = arc_segment /\ m_center S = center /\ m_radius S = radius.

(** [x] lies strictly between the two ends of the angle range. *)
Definition strictly_inside (rng : range_type Q) (x : Q) : Prop :=
  (m_begin rng < x /\ x < m_end rng) \/ (m_end rng < x /\ x < m_begin rng).

(** The segment [S] starts the part of an arc that begins at the critical
    angle of index [K]: its angle range begins at that angle, it starts at
    the critical point of the circle, and it is not marked as tangent with
    its predecessor. *)
Definition starts_at_cut `{FloatMath} (center : vec2) (radius : Q) (K : nat)
    (S : segment) : Prop :=
  crit_angles !! K = Some (m_begin (m_arc_angle S))
  /\ (exists pt, crit_pts !! K = Some pt
                 /\ m_start_pt S = arc_point center radius pt)
  /\ m_tangent_with_predecessor S = false.

(** The angle ranges of consecutive segments meet, or the later one begins
    at a critical angle strictly inside the angle range of the arc, where
    the arc was cut; [from] is the angle at which the segment before the
    first one ends. *)
Fixpoint angles_linked `{FloatMath} (rng : range_type Q) (from : Q) (l : list segment)
    : Prop :=
  match l with
  | [] => True
  | S0 :: rest =>
      (m_begin (m_arc_angle S0) = from
       \/ (In (m_begin (m_arc_angle S0)) crit_angles
           /\ strictly_inside rng (m_begin (m_arc_angle S0))
           /\ m_tangent_with_predecessor S0 = false))
      /\ angles_linked rng (m_end (m_arc_angle S0)) rest
  end.

(** The rounding to [float] is monotone, leaves a [float] and the number 1
    as they are, and is off by at most the part [u] of the number that is
    rounded and [eta]. *)
Definition rounds_to_nearest `{FloatMath} (u eta : Q) : Prop :=
  (forall x y, x <= y -> to_float x <= to_float y)
  /\ (forall x, to_float (to_float x) == to_float x)
  /\ to_float 1 == 1
  /\ (forall x, Qabs (to_float x - x) <= u * Qabs x + eta).

(** The bound on the angle that a segment spans: [max_arc], and what the
    roundings of the quotient [a / max_arc], of [da] and of the sum
    [theta + da] can add to it. *)
Definition span_bound `{FloatMath} (u eta : Q) (S : segment) : Q :=
  (1 + u) * ((1 + u) * ((1 + eta) / (1 - u) * max_arc) + eta)
  + u * Qabs (m_begin (m_arc_angle S)) + eta.

(** The angle range of [S] is one step of an angle range of which
    [add_tessellated_arc_segment] makes segments. *)
Definition arc_step_of `{FloatMath} (S : segment) : Prop :=
  exists piece th,
    arc_count_fits piece
    /\ m_arc_angle S = mk_range th (to_float (th + arc_da piece)).

(** The angle at which the last of the segments ends, [from] when there is
    none. *)
Definition last_angle (from : Q) (l : list segment) : Q :=
  match list.last l with Some S0 => m_end (m_arc_angle S0) | None => from end.

(** The invariant of the loop of [add_arc_segment], [d] being the storage at
    the call, [start] the start point of the arc and [seen] the indices [K]
    of the critical angles that the loop has gone through. *)
Definition arc_split_inv `{FloatMath} (start center : vec2) (radius : Q)
    (rng : range_type Q) (d : list segment) (seen : list nat) (st : arc_split_state)
    : Prop :=
  exists new,
    storage st = d ++ new
    /\ Forall (arc_of center radius) new
    /\ Forall arc_step_of new
    /\ chain start new (prev_pt st)
    /\ In (prev_angle st) (arc_cuts rng)
    /\ tangent_with_predessor st = false
    /\ (new = [] -> prev_angle st = m_begin rng)
    /\ (new <> [] ->
        In (prev_angle st) crit_angles /\ strictly_inside rng (prev_angle st))
    /\ (forall S0, new !! 0%nat = Some S0 -> m_begin (m_arc_angle S0) = m_begin rng)
    /\ angles_linked rng (m_begin rng) new
    /\ (forall K crit,
          In K seen -> crit_angles !! K = Some crit -> strictly_inside rng crit ->
          (crit = prev_angle st
           /\ exists pt, crit_pts !! K = Some pt
                         /\ prev_pt st = arc_point center radius pt)
          \/ exists S0, S0 ∈ new /\ starts_at_cut center radius K S0).

(** The geometry of a segment: what the [SegmentStorage] methods assigned,
    with the fields that [add_edge] and [end_contour] compute reset. *)
Definition geometry (S : segment) : segment :=
  new_segment (m_type S) (m_start_pt S) (m_end_pt S) (m_center S) (m_arc_angle S)
    (m_radius S) (m_tangent_with_predecessor S).

(** The distance fields of the segments of one edge, [from] being the
    distance of the first one from the start of the edge. *)
Fixpoint distances_from (from : Q) (l : list segment) : Prop :=
  match l with
  | [] => True
  | S0 :: rest =>
      m_distance_from_edge_start S0 = from
      /\ distances_from (m_distance_from_edge_start S0 + m_length S0) rest
  end.

(** The cumulative distance fields of an edge are consistent. *)
Definition edge_distances_ok (l : list segment) : Prop :=
  distances_from 0 l
  /\ forall L, list.last l = Some L ->
       Forall (fun S => m_edge_length S = m_distance_from_edge_start L + m_length L) l.

(** The edges [es] have the ranges that [add_edge] assigns to edges of
    [lens] segments each, starting at [from], in unsigned arithmetic; [to]
    is the value of [m_loc] after them. *)
Fixpoint ranges_chain (from : N) (es : list Edge) (lens : list nat) (to : N) : Prop :=
  match es, lens with
  | [], [] => from = to
  | E :: es', n :: lens' =>
      m_edge_range E = mk_range from (uadd from (wrap (N.of_nat n)))
      /\ ranges_chain (uadd from (wrap (N.of_nat n))) es' lens' to
  | _, _ => False
  end.

(** ** The part that the two constructors share *)

(** What the constructors take from the tessellation of one edge: the
    segments in [work_room], the value written to [out_max_distance], the
    edge type of the interpolator and the recursion depth of the state, if
    any. *)
Record edge_result : Type := mk_edge_result {
  res_work_room : list segment;
  res_max_distance : Q;
  res_edge_type : edge_type_t;
  res_recursion : option N
}.

(** The body that the loops over the edges of the two constructors share,
    from the results of tessellating the edges. *)
Fixpoint build_edges `{FloatMath} (o e : nat) (ende : N) (results : list edge_result)
    (d : TessellatedPathPrivate.t) (builder : TessellatedPathBuildingState.t)
    : option (TessellatedPathPrivate.t * TessellatedPathBuildingState.t) :=
  match results with
  | [] => Some (d, builder)
  | r :: rest =>
      let d1 :=
        match res_recursion r with
        | Some depth =>
            TessellatedPathPrivate.set_m_max_recursion
              (N.max (TessellatedPathPrivate.m_max_recursion d) depth) d
        | None => d
        end in
      '(d2, builder2) ← add_edge d1 builder o e (res_work_room r) (res_max_distance r)
                          (uadd (N.of_nat e) 1 =? ende)%N;
      let d3 :=
        TessellatedPathPrivate.set_m_edges
          (alter (alter (set_edge_type (res_edge_type r)) e) o
             (TessellatedPathPrivate.m_edges d2)) d2 in
      build_edges o (S e) ende rest d3 builder2
  end.

Fixpoint build_contours `{FloatMath} (o : nat) (contours : list (list edge_result))
    (d : TessellatedPathPrivate.t) (builder : TessellatedPathBuildingState.t)
    : option (TessellatedPathPrivate.t * TessellatedPathBuildingState.t) :=
  match contours with
  | [] => Some (d, builder)
  | c :: rest =>
      let ende := N.of_nat (length c) in
      let '(d1, builder1) := start_contour d builder o ende in
      '(d2, builder2) ← build_edges o 0%nat ende c d1 builder1;
      builder3 ← end_contour builder2;
      build_contours (S o) rest d2 builder3
  end.

(** The result of tessellating an edge in the constructor from a [Path]. *)
Definition path_edge_result `{FloatMath} `{PathInterface}
    (params : TessellationParams.t) (interpolator : interpolator_base) : edge_result :=
  let '(tess_state, calls, tmp) := produce_tessellation interpolator params in
  mk_edge_result (run_storage_calls calls []) tmp (edge_type interpolator)
    (recursion_depth <$> tess_state).

(** The storage calls that the constructor from a [Refiner] obtains for an
    edge: those of [resume_tessellation] of the saved state when there is
    one, and else those of [produce_tessellation] of the interpolator. *)
Definition refiner_edge_calls `{PathInterface} (params : TessellationParams.t)
    (edge : PerEdge.t) : option (list storage_call) :=
  interpolator ← PerEdge.m_interpolator edge;
  match PerEdge.m_tess_state edge with
  | Some ts => Some (snd (fst (resume_tessellation ts params)))
  | None => Some (snd (fst (produce_tessellation interpolator params)))
  end.

(** A segment with the two contour lengths reset. *)
Definition strip (S : segment) : segment := set_contour_lengths 0 0 S.

(** What the loop over the edges of a contour establishes for the segments
    [w] of an edge with result [r]. *)
Definition edge_built (w : list segment) (r : edge_result) : Prop :=
  map geometry w = map geometry (res_work_room r)
  /\ w <> []
  /\ ((N.of_nat (length w) < uint_modulus)%N -> edge_distances_ok w).

(** Every segment of the contour [ts] has the closed contour length that is
    the sum of the lengths of the segments of [ts]. *)
Definition contour_closed_ok (ts : list (list segment)) : Prop :=
  Forall (Forall (fun S => m_closed_contour_length S = sum_lengths 0 (concat ts))) ts.

(** [tp] is what the shared part of the constructors and [finalize] build
    from the edge results [rs]. *)
Definition built_from `{FloatMath} (rs : list (list edge_result))
    (TP : TessellationParams.t) (tp : TessellatedPathPrivate.t) : Prop :=
  exists d' b',
    build_contours 0 rs (new_TessellatedPathPrivate (N.of_nat (length rs)) TP)
      new_TessellatedPathBuildingState = Some (d', b')
    /\ finalize d' b' = Some tp.

(** The segments [tss], per contour and per edge, are those of the
    tessellated path [tp] built from the edge results [rs]. *)
Definition structure_of (rs : list (list edge_result)) (tp : TessellatedPathPrivate.t)
    (tss : list (list (list segment))) : Prop :=
  segment_data tp = concat (concat tss)
  /\ Forall2 (Forall2 edge_built) tss rs
  /\ Forall2 (fun (es : list Edge) (ts : list (list segment)) => length es = length ts)
       (TessellatedPathPrivate.m_edges tp) tss
  /\ ranges_chain 0 (concat (TessellatedPathPrivate.m_edges tp))
       (map length (concat tss)) (N.of_nat (length (concat (concat tss))))
  /\ (N.of_nat (length (concat (concat tss))) < uint_modulus)%N
  /\ (Forall (fun c => c <> []) rs -> Forall contour_closed_ok tss).

(** The number of edges of each contour of a refiner, and of a tessellated
    path. *)
Definition refiner_shape `{PathInterface} (cs : list PerContour.t) : list nat :=
  map (fun c => length (PerContour.m_edges c)) cs.

Definition path_shape (tp : TessellatedPathPrivate.t) : list nat :=
  map length (TessellatedPathPrivate.m_edges tp).

(** The edge result [r] is the tessellation that the constructor from a
    [Refiner] obtains for [edge]. *)
Definition edge_retessellated `{FloatMath} `{PathInterface}
    (params : TessellationParams.t) (r : edge_result) (edge : PerEdge.t) : Prop :=
  exists calls,
    refiner_edge_calls params edge = Some calls
    /\ res_work_room r = run_storage_calls calls [].

(** A tessellated path is the result of one of the two constructors. *)
Definition constructed `{FloatMath} `{PathInterface} (tp : TessellatedPathPrivate.t)
    : Prop :=
  (exists input TP want_ref ref,
     TessellatedPath_from_Path input TP want_ref = Some (tp, ref))
  \/ (exists ref_d max_distance additional_recursion_count contours,
        TessellatedPath_from_Refiner ref_d max_distance additional_recursion_count
        = Some (tp, contours)).

(** The refiners that exist: the one that the constructor from a [Path]
    creates, and what [refine_tessellation] makes of a refiner. *)
Inductive refiner_reachable `{FloatMath} `{PathInterface} : RefinerPrivate.t -> Prop :=
  | reachable_new input TP tp r :
      TessellatedPath_from_Path input TP true = Some (tp, Some r) ->
      refiner_reachable r
  | reachable_refined r max_distance additional_recursion_count r' :
      refiner_reachable r ->
      refine_tessellation r max_distance additional_recursion_count = Some r' ->
      refiner_reachable r'.

(** The storage calls from which the edge [e] of the contour [o] of [tp] was
    made: those of [produce_tessellation] of the interpolator of the edge
    when [tp] was constructed from a [Path], and those that the constructor
    from a [Refiner] obtains for the edge when [tp] was constructed from
    one. *)
Definition edge_source `{FloatMath} `{PathInterface} (tp : TessellatedPathPrivate.t)
    (o e : nat) (calls : list storage_call) : Prop :=
  (exists (input : Path) TP want_ref ref (contour : PathContour) interpolator,
     TessellatedPath_from_Path input TP want_ref = Some (tp, ref)
     /\ input !! o = Some contour /\ contour !! e = Some interpolator
     /\ calls = snd (fst (produce_tessellation interpolator TP)))
  \/ (exists ref_d max_distance additional_recursion_count contours
             (c : PerContour.t) (edge : PerEdge.t),
        TessellatedPath_from_Refiner ref_d max_distance additional_recursion_count
        = Some (tp, contours)
        /\ RefinerPrivate.m_contours ref_d !! o = Some c
        /\ PerContour.m_edges c !! e = Some edge
        /\ refiner_edge_calls
             (refiner_params ref_d max_distance additional_recursion_count) edge
           = Some calls).

(** The segments that the constructor from a [Refiner] obtains for an edge,
    none when the edge has no interpolator; and those of all the edges of
    the contours [cs], in order. *)
Definition refiner_work_room `{FloatMath} `{PathInterface}
    (params : TessellationParams.t) (edge : PerEdge.t) : list segment :=
  match refiner_edge_calls params edge with
  | Some calls => run_storage_calls calls []
  | None => []
  end.

Definition refiner_segments `{FloatMath} `{PathInterface}
    (params : TessellationParams.t) (cs : list PerContour.t) : list segment :=
  concat (map (fun c => concat (map (refiner_work_room params) (PerContour.m_edges c))) cs).

(** What the constructor from a [Refiner] asserts or relies on: every contour
    has an edge, every edge has an interpolator and is given at least one
    segment, and the number of segments fits an [unsigned int]. *)
Definition refinable `{FloatMath} `{PathInterface} (params : TessellationParams.t)
    (cs : list PerContour.t) : Prop :=
  Forall (fun c => PerContour.m_edges c <> []
                   /\ Forall (fun edge => refiner_work_room params edge <> [])
                        (PerContour.m_edges c)) cs
  /\ (N.of_nat (length (refiner_segments params cs)) < uint_modulus)%N.

(** ** Rounding to a binary floating point format *)

(** The integer part of the binary logarithm of a positive rational. *)
Definition Qlog2 (x : Q) : Z :=
  let k := (Z.log2 (Qnum x) - Z.log2 (Zpos (Qden x)))%Z in
  if Qle_bool (Qpower 2 k) x then k else (k - 1)%Z.

(** The nearest integer, the even one of two that are as near. *)
Definition round_half_even (x : Q) : Z :=
  let f := Qfloor x in
  match Qcompare (x - inject_Z f) (1 # 2) with
  | Lt => f
  | Gt => (f + 1)%Z
  | Eq => if Z.even f then f else (f + 1)%Z
  end.

(** The nearest number with a significand of [prec] bits and a least
    exponent [emin], ties to even, as the default rounding of IEEE 754 gives
    it; there is no largest number: overflow is not modelled. *)
Definition round_to (prec emin : Z) (x : Q) : Q :=
  if Qeq_bool x 0 then 0
  else
    let e := Z.max emin (Qlog2 (Qabs x) - (prec - 1)) in
    Qred (inject_Z (round_half_even (x / Qpower 2 e)) * Qpower 2 e).

(** The formats of [float] and of [double]. *)
Definition binary32 : Q -> Q := round_to 24 (-149).
Definition binary64 : Q -> Q := round_to 53 (-1074).

(** ** Example inputs *)

(** A mathematical environment to run the code on examples, with exact
    arithmetic; the stand-ins for the cosine, the sine and the norm are
    rational. *)
Definition example_math : FloatMath :=
  {| M_PI := 355 # 113;
     to_float := fun x => x;
     to_double := fun x => x;
     t_cos := fun x => 1 - x * x / 2;
     t_sin := fun x => x;
     magnitude := fun v => Qabs (vx v) + Qabs (vy v) |}.

(** The arithmetic of the code as it is compiled: [M_PI] is the [double]
    nearest to the number pi, [float] is binary32 and [double] is binary64;
    the stand-ins for the cosine, the sine and the norm are rounded. *)
Definition binary32_math : FloatMath :=
  {| M_PI := 884279719003555 # 281474976710656;
     to_float := binary32;
     to_double := binary64;
     t_cos := fun x => binary32 (1 - x * x / 2);
     t_sin := fun x => binary32 x;
     magnitude := fun v => binary32 (Qabs (vx v) + Qabs (vy v)) |}.

(** A full circle, from the angle 0 to the [float] nearest to twice
    [M_PI]. *)
Definition example_full_circle : range_type Q :=
  mk_range 0 (binary32 (binary64 (2 * (884279719003555 # 281474976710656)))).

(** Interpolators to run the code on: a flat edge, an arc, a curve that is
    tessellated recursively (its state is the recursion depth and the calls
    to repeat), and a custom interpolator that emits two line segments that
    do not meet. *)
Inductive example_interpolator : Type :=
  | example_flat (start end_ : vec2)
  | example_arc (start end_ center : vec2) (radius : Q) (arc_angle : range_type Q)
  | example_curve (start mid end_ : vec2)
  | example_broken (a b c d : vec2).

Definition example_produce_tessellation (it : example_interpolator)
    (params : TessellationParams.t)
    : option (N * list storage_call) * list storage_call * Q :=
  match it with
  | example_flat start end_ => (None, [call_add_line_segment start end_], 0)
  | example_arc start end_ center radius arc_angle =>
      (None, [call_add_arc_segment start end_ center radius arc_angle], 0)
  | example_curve start mid end_ =>
      let calls := [call_add_line_segment start mid; call_add_line_segment mid end_] in
      (Some (1%N, calls), calls, 1)
  | example_broken a b c d =>
      (None, [call_add_line_segment a b; call_add_line_segment c d], 0)
  end.

Definition example_interface : PathInterface :=
  {| interpolator_base := example_interpolator;
     tessellation_state := N * list storage_call;
     edge_type := fun _ => starts_new_edge;
     produce_tessellation := example_produce_tessellation;
     recursion_depth := fst;
     resume_tessellation := fun ts _ => ((fst ts + 1)%N, snd ts, snd ts, 1 # 2) |}.

Definition example_params : TessellationParams.t :=
  TessellationParams.mk (1 # 10) 4%N true.

(** The unit square; a square and a triangle with a curved edge; a contour
    with an arc; a contour whose first edge is broken. *)
Definition example_square : list (list example_interpolator) :=
  [ [ example_flat (mk_vec2 0 0) (mk_vec2 1 0);
      example_flat (mk_vec2 1 0) (mk_vec2 1 1);
      example_flat (mk_vec2 1 1) (mk_vec2 0 1);
      example_flat (mk_vec2 0 1) (mk_vec2 0 0) ] ].

Definition example_two_contours : list (list example_interpolator) :=
  [ [ example_flat (mk_vec2 0 0) (mk_vec2 1 0);
      example_flat (mk_vec2 1 0) (mk_vec2 1 1);
      example_flat (mk_vec2 1 1) (mk_vec2 0 1);
      example_flat (mk_vec2 0 1) (mk_vec2 0 0) ];
    [ example_flat (mk_vec2 2 0) (mk_vec2 3 0);
      example_curve (mk_vec2 3 0) (mk_vec2 3 1) (mk_vec2 2 1);
      example_flat (mk_vec2 2 1) (mk_vec2 2 0) ] ].

Definition example_arc_path : list (list example_interpolator) :=
  [ [ example_arc (mk_vec2 1 0) (mk_vec2 (-1) 0) (mk_vec2 0 0) 1 (mk_range 0 (355 # 113));
      example_flat (mk_vec2 (-1) 0) (mk_vec2 1 0) ] ].

Definition example_broken_path : list (list example_interpolator) :=
  [ [ example_broken (mk_vec2 0 0) (mk_vec2 1 0) (mk_vec2 5 5) (mk_vec2 6 6);
      example_flat (mk_vec2 6 6) (mk_vec2 0 0) ] ].

(** The tessellated path of an example, whatever the constructor returns. *)
Definition example_tessellate (input : list (list example_interpolator))
    : TessellatedPathPrivate.t :=
  match TessellatedPath_from_Path (H := example_math) (H0 := example_interface)
          input example_params true with
  | Some (tp, _) => tp
  | None => new_TessellatedPathPrivate 0 example_params
  end.

Definition example_square_tp : TessellatedPathPrivate.t :=
  Eval vm_compute in example_tessellate example_square.

Definition example_two_contours_tp : TessellatedPathPrivate.t :=
  Eval vm_compute in example_tessellate example_two_contours.

Definition example_arc_tp : TessellatedPathPrivate.t :=
  Eval vm_compute in example_tessellate example_arc_path.

Definition example_broken_tp : TessellatedPathPrivate.t :=
  Eval vm_compute in example_tessellate example_broken_path.

(** The refiner that the constructor creates for the second example, and
    what [refine_tessellation] makes of it for a smaller distance. *)
Definition example_two_contours_refiner : RefinerPrivate.t (H := example_interface) :=
  Eval vm_compute in
    match TessellatedPath_from_Path (H := example_math) (H0 := example_interface)
            example_two_contours example_params true with
    | Some (_, Some r) => r
    | _ => RefinerPrivate.mk (new_TessellatedPathPrivate 0 example_params) []
    end.

Definition example_refined : RefinerPrivate.t (H := example_interface) :=
  Eval vm_compute in
    match refine_tessellation (H := example_math) (H0 := example_interface)
            example_two_contours_refiner (1 # 2) 1 with
    | Some r => r
    | None => example_two_contours_refiner
    end.

(** A mesh that records the splices made, an empty dictionary and a
    [SweepEvent] that leaves all as it is, to run the event loop on; three
    pending events, two of them at the same place. *)
Definition example_sweep : Sweep.SweepInterface :=
  {| Sweep.GLUmesh := list (nat * nat);
     Sweep.Dict := unit;
     Sweep.glu_fastuidraw_gl_meshSplice :=
       fun m v w => Some (m ++ [(Sweep.address v, Sweep.address w)]);
     Sweep.SweepEvent_body := fun st _ => Some st |}.

Definition example_tess : Sweep.fastuidraw_GLUtesselator (H := example_sweep) :=
  Sweep.mk_tess (H := example_sweep)
    [ Sweep.mk_GLUvertex 0 0 0 10; Sweep.mk_GLUvertex 1 1 0 11;
      Sweep.mk_GLUvertex 2 0 0 12 ]
    ([] : list (nat * nat)) tt.

Definition example_orgUp : Sweep.GLUvertex := Sweep.mk_GLUvertex 1 4 (-1) 21.
Definition example_dstUp : Sweep.GLUvertex := Sweep.mk_GLUvertex 2 0 1 22.
Definition example_isect : Sweep.GLUvertex := Sweep.mk_GLUvertex 5 2 0 0.


(** ** Further accessors of TessellatedPath *)

Definition tessellation_parameters (d : TessellatedPathPrivate.t)
    : TessellationParams.t :=
  TessellatedPathPrivate.m_params d.

Definition max_segments (d : TessellatedPathPrivate.t) : N :=
  TessellatedPathPrivate.m_max_segments d.

Definition max_recursion (d : TessellatedPathPrivate.t) : N :=
  TessellatedPathPrivate.m_max_recursion d.

Definition has_arcs (d : TessellatedPathPrivate.t) : bool :=
  TessellatedPathPrivate.m_has_arcs d.

(** [TessellatedPath::edge_type(contour, edge)]; the name [edge_type] is that
    of the method of the interpolators. *)
Definition TessellatedPath_edge_type (d : TessellatedPathPrivate.t)
    (contour edge : nat) : option edge_type_t :=
  es ← TessellatedPathPrivate.m_edges d !! contour;
  E ← es !! edge;
  Some (m_edge_type E).

(** [Refiner::tessellated_path()]. *)
Definition tessellated_path `{PathInterface} (d : RefinerPrivate.t)
    : TessellatedPathPrivate.t :=
  RefinerPrivate.m_path d.

(** ** Vocabulary of the further properties *)

(** The result of tessellating an edge in the constructor from a [Refiner]:
    [resume_tessellation] of the saved state when there is one, and else
    [produce_tessellation] of the interpolator, whose state is dropped. *)
Definition refiner_edge_result `{FloatMath} `{PathInterface}
    (params : TessellationParams.t) (edge : PerEdge.t) : option edge_result :=
  interpolator ← PerEdge.m_interpolator edge;
  Some
    match PerEdge.m_tess_state edge with
    | Some ts =>
        let '(ts', calls, tmp) := resume_tessellation ts params in
        mk_edge_result (run_storage_calls calls []) tmp (edge_type interpolator)
          (Some (recursion_depth ts'))
    | None =>
        let '(_, calls, tmp) := produce_tessellation interpolator params in
        mk_edge_result (run_storage_calls calls []) tmp (edge_type interpolator) None
    end.

(** [r] is the result of tessellating the edge [e] of the contour [o] when
    [tp] was constructed, by either constructor. *)
Definition edge_result_of `{FloatMath} `{PathInterface} (tp : TessellatedPathPrivate.t)
    (o e : nat) (r : edge_result) : Prop :=
  (exists (input : Path) TP want_ref ref (contour : PathContour) interpolator,
     TessellatedPath_from_Path input TP want_ref = Some (tp, ref)
     /\ input !! o = Some contour /\ contour !! e = Some interpolator
     /\ r = path_edge_result TP interpolator)
  \/ (exists ref_d max_distance additional_recursion_count contours
             (c : PerContour.t) (edge : PerEdge.t),
        TessellatedPath_from_Refiner ref_d max_distance additional_recursion_count
        = Some (tp, contours)
        /\ RefinerPrivate.m_contours ref_d !! o = Some c
        /\ PerContour.m_edges c !! e = Some edge
        /\ refiner_edge_result
             (refiner_params ref_d max_distance additional_recursion_count) edge
           = Some r).

(** A segment is an arc segment. *)
Definition is_arc_segment (S : segment) : bool := is_arc (m_type S).

(** The step by which the loops over the edges accumulate [m_max_recursion]. *)
Definition recursion_step (acc : N) (r : edge_result) : N :=
  match res_recursion r with Some depth => N.max acc depth | None => acc end.

(** What [d'] holds of the fields that a tessellated path reports, after the
    edges with the results [rs] were added to [d]. *)
Definition summary_of (rs : list edge_result) (d d' : TessellatedPathPrivate.t) : Prop :=
  TessellatedPathPrivate.m_has_arcs d'
  = TessellatedPathPrivate.m_has_arcs d
    || existsb is_arc_segment (concat (map res_work_room rs))
  /\ TessellatedPathPrivate.m_max_segments d'
     = fold_left (fun acc r => N.max acc (wrap (N.of_nat (length (res_work_room r)))))
         rs (TessellatedPathPrivate.m_max_segments d)
  /\ TessellatedPathPrivate.m_max_distance d'
     = fold_left (fun acc r => Qmax acc (res_max_distance r)) rs
         (TessellatedPathPrivate.m_max_distance d)
  /\ TessellatedPathPrivate.m_max_recursion d'
     = fold_left recursion_step rs (TessellatedPathPrivate.m_max_recursion d)
  /\ TessellatedPathPrivate.m_stroked d' = TessellatedPathPrivate.m_stroked d
  /\ TessellatedPathPrivate.m_filled d' = TessellatedPathPrivate.m_filled d.

(** The edge types of the edge table. *)
Definition edge_types (d : TessellatedPathPrivate.t) : list (list edge_type_t) :=
  fmap (M := list) (fmap (M := list) m_edge_type) (TessellatedPathPrivate.m_edges d).

(** The distances from the start of the contour of the segments of one
    contour, [from] being that of the first one. *)
Fixpoint contour_distances_from (from : Q) (l : list segment) : Prop :=
  match l with
  | [] => True
  | S0 :: rest =>
      m_distance_from_contour_start S0 = from
      /\ contour_distances_from (m_distance_from_contour_start S0 + m_length S0) rest
  end.

(** Every segment of the contour [ts] has the open contour length that is the
    sum of the lengths of the segments of all the edges but the last one. *)
Definition contour_open_ok (ts : list (list segment)) : Prop :=
  Forall (Forall (fun S => m_open_contour_length S
                           = sum_lengths 0 (concat (removelast ts)))) ts.

(** The segments of the edges of a contour, edge by edge, as
    [edge_segment_data] returns them for the edges [0] to
    [number_edges(contour) - 1]. *)
Definition contour_edges_data (d : TessellatedPathPrivate.t) (contour : nat)
    : option (list (list segment)) :=
  es ← TessellatedPathPrivate.m_edges d !! contour;
  mapM (fun e => edge_segment_data d contour e) (seq 0%nat (length es)).

(** What the loop over the contours establishes for the segments [ts] of a
    contour, besides the closed contour length. *)
Definition contour_fields_ok (ts : list (list segment)) : Prop :=
  contour_distances_from 0 (concat ts) /\ contour_open_ok ts.

(** What the constructor from a [Path] stores in the refiner for an edge: the
    tessellation state that [produce_tessellation] returned and the
    interpolator. *)
Definition path_refiner_edge `{PathInterface} (TP : TessellationParams.t)
    (interpolator : interpolator_base) : PerEdge.t :=
  PerEdge.mk (fst (fst (produce_tessellation interpolator TP))) (Some interpolator).

(** An edge of a refiner after the constructor from a [Refiner] has run:
    the saved state is the one that [resume_tessellation] left. *)
Definition resumed_edge `{PathInterface} (params : TessellationParams.t)
    (edge : PerEdge.t) : PerEdge.t :=
  match PerEdge.m_tess_state edge with
  | Some ts =>
      PerEdge.mk (Some (fst (fst (resume_tessellation ts params))))
        (PerEdge.m_interpolator edge)
  | None => edge
  end.

(** ** Further example inputs *)

(** An interface whose interpolators emit no segment. *)
Definition example_silent : PathInterface :=
  {| interpolator_base := unit;
     tessellation_state := unit;
     edge_type := fun _ => starts_new_edge;
     produce_tessellation := fun _ _ => (None, [], 0);
     recursion_depth := fun _ => 0%N;
     resume_tessellation := fun ts _ => (ts, [], 0) |}.

(** The interface of the examples with another answer of [edge_type]: the
    curve continues the edge before it. *)
Definition example_typed_interface : PathInterface :=
  {| interpolator_base := example_interpolator;
     tessellation_state := N * list storage_call;
     edge_type := fun it =>
       match it with
       | example_curve _ _ _ => continues_edge
       | _ => starts_new_edge
       end;
     produce_tessellation := example_produce_tessellation;
     recursion_depth := fst;
     resume_tessellation := fun ts _ => ((fst ts + 1)%N, snd ts, snd ts, 1 # 2) |}.

(** The tessellated path of the second example for this interface. *)
Definition example_typed_tp : TessellatedPathPrivate.t :=
  Eval vm_compute in
    match TessellatedPath_from_Path (H := example_math) (H0 := example_typed_interface)
            example_two_contours example_params false with
    | Some (tp, _) => tp
    | None => new_TessellatedPathPrivate 0 example_params
    end.

(** The result of tessellating the curved edge of the second example. *)
Definition example_curve_result : edge_result :=
  path_edge_result (H := example_math) (H0 := example_interface) example_params
    (example_curve (mk_vec2 3 0) (mk_vec2 3 1) (mk_vec2 2 1)).

(** * Proofs *)

Module B := TessellatedPathBuildingState.
Module P := TessellatedPathPrivate.

Ltac uint_lia := unfold uint_modulus, id in *; lia.

(** ** Rounding to a binary floating point format *)

Lemma round_half_even_range x :
  (Qfloor x <= round_half_even x <= Qfloor x + 1)%Z.
Proof.
  unfold round_half_even. destruct (Qcompare _ _); [destruct (Z.even _)|..]; lia.
Qed.

Lemma round_half_even_le x y : x <= y -> (round_half_even x <= round_half_even y)%Z.
Proof.
  intros Hxy. pose proof (Qfloor_resp_le _ _ Hxy) as Hf.
  pose proof (round_half_even_range x) as Hx.
  pose proof (round_half_even_range y) as Hy.
  destruct (Z.eq_dec (Qfloor x) (Qfloor y)) as [He|Hne]; [|lia].
  unfold round_half_even in *. rewrite <- He in *.
  destruct (Qcompare_spec (x - inject_Z (Qfloor x)) (1 # 2)) as [H1|H1|H1];
    destruct (Qcompare_spec (y - inject_Z (Qfloor x)) (1 # 2)) as [H2|H2|H2];
    try destruct (Z.even (Qfloor x)); try lia; lra.
Qed.

Lemma round_half_even_comp x y : x == y -> round_half_even x = round_half_even y.
Proof.
  intros Hxy. apply Z.le_antisymm; apply round_half_even_le; lra.
Qed.

Lemma round_half_even_Z n : round_half_even (inject_Z n) = n.
Proof.
  unfold round_half_even. rewrite Qfloor_Z.
  destruct (Qcompare_spec (inject_Z n - inject_Z n) (1 # 2)) as [H|H|H]; [lra|done|lra].
Qed.

Lemma Qfloor_opp_Z x : x == inject_Z (Qfloor x) -> Qfloor (- x) = (- Qfloor x)%Z.
Proof.
  intros H. rewrite H at 1. rewrite <- inject_Z_opp. apply Qfloor_Z.
Qed.

Lemma Qfloor_opp_frac x :
  ~ x == inject_Z (Qfloor x) -> Qfloor (- x) = (- Qfloor x - 1)%Z.
Proof.
  intros H. pose proof (Qfloor_le x) as H1. pose proof (Qlt_floor x) as H2.
  rewrite inject_Z_plus in H2. change (inject_Z 1) with 1 in H2.
  assert (Hlt : inject_Z (Qfloor x) < x).
  { apply Qle_lteq in H1 as [H1|H1]; [done|]. destruct H. by symmetry. }
  apply Z.le_antisymm.
  - assert (Hc : - x < inject_Z (- Qfloor x)) by (rewrite inject_Z_opp; lra).
    pose proof (Qfloor_le (- x)) as H3.
    assert (inject_Z (Qfloor (- x)) < inject_Z (- Qfloor x)) as H4 by lra.
    rewrite <- Zlt_Qlt in H4. lia.
  - assert (Hc : inject_Z (- Qfloor x - 1) <= - x).
    { unfold Z.sub. rewrite inject_Z_plus, inject_Z_opp.
      change (inject_Z (- (1))) with (- (1)). lra. }
    apply Qfloor_resp_le in Hc. by rewrite Qfloor_Z in Hc.
Qed.

Lemma round_half_even_opp x : round_half_even (- x) = (- round_half_even x)%Z.
Proof.
  destruct (Qeq_dec x (inject_Z (Qfloor x))) as [H|H].
  - rewrite (round_half_even_comp x _ H).
    assert (H' : - x == inject_Z (- Qfloor x)) by (rewrite inject_Z_opp; lra).
    rewrite (round_half_even_comp _ _ H'). by rewrite !round_half_even_Z.
  - unfold round_half_even. rewrite (Qfloor_opp_frac x H).
    pose proof (Qfloor_le x) as H1. pose proof (Qlt_floor x) as H2.
    rewrite inject_Z_plus in H2. change (inject_Z 1) with 1 in H2.
    set (f := Qfloor x) in *.
    assert (Hf : inject_Z (- f - 1) == - inject_Z f - 1).
    { unfold Z.sub. rewrite inject_Z_plus, inject_Z_opp.
      change (inject_Z (- (1))) with (- (1)). ring. }
    assert (Hev : Z.even (- f - 1) = negb (Z.even f)).
    { replace (- f - 1)%Z with (- (f + 1))%Z by lia.
      rewrite Z.even_opp, Z.even_add. simpl. by destruct (Z.even f). }
    rewrite Hev.
    destruct (Qcompare_spec (x - inject_Z f) (1 # 2)) as [Ha|Ha|Ha];
      destruct (Qcompare_spec (- x - inject_Z (- f - 1)) (1 # 2)) as [Hb|Hb|Hb];
      rewrite Hf in Hb; try destruct (Z.even f); simpl; try lia; lra.
Qed.

Lemma Qpower2_pos k : 0 < 2 ^ k.
Proof. by apply Qpower_0_lt. Qed.

Lemma Qpower2_le k k' : (k <= k')%Z -> 2 ^ k <= 2 ^ k'.
Proof. intros. by apply Qpower_le_compat_l. Qed.

Lemma Qpower2_succ k : 2 ^ (k + 1) == 2 * 2 ^ k.
Proof. rewrite Qpower_plus by done. change (2 ^ 1) with 2. ring. Qed.

Lemma Qpower2_Z k : (0 <= k)%Z -> 2 ^ k == inject_Z (2 ^ k).
Proof. intros. by rewrite Zpower_Qpower. Qed.

Lemma Qlog2_spec x : 0 < x -> 2 ^ Qlog2 x <= x /\ x < 2 ^ (Qlog2 x + 1).
Proof.
  intros Hx. destruct x as [n d]. unfold Qlog2. cbn [Qnum Qden].
  assert (Hn : (0 < n)%Z) by (unfold Qlt in Hx; cbn in Hx; lia).
  set (a := Z.log2 n). set (b := Z.log2 (Z.pos d)).
  destruct (Z.log2_spec n Hn) as [Ha1 Ha2]. fold a in Ha1, Ha2.
  destruct (Z.log2_spec (Z.pos d) ltac:(done)) as [Hb1 Hb2]. fold b in Hb1, Hb2.
  assert (Ha0 : (0 <= a)%Z) by apply Z.log2_nonneg.
  assert (Hb0 : (0 <= b)%Z) by apply Z.log2_nonneg.
  assert (Hxq : n # d == inject_Z n / inject_Z (Z.pos d)) by apply Qmake_Qdiv.
  assert (Hdq : 0 < inject_Z (Z.pos d)) by (rewrite <- (Zlt_Qlt 0); lia).
  rewrite Zle_Qle, <- Qpower2_Z in Ha1 by done.
  rewrite Zlt_Qlt, <- Qpower2_Z in Ha2 by lia.
  rewrite Zle_Qle, <- Qpower2_Z in Hb1 by done.
  rewrite Zlt_Qlt, <- Qpower2_Z in Hb2 by lia.
  replace (Z.succ a) with (a + 1)%Z in Ha2 by lia.
  replace (Z.succ b) with (b + 1)%Z in Hb2 by lia.
  assert (Hmul : (n # d) * inject_Z (Z.pos d) == inject_Z n).
  { rewrite Hxq. field. lra. }
  pose proof (Qpower2_pos a) as Hpa. pose proof (Qpower2_pos b) as Hpb.
  pose proof (Qpower2_pos (a - b)) as Hpab.
  assert (Hab : 2 ^ (a - b) * 2 ^ b == 2 ^ a).
  { rewrite <- Qpower_plus by done. by replace (a - b + b)%Z with a by lia. }
  rewrite Qpower2_succ in Ha2, Hb2.
  destruct (Qle_bool (2 ^ (a - b)) (n # d)) eqn:Hle.
  - apply Qle_bool_iff in Hle. split; [done|].
    rewrite Qpower2_succ.
    apply Qnot_le_lt. intros Hc.
    assert (2 * 2 ^ (a - b) * 2 ^ b <= (n # d) * inject_Z (Z.pos d)).
    { apply Qle_trans with ((n # d) * 2 ^ b).
      - apply Qmult_le_compat_r; [done|lra].
      - rewrite !(Qmult_comm (n # d)). apply Qmult_le_compat_r; [lra|lra]. }
    rewrite Hmul in H. rewrite <- Qmult_assoc, Hab in H. lra.
  - assert (Hlt : (n # d) < 2 ^ (a - b)).
    { apply Qnot_le_lt. intros Hc. apply Qle_bool_iff in Hc. congruence. }
    replace (a - b - 1 + 1)%Z with (a - b)%Z by lia. split; [|done].
    assert (Hs : 2 ^ (a - b) == 2 * 2 ^ (a - b - 1)).
    { rewrite <- Qpower2_succ. by replace (a - b - 1 + 1)%Z with (a - b)%Z by lia. }
    apply Qnot_lt_le. intros Hc.
    assert ((n # d) * inject_Z (Z.pos d) < 2 ^ (a - b - 1) * (2 * 2 ^ b)).
    { apply Qle_lt_trans with ((n # d) * (2 * 2 ^ b)).
      - rewrite !(Qmult_comm (n # d)). apply Qmult_le_compat_r; lra.
      - apply Qmult_lt_compat_r; [lra|done]. }
    rewrite Hmul in H.
    assert (2 ^ (a - b - 1) * (2 * 2 ^ b) == 2 ^ a).
    { rewrite <- Hab, Hs. ring. }
    lra.
Qed.

Lemma Qlog2_le x y : 0 < x -> x <= y -> (Qlog2 x <= Qlog2 y)%Z.
Proof.
  intros Hx Hxy.
  destruct (Qlog2_spec x Hx) as [H1 _].
  destruct (Qlog2_spec y ltac:(lra)) as [_ H2].
  assert (Hlt : 2 ^ Qlog2 x < 2 ^ (Qlog2 y + 1)) by lra.
  apply Qpower_lt_compat_l_inv in Hlt; [lia|done].
Qed.

(** Rounding to the multiples of [2 ^ e]. *)
Lemma grid_le e x y :
  x <= y ->
  inject_Z (round_half_even (x / 2 ^ e)) * 2 ^ e
  <= inject_Z (round_half_even (y / 2 ^ e)) * 2 ^ e.
Proof.
  intros Hxy. pose proof (Qpower2_pos e) as He.
  apply Qmult_le_compat_r; [|lra].
  rewrite <- Zle_Qle. apply round_half_even_le.
  apply Qle_shift_div_l; [done|].
  assert (x / 2 ^ e * 2 ^ e == x) as -> by (field; lra). done.
Qed.

Lemma grid_fixed e k :
  (e <= k)%Z ->
  inject_Z (round_half_even (2 ^ k / 2 ^ e)) * 2 ^ e == 2 ^ k.
Proof.
  intros Hek. pose proof (Qpower2_pos e) as He.
  assert (Hq : 2 ^ k / 2 ^ e == inject_Z (2 ^ (k - e))).
  { rewrite <- Qpower2_Z by lia. by rewrite Qpower_minus. }
  rewrite (round_half_even_comp _ _ Hq), round_half_even_Z, <- Qpower2_Z by lia.
  rewrite <- Qpower_plus by done. by replace (k - e + e)%Z with k by lia.
Qed.

Lemma round_to_pos prec emin x :
  0 < x ->
  round_to prec emin x
  == inject_Z (round_half_even (x / 2 ^ Z.max emin (Qlog2 x - (prec - 1))))
     * 2 ^ Z.max emin (Qlog2 x - (prec - 1)).
Proof.
  intros Hx. unfold round_to.
  destruct (Qeq_bool x 0) eqn:H0; [apply Qeq_bool_iff in H0; lra|].
  rewrite Qred_correct.
  assert (Ha : Qlog2 (Qabs x) = Qlog2 x).
  { destruct x as [n d]. unfold Qlt in Hx. cbn in Hx.
    destruct n; try lia. reflexivity. }
  by rewrite Ha.
Qed.

Lemma round_to_0 prec emin x : x == 0 -> round_to prec emin x = 0.
Proof. intros H. unfold round_to. apply Qeq_bool_iff in H. by rewrite H. Qed.

Lemma round_to_opp prec emin x : round_to prec emin (- x) == - round_to prec emin x.
Proof.
  unfold round_to.
  destruct (Qeq_bool x 0) eqn:H0.
  - apply Qeq_bool_iff in H0. assert (H1 : - x == 0) by lra.
    apply Qeq_bool_iff in H1. rewrite H1. reflexivity.
  - assert (H1 : Qeq_bool (- x) 0 = false).
    { apply not_true_iff_false. intros H1%Qeq_bool_iff.
      apply not_true_iff_false in H0. apply H0, Qeq_bool_iff. lra. }
    rewrite H1, !Qred_correct.
    assert (Ha : Qabs (- x) = Qabs x).
    { destruct x as [[|n|n] d]; reflexivity. }
    rewrite Ha. set (e := Z.max _ _).
    assert (Hq : - x / 2 ^ e == - (x / 2 ^ e)).
    { pose proof (Qpower2_pos e). field. lra. }
    rewrite (round_half_even_comp _ _ Hq), round_half_even_opp, inject_Z_opp. ring.
Qed.

Lemma round_to_nonneg prec emin x : 0 <= x -> 0 <= round_to prec emin x.
Proof.
  intros Hx. apply Qle_lteq in Hx as [Hx|Hx].
  - rewrite (round_to_pos _ _ _ Hx). set (e := Z.max _ _).
    pose proof (Qpower2_pos e) as He.
    apply Qmult_le_0_compat; [|lra].
    change 0 with (inject_Z 0). rewrite <- Zle_Qle.
    pose proof (round_half_even_range (x / 2 ^ e)) as Hr.
    assert (0 <= x / 2 ^ e) as Hq by (apply Qle_shift_div_l; lra).
    apply Qfloor_resp_le in Hq. change (Qfloor 0) with 0%Z in Hq. lia.
  - rewrite round_to_0 by (by symmetry). lra.
Qed.

Lemma round_to_le_pos prec emin x y :
  (1 <= prec)%Z -> 0 < x -> x <= y ->
  round_to prec emin x <= round_to prec emin y.
Proof.
  intros Hp Hx Hxy. assert (Hy : 0 < y) by lra.
  rewrite (round_to_pos _ _ _ Hx), (round_to_pos _ _ _ Hy).
  pose proof (Qlog2_le x y Hx Hxy) as Hk.
  set (kx := Qlog2 x) in *. set (ky := Qlog2 y) in *.
  set (ex := Z.max emin (kx - (prec - 1))). set (ey := Z.max emin (ky - (prec - 1))).
  destruct (Z.eq_dec ex ey) as [He|Hne].
  { rewrite He. by apply grid_le. }
  assert (Hlt : (kx < ky)%Z) by lia.
  destruct (Qlog2_spec x Hx) as [_ Hx2]. destruct (Qlog2_spec y Hy) as [Hy1 _].
  fold kx in Hx2. fold ky in Hy1.
  assert (Hb : x <= 2 ^ ky).
  { apply Qle_trans with (2 ^ (kx + 1)); [lra|]. apply Qpower2_le. lia. }
  apply Qle_trans with (2 ^ ky).
  - rewrite <- (grid_fixed ex ky) by lia. by apply grid_le.
  - rewrite <- (grid_fixed ey ky) at 1 by lia. by apply grid_le.
Qed.

(** Rounding to a binary format is monotone. *)
Lemma round_to_le prec emin x y :
  (1 <= prec)%Z -> x <= y -> round_to prec emin x <= round_to prec emin y.
Proof.
  intros Hp Hxy.
  destruct (Qlt_le_dec 0 x) as [Hx|Hx]; [by apply round_to_le_pos|].
  assert (Hrx : round_to prec emin x <= 0).
  { pose proof (round_to_nonneg prec emin (- x) ltac:(lra)) as H.
    rewrite round_to_opp in H. lra. }
  destruct (Qlt_le_dec y 0) as [Hy|Hy].
  - pose proof (round_to_le_pos prec emin (- y) (- x) Hp ltac:(lra) ltac:(lra)) as H.
    rewrite !round_to_opp in H. lra.
  - pose proof (round_to_nonneg prec emin y Hy). lra.
Qed.


Lemma round_half_even_err t : Qabs (inject_Z (round_half_even t) - t) <= 1 # 2.
Proof.
  pose proof (Qfloor_le t) as H1. pose proof (Qlt_floor t) as H2.
  rewrite inject_Z_plus in H2. change (inject_Z 1) with 1 in H2.
  unfold round_half_even. set (f := Qfloor t) in *.
  destruct (Qcompare_spec (t - inject_Z f) (1 # 2)) as [H|H|H];
    [destruct (Z.even f)|..];
    rewrite ?inject_Z_plus; change (inject_Z 1) with 1;
    apply Qabs_case; intros; lra.
Qed.

Lemma grid_err e x :
  Qabs (inject_Z (round_half_even (x / 2 ^ e)) * 2 ^ e - x) <= 2 ^ e / 2.
Proof.
  pose proof (Qpower2_pos e) as He.
  pose proof (round_half_even_err (x / 2 ^ e)) as Hr.
  assert (Heq : inject_Z (round_half_even (x / 2 ^ e)) * 2 ^ e - x
                == (inject_Z (round_half_even (x / 2 ^ e)) - x / 2 ^ e) * 2 ^ e).
  { field. lra. }
  rewrite Heq, Qabs_Qmult, (Qabs_pos (2 ^ e)) by lra.
  apply Qle_trans with ((1 # 2) * 2 ^ e); [by apply Qmult_le_compat_r; [|lra]|].
  assert ((1 # 2) * 2 ^ e == 2 ^ e / 2) as -> by (field; lra). lra.
Qed.

Lemma round_to_err_pos prec emin x :
  0 < x ->
  Qabs (round_to prec emin x - x) <= 2 ^ (- prec) * x + 2 ^ (emin - 1).
Proof.
  intros Hx. rewrite (round_to_pos _ _ _ Hx).
  destruct (Qlog2_spec x Hx) as [Hk _]. set (k := Qlog2 x) in *.
  set (e := Z.max emin (k - (prec - 1))).
  eapply Qle_trans; [apply grid_err|].
  assert (Hhalf : forall j, 2 ^ j / 2 == 2 ^ (j - 1)).
  { intros j. rewrite Qpower_minus by done. change (2 ^ 1) with 2. reflexivity. }
  rewrite Hhalf.
  pose proof (Qpower2_pos (emin - 1)). pose proof (Qpower2_pos (- prec)).
  destruct (Z.max_spec emin (k - (prec - 1))) as [[_ He]|[_ He]]; fold e in He; rewrite He.
  - replace (k - (prec - 1) - 1)%Z with (- prec + k)%Z by lia.
    rewrite Qpower_plus by done.
    assert (2 ^ (- prec) * 2 ^ k <= 2 ^ (- prec) * x).
    { rewrite !(Qmult_comm (2 ^ (- prec))). apply Qmult_le_compat_r; lra. }
    lra.
  - assert (0 <= 2 ^ (- prec) * x) by (apply Qmult_le_0_compat; lra). lra.
Qed.

(** The error of rounding to a binary format. *)
Lemma round_to_err prec emin x :
  Qabs (round_to prec emin x - x) <= 2 ^ (- prec) * Qabs x + 2 ^ (emin - 1).
Proof.
  pose proof (Qpower2_pos (emin - 1)). pose proof (Qpower2_pos (- prec)).
  destruct (Q_dec x 0) as [[Hx|Hx]|Hx].
  - pose proof (round_to_err_pos prec emin (- x) ltac:(lra)) as H1.
    rewrite round_to_opp in H1.
    assert (He : - round_to prec emin x - - x == - (round_to prec emin x - x)) by ring.
    rewrite He, Qabs_opp in H1. rewrite (Qabs_neg x) by lra. exact H1.
  - rewrite (Qabs_pos x) by lra. by apply round_to_err_pos.
  - rewrite (round_to_0 _ _ _ Hx), Hx. change (Qabs (0 - 0)) with 0.
    change (Qabs 0) with 0. lra.
Qed.

Lemma round_to_power prec emin j :
  (1 <= prec)%Z -> (emin <= j)%Z -> round_to prec emin (2 ^ j) == 2 ^ j.
Proof.
  intros Hp Hj. pose proof (Qpower2_pos j) as Hpos.
  rewrite (round_to_pos _ _ _ Hpos).
  assert (Hk : Qlog2 (2 ^ j) = j).
  { destruct (Qlog2_spec (2 ^ j) Hpos) as [H1 H2].
    apply Qpower_le_compat_l_inv in H1; [|done].
    apply Qpower_lt_compat_l_inv in H2; [|done]. lia. }
  rewrite Hk. apply grid_fixed. lia.
Qed.

Lemma grid_multiple e e' m :
  (e' <= e)%Z ->
  inject_Z (round_half_even (inject_Z m * 2 ^ e / 2 ^ e')) * 2 ^ e'
  == inject_Z m * 2 ^ e.
Proof.
  intros He. pose proof (Qpower2_pos e').
  assert (Hq : inject_Z m * 2 ^ e / 2 ^ e' == inject_Z (m * 2 ^ (e - e'))).
  { rewrite inject_Z_mult, <- Qpower2_Z by lia. rewrite Qpower_minus by done.
    field. lra. }
  rewrite (round_half_even_comp _ _ Hq), round_half_even_Z.
  rewrite inject_Z_mult, <- Qpower2_Z by lia. rewrite Qpower_minus by done.
  field. lra.
Qed.

Lemma round_to_idem_pos prec emin x :
  (1 <= prec)%Z -> 0 < x ->
  round_to prec emin (round_to prec emin x) == round_to prec emin x.
Proof.
  intros Hp Hx.
  destruct (Qlog2_spec x Hx) as [Hk1 Hk2].
  pose proof (round_to_pos prec emin x Hx) as Hy.
  set (k := Qlog2 x) in *. set (e := Z.max emin (k - (prec - 1))) in *.
  set (m := round_half_even (x / 2 ^ e)) in *.
  set (y := round_to prec emin x) in *.
  pose proof (round_to_nonneg prec emin x ltac:(lra)) as Hy0. fold y in Hy0.
  apply Qle_lteq in Hy0 as [Hy0|Hy0].
  2:{ rewrite (round_to_0 prec emin y) by (by symmetry). done. }
  pose proof (Qpower2_pos e) as He.
  assert (Hek : (e <= k + 1)%Z).
  { apply Z.le_ngt. intros Hlt.
    assert (Hh : x / 2 ^ e < 1 # 2).
    { apply Qlt_shift_div_r; [done|].
      apply Qlt_le_trans with (2 ^ (k + 1)); [done|].
      assert ((1 # 2) * 2 ^ e == 2 ^ (e - 1)) as ->.
      { rewrite Qpower_minus by done. change (2 ^ 1) with 2. field. }
      apply Qpower2_le. lia. }
    assert (Hm : m = 0%Z).
    { subst m. unfold round_half_even.
      assert (Hq0 : 0 <= x / 2 ^ e) by (apply Qle_shift_div_l; lra).
      assert (Hf : Qfloor (x / 2 ^ e) = 0%Z).
      { apply Z.le_antisymm.
        - assert (Hl : x / 2 ^ e < inject_Z 1) by (change (inject_Z 1) with 1; lra).
          pose proof (Qfloor_le (x / 2 ^ e)) as Hfl.
          assert (inject_Z (Qfloor (x / 2 ^ e)) < inject_Z 1) as Hz by lra.
          rewrite <- Zlt_Qlt in Hz. lia.
        - apply Qfloor_resp_le in Hq0. by change (Qfloor 0) with 0%Z in Hq0. }
      rewrite Hf. change (inject_Z 0) with 0.
      destruct (Qcompare_spec (x / 2 ^ e - 0) (1 # 2)) as [H|H|H]; [lra|done|lra]. }
    rewrite Hy, Hm in Hy0. change (inject_Z 0) with 0 in Hy0. lra. }
  assert (Hle : y <= 2 ^ (k + 1)).
  { rewrite Hy. rewrite <- (grid_fixed e (k + 1)) by done. apply grid_le. lra. }
  apply Qle_lteq in Hle as [Hlt|Heq].
  - rewrite (round_to_pos prec emin y Hy0).
    set (e' := Z.max emin (Qlog2 y - (prec - 1))).
    assert (He' : (e' <= e)%Z).
    { destruct (Qlog2_spec y Hy0) as [H1 _].
      assert (Hlt2 : 2 ^ Qlog2 y < 2 ^ (k + 1)) by lra.
      apply Qpower_lt_compat_l_inv in Hlt2; [|done]. lia. }
    assert (Hcomp : y / 2 ^ e' == inject_Z m * 2 ^ e / 2 ^ e').
    { by rewrite Hy. }
    rewrite (round_half_even_comp _ _ Hcomp), (grid_multiple e e' m He'). by symmetry.
  - assert (Hr : round_to prec emin y == round_to prec emin (2 ^ (k + 1))).
    { apply Qle_antisym; apply round_to_le; try done; lra. }
    rewrite Hr, round_to_power by lia. by symmetry.
Qed.

(** Rounding leaves a rounded number as it is. *)
Lemma round_to_idem prec emin x :
  (1 <= prec)%Z ->
  round_to prec emin (round_to prec emin x) == round_to prec emin x.
Proof.
  intros Hp. destruct (Q_dec x 0) as [[Hx|Hx]|Hx].
  - pose proof (round_to_idem_pos prec emin (- x) Hp ltac:(lra)) as H.
    pose proof (round_to_opp prec emin x) as Ho.
    assert (Hc : round_to prec emin (round_to prec emin (- x))
                 == - round_to prec emin (round_to prec emin x)).
    { rewrite <- round_to_opp.
      apply Qle_antisym; apply round_to_le; try done; lra. }
    rewrite Hc, Ho in H. lra.
  - by apply round_to_idem_pos.
  - rewrite (round_to_0 _ _ _ Hx). reflexivity.
Qed.

Lemma binary32_le x y : x <= y -> binary32 x <= binary32 y.
Proof. apply round_to_le. lia. Qed.

(** The rounding to binary32 is a rounding to nearest in the sense of
    [rounds_to_nearest]. *)
Lemma binary32_rounds_to_nearest :
  rounds_to_nearest (H := binary32_math) (2 ^ (-24)) (2 ^ (-150)).
Proof.
  split; [exact binary32_le|]. split; [intros x; apply round_to_idem; lia|].
  split; [vm_compute; reflexivity|]. intros x. apply (round_to_err 24 (-149)).
Qed.

Lemma example_rounds_to_nearest : rounds_to_nearest (H := example_math) 0 0.
Proof.
  split; [by intros x y|]. split; [by intros x|]. split; [reflexivity|].
  intros x. cbn [to_float example_math].
  assert (He : x - x == 0) by ring. rewrite He. change (Qabs 0) with 0. lra.
Qed.

(** ** Unsigned arithmetic, chains of segments and arcs *)

Lemma wrap_small n : (n < uint_modulus)%N -> wrap n = n.
Proof. intros. unfold wrap. by apply N.mod_small. Qed.

Lemma uadd_small a b : (a + b < uint_modulus)%N -> uadd a b = (a + b)%N.
Proof. intros. unfold uadd. by apply wrap_small. Qed.

Lemma back_snoc d S0 : back (d ++ [S0]) = S0.
Proof. unfold back. by rewrite List.last_last. Qed.

Lemma chain_app p l1 q l2 r : chain p l1 q -> chain q l2 r -> chain p (l1 ++ l2) r.
Proof.
  revert p. induction l1 as [|S0 l1 IH]; simpl; intros p.
  - by intros ->.
  - intros [-> H1] H2. split; [done|]. by apply IH.
Qed.

Lemma Qltb_lt a b : Qltb a b = true <-> a < b.
Proof.
  unfold Qltb. rewrite negb_true_iff, <- not_true_iff_false, Qle_bool_iff.
  split; [apply Qnot_le_lt | apply Qlt_not_le].
Qed.

Lemma Qltb_ge a b : Qltb a b = false <-> b <= a.
Proof.
  unfold Qltb. rewrite negb_false_iff, Qle_bool_iff. done.
Qed.

Section arc.
Context `{FM : FloatMath}.

Lemma arc_loop_spec cnt da start end_ center radius twp fuel :
  forall i theta d,
    (cnt < uint_modulus)%N ->
    N.to_nat cnt = (N.to_nat i + fuel)%nat ->
    exists new,
      add_tessellated_arc_segment_loop fuel i cnt theta da start end_ center radius twp d
        = d ++ new
      /\ length new = fuel
      /\ Forall (arc_of center radius) new
      /\ angles_from theta da new
      /\ (forall S0, new !! 0%nat = Some S0 ->
            m_tangent_with_predecessor S0 = if (i =? 0)%N then twp else true)
      /\ (fuel <> 0%nat ->
          chain (if (i =? 0)%N then start else m_end_pt (back d)) new end_).
Proof.
  induction fuel as [|fuel IH]; intros i theta d Hc Hi; simpl.
  - exists []. rewrite app_nil_r. repeat split; try done.
  - assert (Hlt : (i <? cnt)%N = true) by (apply N.ltb_lt; lia).
    rewrite Hlt.
    assert (Hu : uadd i 1 = (i + 1)%N) by (apply uadd_small; lia).
    rewrite Hu.
    set (S0 := new_segment _ _ _ _ _ _ _).
    destruct (IH (i + 1)%N (to_float (theta + da)) (d ++ [S0]) Hc ltac:(lia))
      as (new & Heq & Hlen & Hall & Hang & _ & Hch).
    exists (S0 :: new). rewrite Heq, <- app_assoc. simpl.
    split; [done|]. split; [by rewrite Hlen|]. split; [by constructor|].
    split; [done|]. split.
    + intros S1 [= <-]. done.
    + intros _. split; [done|].
      destruct fuel as [|fuel].
      * destruct new; [|done]. simpl.
        assert (Hlast : (i + 1 =? cnt)%N = true) by (apply N.eqb_eq; lia).
        subst S0. simpl. by rewrite Hlast.
      * specialize (Hch ltac:(done)).
        assert (Hnz : (i + 1 =? 0)%N = false) by (apply N.eqb_neq; lia).
        rewrite Hnz, back_snoc in Hch. done.
Qed.

Lemma arc_count_fits_lt rng :
  arc_count_fits rng ->
  (Z.to_N (Qfloor (to_float (Qabs (to_float (m_end rng - m_begin rng)) / max_arc)))
   < uint_modulus - 1)%N.
Proof. unfold arc_count_fits, arc_count_fitsb. by intros ?%N.ltb_lt. Qed.

Lemma arc_count_no_wrap rng :
  arc_count_fits rng ->
  arc_count rng
    = (1 + Z.to_N (Qfloor (to_float
                             (Qabs (to_float (m_end rng - m_begin rng)) / max_arc))))%N.
Proof.
  intros Hf%arc_count_fits_lt. unfold arc_count, uint_of_float.
  rewrite (wrap_small (Z.to_N _)) by (unfold uint_modulus in *; lia).
  apply uadd_small. unfold uint_modulus in *. lia.
Qed.

Lemma add_tessellated_arc_segment_spec p q center radius rng twp d :
  arc_count_fits rng ->
  exists S0 rest,
    add_tessellated_arc_segment p q center radius rng twp d = d ++ S0 :: rest
    /\ length (S0 :: rest) = N.to_nat (arc_count rng)
    /\ Forall (arc_of center radius) (S0 :: rest)
    /\ angles_from (m_begin rng) (arc_da rng) (S0 :: rest)
    /\ m_tangent_with_predecessor S0 = twp
    /\ chain p (S0 :: rest) q.
Proof.
  intros Hf. pose proof (arc_count_no_wrap rng Hf) as Hc.
  apply arc_count_fits_lt in Hf.
  unfold add_tessellated_arc_segment.
  destruct (arc_loop_spec (arc_count rng) (arc_da rng) p q center radius twp
              (N.to_nat (arc_count rng)) 0%N (m_begin rng) d)
    as (new & Heq & Hlen & Hall & Hang & Htan & Hch).
  - rewrite Hc. unfold uint_modulus in *. lia.
  - lia.
  - destruct new as [|S0 rest]; [cbn in Hlen; lia|].
    exists S0, rest. split; [exact Heq|]. split; [done|]. split; [done|].
    split; [done|]. split; [by apply Htan|].
    apply Hch. rewrite Hc. lia.
Qed.

Lemma angles_from_steps piece theta l :
  arc_count_fits piece ->
  angles_from theta (arc_da piece) l -> Forall arc_step_of l.
Proof.
  intros Hf. revert theta. induction l as [|S0 l IH]; intros theta Hl; [constructor|].
  destruct Hl as [H0 Hl]. constructor; [by exists piece, theta|by eapply IH].
Qed.

Lemma angles_from_linked rng theta da l :
  angles_from theta da l -> angles_linked rng theta l.
Proof.
  revert theta. induction l as [|S0 l IH]; intros theta Hl; [done|].
  destruct Hl as [H0 Hl]. cbn. rewrite H0. cbn. split; [by left|by apply IH].
Qed.

Lemma last_angle_snoc from l S0 :
  last_angle from (l ++ [S0]) = m_end (m_arc_angle S0).
Proof. unfold last_angle. by rewrite last_snoc. Qed.

Lemma last_angle_cons from S0 l :
  last_angle from (S0 :: l) = last_angle (m_end (m_arc_angle S0)) l.
Proof. unfold last_angle. rewrite last_cons. by destruct (list.last l). Qed.

Lemma angles_linked_app rng from l1 l2 :
  angles_linked rng from l1 ->
  angles_linked rng (last_angle from l1) l2 ->
  angles_linked rng from (l1 ++ l2).
Proof.
  revert from. induction l1 as [|S0 l1 IH]; intros from H1 H2; [done|].
  destruct H1 as [H0 H1]. cbn. split; [done|]. apply IH; [done|].
  by rewrite <- (last_angle_cons from).
Qed.

Lemma angles_linked_first rng from from' S0 rest :
  (m_begin (m_arc_angle S0) = from'
   \/ (In (m_begin (m_arc_angle S0)) crit_angles
       /\ strictly_inside rng (m_begin (m_arc_angle S0))
       /\ m_tangent_with_predecessor S0 = false)) ->
  angles_linked rng from (S0 :: rest) ->
  angles_linked rng from' (S0 :: rest).
Proof. intros H0 [_ H]. by split. Qed.

Lemma should_split_inside rng crit :
  (if Qltb (m_begin rng) (m_end rng)
   then Qltb (m_begin rng) crit && Qltb crit (m_end rng)
   else Qltb (m_end rng) crit && Qltb crit (m_begin rng)) = true
  <-> strictly_inside rng crit.
Proof.
  unfold strictly_inside. destruct (Qltb (m_begin rng) (m_end rng)) eqn:Hinc.
  - apply Qltb_lt in Hinc. rewrite andb_true_iff, !Qltb_lt. split; [by left|].
    intros [H|[H1 H2]]; [done|]. lra.
  - apply Qltb_ge in Hinc. rewrite andb_true_iff, !Qltb_lt. split; [by right|].
    intros [[H1 H2]|H]; [lra|done].
Qed.

Lemma inside_in_hullb rng x : strictly_inside rng x -> in_hullb rng x = true.
Proof.
  unfold in_hullb. intros [[H1 H2]|[H1 H2]]; apply orb_true_iff; [left|right];
    apply andb_true_iff; split; apply Qle_bool_iff; lra.
Qed.

Lemma crit_angles_length : length crit_angles = 7%nat.
Proof. reflexivity. Qed.

Lemma crit_in_cuts rng crit :
  In crit crit_angles -> strictly_inside rng crit -> In crit (arc_cuts rng).
Proof.
  intros Hin Hs. unfold arc_cuts. right. right.
  apply List.filter_In. split; [done|by apply inside_in_hullb].
Qed.

Lemma arc_pieces_fit_piece rng a b :
  arc_pieces_fit rng -> In a (arc_cuts rng) -> In b (arc_cuts rng) ->
  arc_count_fits (mk_range a b).
Proof.
  unfold arc_pieces_fit, arc_count_fits. intros Hf Ha Hb.
  rewrite List.forallb_forall in Hf. specialize (Hf a Ha).
  rewrite List.forallb_forall in Hf. by apply Hf.
Qed.

Lemma add_arc_segment_step_inv start center radius rng d seen st i :
  (i < 7)%nat ->
  arc_pieces_fit rng ->
  arc_split_inv start center radius rng d seen st ->
  arc_split_inv start center radius rng d
    ((if Qltb (m_begin rng) (m_end rng) then i else (6 - i)%nat) :: seen)
    (add_arc_segment_step center radius rng st i).
Proof.
  intros Hi Hf (new & Hst & Hall & Hsteps & Hch & Hcut & Htan & Hb & Hne & Hfirst
                & Hlink & Hdone).
  unfold add_arc_segment_step.
  set (K := if Qltb (m_begin rng) (m_end rng) then i else (6 - i)%nat).
  assert (HK : (K < 7)%nat) by (subst K; destruct (Qltb _ _); lia).
  set (crit := nth K crit_angles 0).
  assert (Hcrit : crit_angles !! K = Some crit).
  { destruct (lookup_lt_is_Some_2 crit_angles K) as [c Hc];
      [by rewrite crit_angles_length|].
    subst crit. by rewrite nth_lookup, Hc. }
  destruct (lookup_lt_is_Some_2 crit_pts K ltac:(done)) as [pt Hpt].
  assert (Hnth : nth K crit_pts (mk_vec2 0 0) = pt).
  { by rewrite nth_lookup, Hpt. }
  match goal with |- context [if ?c then _ else st] => destruct c eqn:Hsplit end.
  2:{ exists new. repeat (split; [done|]).
      intros K' crit' [<-|HK'] Hc' Hin; [|by apply Hdone].
      rewrite Hcrit in Hc'. injection Hc' as <-.
      apply should_split_inside in Hin. congruence. }
  apply should_split_inside in Hsplit.
  assert (Hcin : In crit crit_angles).
  { apply list_elem_of_In. by eapply list_elem_of_lookup_2. }
  pose proof (crit_in_cuts rng crit Hcin Hsplit) as Hccut.
  pose proof (arc_pieces_fit_piece rng _ _ Hf Hcut Hccut) as Hpf.
  destruct (add_tessellated_arc_segment_spec (prev_pt st)
              (arc_point center radius (nth K crit_pts (mk_vec2 0 0)))
              center radius (mk_range (prev_angle st) crit)
              (tangent_with_predessor st) (storage st) Hpf)
    as (S0 & rest & Heq & _ & Hpall & Hpang & Hptan & Hpch).
  cbn [m_begin m_end] in Hpang.
  assert (HS0 : m_begin (m_arc_angle S0) = prev_angle st).
  { destruct Hpang as [-> _]. done. }
  assert (HS0p : m_start_pt S0 = prev_pt st) by (by destruct Hpch).
  exists (new ++ S0 :: rest). cbn [storage prev_pt prev_angle tangent_with_predessor].
  rewrite Heq, Hst, <- app_assoc.
  split; [done|]. split; [by apply Forall_app|].
  split; [apply Forall_app; split; [done|by eapply angles_from_steps]|].
  split; [by eapply chain_app|]. split; [done|]. split; [done|].
  split; [by intros [_ ?]%app_eq_nil|]. split; [done|]. split.
  { intros T0. destruct new as [|N0 new]; [|apply Hfirst].
    cbn. intros [= <-]. rewrite HS0. by apply Hb. }
  split.
  { apply angles_linked_app; [done|].
    eapply angles_linked_first; [|by eapply angles_from_linked].
    destruct new as [|N0 new].
    - left. rewrite HS0. cbn. by apply Hb.
    - right. rewrite HS0, Hptan. by destruct (Hne ltac:(done)). }
  intros K' crit' HK' Hc' Hin.
  assert (Hold : forall K0 crit0,
             crit_angles !! K0 = Some crit0 ->
             crit0 = prev_angle st ->
             (exists pt0, crit_pts !! K0 = Some pt0
                          /\ prev_pt st = arc_point center radius pt0) ->
             exists T0, T0 ∈ new ++ S0 :: rest /\ starts_at_cut center radius K0 T0).
  { intros K0 crit0 Hc0 -> (pt0 & Hpt0 & Hprev). exists S0.
    split; [apply elem_of_app; right; apply list_elem_of_here|].
    split; [by rewrite HS0|]. split; [|by rewrite Hptan].
    exists pt0. split; [done|]. by rewrite HS0p. }
  destruct (decide (K' = K)) as [->|Hneq].
  { left. rewrite Hcrit in Hc'. injection Hc' as <-. split; [done|].
    exists pt. split; [done|]. by rewrite Hnth. }
  destruct HK' as [<-|HK']; [done|].
  destruct (Hdone K' crit' HK' Hc' Hin) as [[Heq' Hpt']|(T0 & HT0 & Hstart)].
  - right. by eapply Hold.
  - right. exists T0. split; [|done]. apply elem_of_app. by left.
Qed.

Lemma add_arc_segment_fold_inv start center radius rng d idxs :
  Forall (fun i => (i < 7)%nat) idxs ->
  arc_pieces_fit rng ->
  forall seen st,
    arc_split_inv start center radius rng d seen st ->
    arc_split_inv start center radius rng d
      (rev (map (fun i => if Qltb (m_begin rng) (m_end rng) then i else (6 - i)%nat) idxs)
       ++ seen)
      (fold_left (add_arc_segment_step center radius rng) idxs st).
Proof.
  intros Hidx Hf. induction idxs as [|i idxs IH]; simpl; intros seen st Hinv; [done|].
  inversion_clear Hidx as [|? ? Hi Hidx'].
  rewrite <- app_assoc. cbn [app]. apply IH; [done|].
  by apply add_arc_segment_step_inv.
Qed.

Lemma split_indices_all rng K :
  (K < 7)%nat ->
  In K (map (fun i => if Qltb (m_begin rng) (m_end rng) then i else (6 - i)%nat)
          (seq 0 7)).
Proof.
  intros HK. apply in_map_iff. destruct (Qltb (m_begin rng) (m_end rng)).
  - exists K. split; [done|]. apply in_seq. lia.
  - exists (6 - K)%nat. split; [lia|]. apply in_seq. lia.
Qed.

(** [add_arc_segment] appends a chain of arc segments from [start] to
    [end_], cut at the critical angles inside the angle range. *)
Lemma add_arc_segment_spec start end_ center radius rng d :
  arc_pieces_fit rng ->
  exists new,
    add_arc_segment start end_ center radius rng d = d ++ new
    /\ Forall (arc_of center radius) new
    /\ Forall arc_step_of new
    /\ chain start new end_
    /\ (1 <= length new)%nat
    /\ (length new = N.to_nat (arc_count rng) \/ (2 <= length new)%nat)
    /\ (forall S0, new !! 0%nat = Some S0 -> m_begin (m_arc_angle S0) = m_begin rng)
    /\ angles_linked rng (m_begin rng) new
    /\ (forall K crit,
          crit_angles !! K = Some crit -> strictly_inside rng crit ->
          exists S0, S0 ∈ new /\ starts_at_cut center radius K S0).
Proof.
  intros Hf. unfold add_arc_segment.
  set (st := fold_left _ _ _).
  assert (Hinv : arc_split_inv start center radius rng d
                   (rev (map (fun i => if Qltb (m_begin rng) (m_end rng)
                                       then i else (6 - i)%nat) (seq 0 7)) ++ [])
                   st).
  { apply add_arc_segment_fold_inv; [|done|].
    - apply List.Forall_forall. intros i Hi%in_seq. lia.
    - exists []. cbn [storage prev_pt prev_angle tangent_with_predessor].
      rewrite app_nil_r. split; [done|]. split; [constructor|]. split; [constructor|].
      split; [done|]. split; [by left|]. split; [done|]. split; [done|].
      split; [done|]. split; [done|]. split; [done|]. by intros K crit []. }
  destruct Hinv as (new & Hst & Hall & Hsteps & Hch & Hcut & Htan & Hb & Hne & Hfirst
                    & Hlink & Hdone).
  assert (Hend : In (m_end rng) (arc_cuts rng)) by (right; by left).
  pose proof (arc_pieces_fit_piece rng _ _ Hf Hcut Hend) as Hpf.
  destruct (add_tessellated_arc_segment_spec (prev_pt st) end_ center radius
              (mk_range (prev_angle st) (m_end rng)) (tangent_with_predessor st)
              (storage st) Hpf)
    as (S0 & rest & Heq & Hcnt & Hpall & Hpang & Hptan & Hpch).
  cbn [m_begin m_end] in Hpang.
  assert (HS0 : m_begin (m_arc_angle S0) = prev_angle st).
  { destruct Hpang as [-> _]. done. }
  assert (HS0p : m_start_pt S0 = prev_pt st) by (by destruct Hpch).
  exists (new ++ S0 :: rest). rewrite Heq, Hst, <- app_assoc.
  split; [done|]. split; [by apply Forall_app|].
  split; [apply Forall_app; split; [done|by eapply angles_from_steps]|].
  split; [by eapply chain_app|].
  rewrite length_app. split; [cbn; lia|]. split.
  { destruct new as [|N0 new]; [|right; cbn; lia].
    left. rewrite (Hb eq_refl) in Hcnt. cbn [app length Nat.add] in *.
    rewrite Hcnt. by destruct rng. }
  split.
  { intros T0. destruct new as [|N0 new]; [|apply Hfirst].
    cbn. intros [= <-]. rewrite HS0. by apply Hb. }
  split.
  { apply angles_linked_app; [done|].
    eapply angles_linked_first; [|by eapply angles_from_linked].
    destruct new as [|N0 new].
    - left. rewrite HS0. cbn. by apply Hb.
    - right. rewrite HS0, Hptan. by destruct (Hne ltac:(done)). }
  intros K crit Hc Hin.
  assert (HK : (K < 7)%nat).
  { apply lookup_lt_Some in Hc. by rewrite crit_angles_length in Hc. }
  destruct (Hdone K crit) as [[Heq' (pt & Hpt & Hprev)]|(T0 & HT0 & Hstart)];
    [|done|done| |].
  - apply in_or_app. left. apply -> in_rev. by apply split_indices_all.
  - exists S0. split; [apply elem_of_app; right; apply list_elem_of_here|].
    split; [by rewrite HS0, <- Heq'|]. split; [|by rewrite Hptan].
    exists pt. split; [done|]. by rewrite HS0p.
  - exists T0. split; [|done]. apply elem_of_app. by left.
Qed.

(** *** Rounding to nearest *)

Lemma arc_count_above rng :
  arc_count_fits rng ->
  1 <= float_of_uint (arc_count rng)
  /\ to_float (Qabs (to_float (m_end rng - m_begin rng)) / max_arc)
     < float_of_uint (arc_count rng).
Proof.
  intros Hf. rewrite (arc_count_no_wrap rng Hf). unfold float_of_uint.
  set (q := to_float _).
  rewrite N2Z.inj_add, inject_Z_plus. change (inject_Z (Z.of_N 1)) with 1.
  assert (Hmax : Z.of_N (Z.to_N (Qfloor q)) = Z.max 0 (Qfloor q)) by lia.
  rewrite Hmax.
  pose proof (Qlt_floor q) as Hlt. rewrite inject_Z_plus in Hlt.
  change (inject_Z 1) with 1 in Hlt.
  assert (H0 : 0 <= inject_Z (Z.max 0 (Qfloor q))).
  { change 0 with (inject_Z 0). rewrite <- Zle_Qle. lia. }
  assert (H1 : inject_Z (Qfloor q) <= inject_Z (Z.max 0 (Qfloor q))).
  { rewrite <- Zle_Qle. lia. }
  split; lra.
Qed.

Lemma Qabs_diff_le x y b : Qabs (x - y) <= b -> Qabs x <= Qabs y + b.
Proof.
  intros H. assert (He : x == (x - y) + y) by ring.
  rewrite He at 1. eapply Qle_trans; [apply Qabs_triangle|]. lra.
Qed.

(** The angle that one step of [add_tessellated_arc_segment] spans, when
    the rounding is to nearest. *)
Lemma step_span_bound u eta piece th :
  rounds_to_nearest u eta -> 0 <= u -> u < 1 -> 0 <= eta -> 0 < max_arc ->
  arc_count_fits piece ->
  Qabs (to_float (th + arc_da piece) - th)
  <= (1 + u) * ((1 + u) * ((1 + eta) / (1 - u) * max_arc) + eta) + u * Qabs th + eta.
Proof.
  intros (Hmono & Hidem & Hone & Herr) Hu0 Hu1 Heta Hm Hf.
  destruct (arc_count_above piece Hf) as [Hc1 Hqc].
  unfold arc_da.
  set (D := to_float (m_end piece - m_begin piece)) in *.
  set (c := float_of_uint (arc_count piece)) in *.
  set (a := Qabs D) in *. set (r := a / max_arc) in *. set (q := to_float r) in *.
  set (fc := to_float c).
  assert (Ha : 0 <= a) by apply Qabs_nonneg.
  assert (Hr : 0 <= r) by (apply Qle_shift_div_l; lra).
  assert (Har : a == r * max_arc) by (unfold r; field; lra).
  assert (Hfc1 : 1 <= fc).
  { unfold fc. rewrite <- Hone. by apply Hmono. }
  assert (Hqfc : q <= fc).
  { pose proof (Hidem r) as Hq. fold q in Hq.
    apply Qle_trans with (to_float q); [lra|]. apply Hmono. lra. }
  set (k := (1 + eta) / (1 - u)).
  assert (Hk : k * (1 - u) == 1 + eta) by (unfold k; field; lra).
  assert (Hk0 : 0 <= k) by (apply Qle_shift_div_l; lra).
  assert (Hrk : r <= fc * k).
  { pose proof (Herr r) as He. fold q in He. rewrite (Qabs_pos r) in He by done.
    assert (Hq : (1 - u) * r <= q + eta).
    { revert He. apply Qabs_case; intros; lra. }
    assert (Hef : 0 <= eta * (fc - 1)) by (apply Qmult_le_0_compat; lra).
    assert (Hq2 : (1 - u) * r <= (1 - u) * (fc * k)).
    { assert ((1 - u) * (fc * k) == fc * (k * (1 - u))) as -> by ring.
      rewrite Hk. lra. }
    apply Qmult_lt_0_le_reg_r with (1 - u); [lra|].
    rewrite !(Qmult_comm _ (1 - u)). exact Hq2. }
  set (z := D / fc).
  assert (Hz : Qabs z <= k * max_arc).
  { unfold z, Qdiv. rewrite Qabs_Qmult, Qabs_Qinv, (Qabs_pos fc) by lra. fold a.
    apply Qle_shift_div_r; [lra|]. rewrite Har.
    assert (k * max_arc * fc == fc * k * max_arc) as -> by ring.
    apply Qmult_le_compat_r; lra. }
  set (da := to_float z).
  assert (Hua : forall x y, x <= y -> u * x <= u * y).
  { intros x y Hxy. rewrite !(Qmult_comm u). by apply Qmult_le_compat_r. }
  assert (Hda : Qabs da <= (1 + u) * (k * max_arc) + eta).
  { pose proof (Herr z) as He. fold da in He. apply Qabs_diff_le in He.
    pose proof (Hua _ _ Hz). lra. }
  pose proof (Herr (th + da)) as He.
  pose proof (Qabs_triangle th da) as Hsum.
  assert (Hs : to_float (th + da) - th == (to_float (th + da) - (th + da)) + da) by ring.
  rewrite Hs. eapply Qle_trans; [apply Qabs_triangle|].
  pose proof (Hua _ _ Hsum) as H1. pose proof (Hua _ _ Hda) as H2.
  fold k. lra.
Qed.

Lemma span_bound_step u eta S0 :
  rounds_to_nearest u eta -> 0 <= u -> u < 1 -> 0 <= eta -> 0 < max_arc ->
  arc_step_of S0 -> arc_span S0 <= span_bound u eta S0.
Proof.
  intros Hr Hu0 Hu1 Heta Hm (piece & th & Hf & Hang).
  unfold arc_span, span_bound. rewrite Hang. cbn [m_begin m_end].
  by apply step_span_bound.
Qed.

Lemma arc_count_ge_2 rng :
  (forall x y, x <= y -> to_float x <= to_float y) -> to_float 1 == 1 ->
  0 < max_arc -> arc_count_fits rng ->
  max_arc < Qabs (to_float (m_end rng - m_begin rng)) -> (2 <= arc_count rng)%N.
Proof.
  intros Hmono Hone Hm Hf Hgt. rewrite (arc_count_no_wrap rng Hf).
  set (a := Qabs (to_float (m_end rng - m_begin rng))) in *.
  assert (H1 : 1 <= a / max_arc) by (apply Qle_shift_div_l; lra).
  apply Hmono in H1. rewrite Hone in H1.
  assert (1 <= Qfloor (to_float (a / max_arc)))%Z.
  { rewrite <- (Qfloor_Z 1). by apply Qfloor_resp_le. }
  lia.
Qed.
Lemma round_abs_le x y :
  (forall x y, x <= y -> to_float x <= to_float y) ->
  (forall x, to_float (- x) == - to_float x) ->
  Qabs x <= Qabs y -> Qabs (to_float x) <= Qabs (to_float y).
Proof.
  intros Hmono Hodd Hxy.
  assert (H0 : to_float 0 == 0).
  { pose proof (Hodd 0) as H. pose proof (Hmono 0 (- 0) ltac:(lra)).
    pose proof (Hmono (- 0) 0 ltac:(lra)). lra. }
  assert (Habs : forall z, Qabs (to_float z) == to_float (Qabs z)).
  { intros z. destruct (Qlt_le_dec z 0) as [Hz|Hz].
    - pose proof (Hmono z 0 ltac:(lra)).
      rewrite (Qabs_neg (to_float z)) by lra.
      pose proof (Hodd z) as Ho.
      pose proof (Hmono (- z) (Qabs z) ltac:(rewrite (Qabs_neg z); lra)).
      pose proof (Hmono (Qabs z) (- z) ltac:(rewrite (Qabs_neg z); lra)). lra.
    - pose proof (Hmono 0 z Hz).
      rewrite (Qabs_pos (to_float z)) by lra.
      pose proof (Hmono z (Qabs z) ltac:(rewrite (Qabs_pos z); lra)).
      pose proof (Hmono (Qabs z) z ltac:(rewrite (Qabs_pos z); lra)). lra. }
  rewrite !Habs. by apply Hmono.
Qed.

Lemma cuts_in_hull rng x : In x (arc_cuts rng) -> in_hullb rng x = true.
Proof.
  unfold arc_cuts, in_hullb. intros [<-|[<-|Hx%List.filter_In]]; [| |by destruct Hx].
  - destruct (Qlt_le_dec (m_begin rng) (m_end rng)); apply orb_true_iff; [left|right];
      apply andb_true_iff; split; apply Qle_bool_iff; lra.
  - destruct (Qlt_le_dec (m_begin rng) (m_end rng)); apply orb_true_iff; [left|right];
      apply andb_true_iff; split; apply Qle_bool_iff; lra.
Qed.

Lemma hull_span rng x y :
  in_hullb rng x = true -> in_hullb rng y = true ->
  Qabs (y - x) <= Qabs (m_end rng - m_begin rng).
Proof.
  unfold in_hullb. rewrite !orb_true_iff, !andb_true_iff, !Qle_bool_iff.
  intros Hx Hy. apply Qabs_case; intros H1; apply Qabs_case; intros H2;
    destruct Hx as [[? ?]|[? ?]], Hy as [[? ?]|[? ?]]; lra.
Qed.

Lemma Qdiv_nonpos b m : 0 <= b -> m <= 0 -> b / m <= 0.
Proof.
  intros Hb Hm. apply Qle_lteq in Hm as [Hm|Hm].
  - assert (He : b / m == - (b / - m)) by (field; lra).
    rewrite He. assert (0 <= b / - m) by (apply Qle_shift_div_l; lra). lra.
  - rewrite Hm. unfold Qdiv. change (/ 0) with 0. lra.
Qed.

(** For a rounding that is monotone and odd, the numbers of segments of
    the parts of an arc fit when that of the whole arc does. *)
Lemma arc_pieces_fit_whole rng :
  (forall x y, x <= y -> to_float x <= to_float y) ->
  (forall x, to_float (- x) == - to_float x) ->
  arc_count_fits rng -> arc_pieces_fit rng.
Proof.
  intros Hmono Hodd Hf%arc_count_fits_lt. unfold arc_pieces_fit.
  apply List.forallb_forall. intros x Hx%cuts_in_hull.
  apply List.forallb_forall. intros y Hy%cuts_in_hull.
  unfold arc_count_fitsb. apply N.ltb_lt. cbn [m_begin m_end].
  pose proof (round_abs_le _ _ Hmono Hodd (hull_span rng x y Hx Hy)) as Hle.
  set (a := Qabs (to_float (m_end rng - m_begin rng))) in *.
  set (b := Qabs (to_float (y - x))) in *.
  assert (Hb : 0 <= b) by apply Qabs_nonneg.
  eapply N.le_lt_trans; [|exact Hf].
  destruct (Qlt_le_dec 0 max_arc) as [Hm|Hm].
  - assert (b / max_arc <= a / max_arc).
    { apply Qle_shift_div_l; [done|].
      assert (b / max_arc * max_arc == b) as -> by (field; lra). done. }
    pose proof (Qfloor_resp_le _ _ (Hmono _ _ H)). lia.
  - assert (H0 : to_float 0 == 0).
    { pose proof (Hodd 0) as H. pose proof (Hmono 0 (- 0) ltac:(lra)).
      pose proof (Hmono (- 0) 0 ltac:(lra)). lra. }
    pose proof (Hmono _ _ (Qdiv_nonpos b max_arc Hb Hm)) as H.
    rewrite H0 in H. apply Qfloor_resp_le in H. change (Qfloor 0) with 0%Z in H. lia.
Qed.
End arc.

(** ** [add_edge], [end_contour] and the loops over edges and contours *)

Lemma geometry_set_local len a b S0 : geometry (set_local_values len a b S0) = geometry S0.
Proof. done. Qed.
Lemma geometry_set_distances a b S0 : geometry (set_distances a b S0) = geometry S0.
Proof. done. Qed.
Lemma geometry_set_edge_length v S0 : geometry (set_edge_length v S0) = geometry S0.
Proof. done. Qed.
Lemma geometry_set_contour_lengths a b S0 : geometry (set_contour_lengths a b S0) = geometry S0.
Proof. done. Qed.

Lemma geometry_compute_local `{FloatMath} S0 :
  geometry (compute_local_segment_values S0) = geometry S0.
Proof. unfold compute_local_segment_values. by destruct (m_type S0). Qed.

Lemma sum_lengths_cons from S0 l :
  sum_lengths from (S0 :: l) = sum_lengths (from + m_length S0) l.
Proof. done. Qed.

Lemma sum_lengths_app from l1 l2 :
  sum_lengths from (l1 ++ l2) = sum_lengths (sum_lengths from l1) l2.
Proof. unfold sum_lengths. by rewrite fold_left_app. Qed.

Lemma sum_lengths_map f from l :
  (forall S0, m_length (f S0) = m_length S0) ->
  sum_lengths from (map f l) = sum_lengths from l.
Proof.
  intros Hf. revert from. induction l as [|S0 l IH]; intros from; [done|].
  cbn [map]. rewrite !sum_lengths_cons, Hf. apply IH.
Qed.

Lemma distances_from_map f from l :
  (forall S0, m_length (f S0) = m_length S0) ->
  (forall S0, m_distance_from_edge_start (f S0) = m_distance_from_edge_start S0) ->
  distances_from from l -> distances_from from (map f l).
Proof.
  intros Hl Hd. revert from. induction l as [|S0 l IH]; intros from; [done|].
  simpl. intros [H1 H2]. rewrite Hl, Hd. split; [done|]. by apply IH.
Qed.

Section add_edge.
Context `{FM : FloatMath}.

Lemma add_edge_loop_spec closing work :
  forall prev acc work1 acc1,
    add_edge_loop closing prev work acc = (work1, acc1) ->
    length work1 = length work
    /\ map geometry work1 = map geometry work
    /\ distances_from
         (match prev with
          | Some P0 => m_distance_from_edge_start P0 + m_length P0
          | None => 0
          end) work1
    /\ acc_contour_length acc1 = sum_lengths (acc_contour_length acc) work1.
Proof.
  induction work as [|S0 work IH]; intros prev acc work1 acc1; simpl.
  - intros [= <- <-]. done.
  - destruct (add_edge_loop _ _ work _) as [rest' acc'] eqn:Hrec.
    intros [= <- <-]. apply IH in Hrec as (Hlen & Hgeo & Hdist & Hsum).
    simpl. split; [by rewrite Hlen|]. split.
    { by rewrite Hgeo, geometry_set_distances, geometry_compute_local. }
    split; [done|]. exact Hsum.
Qed.


Lemma fold_alter_shift (f : segment -> segment) (idxs : list nat) y (w : list segment) :
  fold_left (fun (w : list segment) (n : nat) => alter f n w) (map S idxs) (y :: w)
  = y :: fold_left (fun (w : list segment) (n : nat) => alter f n w) idxs w.
Proof.
  revert w. induction idxs as [|i idxs IH]; intros w; [done|]. simpl. apply IH.
Qed.

Lemma fold_alter_all (f : segment -> segment) (w : list segment) :
  fold_left (fun (w : list segment) (n : nat) => alter f n w) (seq 0 (length w)) w = map f w.
Proof.
  induction w as [|x w IH]; [done|].
  cbn [length seq]. rewrite <- seq_shift. cbn [fold_left alter list_alter].
  rewrite fold_alter_shift. by rewrite IH.
Qed.

Lemma add_edge_length_loop_idxs (k : nat) v (idxs : list nat) :
  forall (w : list segment) L0,
    w !! k = Some L0 ->
    m_distance_from_edge_start L0 + m_length L0 = v ->
    fold_left
      (fun (w : list segment) (n : nat) =>
         match w !! k with
         | Some L =>
             alter (set_edge_length (m_distance_from_edge_start L + m_length L)) n w
         | None => w
         end) idxs w
    = fold_left (fun (w : list segment) (n : nat) => alter (set_edge_length v) n w) idxs w.
Proof.
  induction idxs as [|i idxs IH]; intros w L0 Hk Hv; [done|].
  cbn [fold_left]. rewrite Hk, Hv.
  destruct (decide (i = k)) as [->|Hne].
  - eapply IH; [rewrite list_lookup_alter_eq, Hk; done|done].
  - eapply IH; [rewrite list_lookup_alter_ne by done; exact Hk|done].
Qed.

Lemma add_edge_length_loop_spec needed work L :
  N.to_nat needed = length work ->
  list.last work = Some L ->
  add_edge_length_loop needed work
  = map (set_edge_length (m_distance_from_edge_start L + m_length L)) work.
Proof.
  intros Hn HL. unfold add_edge_length_loop. rewrite Hn.
  rewrite last_lookup in HL.
  replace (length work - 1)%nat with (pred (length work)) by lia.
  erewrite add_edge_length_loop_idxs; [|exact HL|done].
  apply fold_alter_all.
Qed.

Lemma edge_distances_ok_intro work L :
  distances_from 0 work ->
  list.last work = Some L ->
  edge_distances_ok
    (map (set_edge_length (m_distance_from_edge_start L + m_length L)) work).
Proof.
  intros Hd HL. split.
  - by apply distances_from_map.
  - intros L'. rewrite fmap_last, HL. intros [= <-]. simpl.
    apply Forall_fmap, Forall_true. done.
Qed.

Lemma map_alter_invariant {X} (h : segment -> X) (f : segment -> segment)
    (n : nat) (w : list segment) :
  (forall S0, h (f S0) = h S0) -> map h (alter f n w) = map h w.
Proof.
  intros Hf. revert n. induction w as [|x w IH]; intros [|n]; cbn; try done.
  - by rewrite Hf.
  - f_equal. apply IH.
Qed.

Lemma add_edge_length_loop_map {X} (h : segment -> X) needed (work : list segment) :
  (forall v S0, h (set_edge_length v S0) = h S0) ->
  map h (add_edge_length_loop needed work) = map h work.
Proof.
  intros Hh. unfold add_edge_length_loop.
  generalize (seq 0 (N.to_nat needed)). intros idxs. revert work.
  induction idxs as [|i idxs IH]; intros work; [done|].
  cbn [fold_left]. rewrite IH. destruct (work !! _); [|done].
  by apply map_alter_invariant.
Qed.

Lemma sum_lengths_ext from l1 l2 :
  map m_length l1 = map m_length l2 -> sum_lengths from l1 = sum_lengths from l2.
Proof.
  revert from l2. induction l1 as [|x l1 IH]; intros from [|y l2]; try done.
  cbn [map]. intros [= Hxy Hl]. rewrite !sum_lengths_cons, Hxy. by apply IH.
Qed.

Lemma add_edge_spec d b o e work tmp closing d' b' :
  add_edge d b o e work tmp closing = Some (d', b') ->
  wrap (N.of_nat (length work)) <> 0%N
  /\ P.m_edges d'
     = alter (alter (set_edge_range
                       (mk_range (B.m_loc b)
                          (uadd (B.m_loc b) (wrap (N.of_nat (length work)))))) e) o
         (P.m_edges d)
  /\ P.m_params d' = P.m_params d
  /\ P.m_segment_data d' = P.m_segment_data d
  /\ B.m_loc b' = uadd (B.m_loc b) (wrap (N.of_nat (length work)))
  /\ B.m_ende b' = B.m_ende b
  /\ B.m_start_contour b'
     = (if bool_decide (e = 0%nat) then Some (length (B.m_temp b))
        else B.m_start_contour b)
  /\ exists w,
       B.m_temp b' = B.m_temp b ++ [w]
       /\ map geometry w = map geometry work
       /\ ((N.of_nat (length work) < uint_modulus)%N -> edge_distances_ok w)
       /\ B.m_contour_length b' = sum_lengths (B.m_contour_length b) w
       /\ (uadd (N.of_nat e) 1 = B.m_ende b ->
           uadd (N.of_nat e) 2 <> B.m_ende b ->
           B.m_closed_contour_length b' = B.m_contour_length b').
Proof.
  unfold add_edge.
  destruct (wrap (N.of_nat (length work)) =? 0)%N eqn:Hneeded; [done|].
  apply N.eqb_neq in Hneeded.
  destruct (add_edge_loop _ _ _ _) as [work1 acc] eqn:Hloop.
  apply add_edge_loop_spec in Hloop as (Hlen & Hgeo & Hdist & Hsum).
  intros [= <- <-]. cbn.
  do 7 (split; [done|]).
  eexists. split; [done|].
  assert (Hne : work1 <> []).
  { intros ->. destruct work; [|done]. by compute in Hneeded. }
  destruct (list.last work1) as [L|] eqn:HL; [|by apply last_None in HL].
  split; [|split; [|split]].
  - rewrite add_edge_length_loop_map by done. exact Hgeo.
  - intros Hb. rewrite (add_edge_length_loop_spec _ _ L); [|rewrite wrap_small by done; lia|done].
    by apply edge_distances_ok_intro.
  - rewrite Hsum. apply sum_lengths_ext. by rewrite add_edge_length_loop_map.
  - intros H1 H2. apply N.eqb_eq in H1. apply N.eqb_neq in H2. by rewrite H1, H2.
Qed.

Lemma alter_insert {A} (f : A -> A) (o : nat) (l : list A) x :
  l !! o = Some x -> alter f o l = <[o := f x]> l.
Proof.
  revert o. induction l as [|y l IH]; intros [|o]; cbn; try done.
  - by intros [= ->].
  - intros Ho. f_equal. by apply IH.
Qed.

Lemma drop_lookup_cons {A} (l : list A) (e : nat) x :
  l !! e = Some x -> drop e l = x :: drop (S e) l.
Proof.
  revert e. induction l as [|y l IH]; intros [|e]; cbn; try done.
  - by intros [= ->].
  - apply IH.
Qed.

Lemma map_geometry_length (w work : list segment) :
  map geometry w = map geometry work -> length w = length work.
Proof. intros H. apply (f_equal length) in H. by rewrite !length_map in H. Qed.

Lemma build_edges_spec o ende results :
  forall e d b d' b' es,
    build_edges o e ende results d b = Some (d', b') ->
    P.m_edges d !! o = Some es ->
    (e + length results <= length es)%nat ->
    B.m_ende b = ende ->
    exists ws es',
      B.m_temp b' = B.m_temp b ++ ws
      /\ P.m_edges d' = <[o := es']> (P.m_edges d)
      /\ length es' = length es
      /\ take e es' = take e es
      /\ drop (e + length results) es' = drop (e + length results) es
      /\ ranges_chain (B.m_loc b) (take (length results) (drop e es'))
           (map length ws) (B.m_loc b')
      /\ Forall2 edge_built ws results
      /\ B.m_contour_length b' = sum_lengths (B.m_contour_length b) (concat ws)
      /\ B.m_ende b' = ende
      /\ B.m_start_contour b'
         = (if decide (e = 0%nat /\ results <> []) then Some (length (B.m_temp b))
            else B.m_start_contour b)
      /\ (results <> [] -> N.of_nat (e + length results) = ende ->
          (ende < uint_modulus)%N ->
          B.m_closed_contour_length b' = B.m_contour_length b')
      /\ P.m_params d' = P.m_params d
      /\ P.m_segment_data d' = P.m_segment_data d
      /\ (results = [] -> b' = b).
Proof.
  induction results as [|r rest IH]; intros e d b d' b' es Hb Hes Hle Hende.
  - cbn in Hb. injection Hb as <- <-. exists [], es.
    rewrite app_nil_r, list_insert_id by done. cbn.
    rewrite decide_False by (intros [_ ?]; done).
    repeat (split; [done|]). done.
  - cbn [build_edges] in Hb.
    set (d1 := match res_recursion r with Some _ => _ | None => d end) in Hb.
    assert (Hd1 : P.m_edges d1 = P.m_edges d /\ P.m_params d1 = P.m_params d
                  /\ P.m_segment_data d1 = P.m_segment_data d).
    { subst d1. by destruct (res_recursion r). }
    destruct Hd1 as (Hd1e & Hd1p & Hd1s).
    destruct (add_edge d1 b o e _ _ _) as [[d2 b2]|] eqn:Hadd; [|done].
    cbn in Hb.
    apply add_edge_spec in Hadd
      as (Hneeded & He2 & Hp2 & Hs2 & Hloc2 & Hende2 & Hstart2 & w & Htemp2 & Hgeo
          & Hdist & Hcl2 & Hclosed2).
    cbn [length] in Hle.
    assert (Hee : (e < length es)%nat) by lia.
    destruct (lookup_lt_is_Some_2 es e Hee) as [E HE].
    set (r0 := mk_range (B.m_loc b) (uadd (B.m_loc b) (wrap (N.of_nat (length (res_work_room r)))))) in *.
    set (es1 := <[e := set_edge_type (res_edge_type r) (set_edge_range r0 E)]> es).
    assert (He3 : alter (alter (set_edge_type (res_edge_type r)) e) o (P.m_edges d2)
                  = <[o := es1]> (P.m_edges d)).
    { rewrite He2, Hd1e.
      rewrite (alter_insert _ o (P.m_edges d) es) by done.
      rewrite (alter_insert _ o _ (alter (set_edge_range r0) e es))
        by (apply list_lookup_insert_eq; by eapply lookup_lt_Some).
      rewrite list_insert_insert_eq. f_equal. subst es1.
      rewrite (alter_insert _ e es E) by done.
      rewrite (alter_insert _ e _ (set_edge_range r0 E))
        by (by apply list_lookup_insert_eq).
      by rewrite list_insert_insert_eq. }
    eapply (IH (S e) _ b2 d' b' es1) in Hb; cycle 1.
    { cbn. rewrite He3. apply list_lookup_insert_eq. by eapply lookup_lt_Some. }
    { subst es1. rewrite length_insert. lia. }
    { by rewrite Hende2. }
    destruct Hb as (ws & es' & Htemp & Hedges & Hlen & Htake & Hdrop & Hranges & Hall
                    & Hcl & Hende' & Hstart & Hclosed & Hp & Hs & Hnil).
    cbn [P.m_edges P.set_m_edges P.m_params P.m_segment_data] in *.
    assert (Hlen1 : length es1 = length es) by (subst es1; by rewrite length_insert).
    assert (He' : es' !! e = Some (set_edge_type (res_edge_type r) (set_edge_range r0 E))).
    { assert (Ht : take (S e) es' !! e = take (S e) es1 !! e) by by rewrite Htake.
      rewrite !lookup_take_lt in Ht by lia. rewrite Ht. subst es1.
      by apply list_lookup_insert_eq. }
    exists (w :: ws), es'.
    split; [by rewrite Htemp, Htemp2, <- app_assoc|].
    split; [by rewrite Hedges, He3, list_insert_insert_eq|].
    split; [by rewrite Hlen|].
    split.
    { assert (Ht : take e (take (S e) es') = take e (take (S e) es1)) by by rewrite Htake.
      rewrite !take_take in Ht. rewrite !Nat.min_l in Ht by lia. rewrite Ht.
      subst es1. by rewrite take_insert_ge by lia. }
    split.
    { cbn [length]. replace (e + S (length rest))%nat with (S e + length rest)%nat by lia.
      rewrite Hdrop. subst es1. by rewrite drop_insert_lt by lia. }
    split.
    { cbn [length]. rewrite (drop_lookup_cons _ _ _ He'). cbn [take map ranges_chain].
      rewrite (map_geometry_length _ _ Hgeo). split; [done|].
      rewrite <- Hloc2. exact Hranges. }
    split.
    { constructor; [|done]. split; [done|]. split.
      - intros ->. destruct (res_work_room r); [by compute in Hneeded|done].
      - rewrite (map_geometry_length _ _ Hgeo). exact Hdist. }
    split.
    { cbn [concat]. rewrite sum_lengths_app, <- Hcl2. exact Hcl. }
    split; [done|].
    split.
    { rewrite Hstart. rewrite (decide_False (P := (S e = 0%nat /\ _))) by (intros [? _]; done).
      rewrite Hstart2. destruct (decide (e = 0%nat)) as [->|Hne].
      - rewrite decide_True by done. done.
      - rewrite decide_False by (intros [? _]; done).
        by rewrite bool_decide_eq_false_2. }
    split; [|by rewrite Hp, Hp2, Hd1p, Hs, Hs2, Hd1s].
    intros _ Hlast Hfit. cbn [length] in Hlast.
    destruct rest as [|r' rest'].
    + rewrite (Hnil eq_refl). cbn [length] in Hlast.
      assert (He1 : uadd (N.of_nat e) 1 = ende).
      { rewrite uadd_small by lia. lia. }
      apply Hclosed2; [by rewrite Hende|]. rewrite Hende.
      unfold uadd, wrap. intros Hbad.
      destruct (decide (N.of_nat e + 2 < uint_modulus)%N) as [Hlt|Hge].
      * rewrite N.mod_small in Hbad by done. lia.
      * assert (Heq : (N.of_nat e + 2 = uint_modulus)%N) by lia.
        rewrite Heq, N.Div0.mod_same in Hbad. lia.
    + apply Hclosed; [done| |done]. cbn [length] in *. rewrite <- Hlast. f_equal. lia.
Qed.

Lemma strip_stamp a b S0 : strip (set_contour_lengths a b S0) = strip S0.
Proof. done. Qed.

Lemma strip_fields S0 T0 :
  strip S0 = strip T0 ->
  geometry S0 = geometry T0 /\ m_length S0 = m_length T0
  /\ m_distance_from_edge_start S0 = m_distance_from_edge_start T0
  /\ m_edge_length S0 = m_edge_length T0.
Proof.
  destruct S0, T0. unfold strip, set_contour_lengths, geometry, new_segment. cbn.
  intros [= -> -> -> -> -> -> -> -> -> -> -> -> ->]. done.
Qed.

Lemma strip_Forall2 (w w' : list segment) :
  map strip w = map strip w' -> Forall2 (fun x y => strip x = strip y) w w'.
Proof.
  revert w'. induction w as [|x w IH]; intros [|y w'] Hm; try done.
  cbn [map] in Hm. constructor.
  - apply (f_equal head) in Hm. cbn [head] in Hm. congruence.
  - apply IH. by apply (f_equal tail) in Hm.
Qed.

Lemma distances_from_strip from w w' :
  map strip w = map strip w' -> distances_from from w -> distances_from from w'.
Proof.
  intros Hm%strip_Forall2. revert from.
  induction Hm as [|x y w w' Hxy Hm IH]; intros from; [done|].
  intros [H1 H2].
  apply strip_fields in Hxy as (_ & Hl & Hd & _). cbn. rewrite <- Hd, <- Hl.
  split; [done|]. by eapply IH.
Qed.

Lemma last_strip w w' L' :
  map strip w = map strip w' -> list.last w' = Some L' ->
  exists L, list.last w = Some L /\ strip L = strip L'.
Proof.
  intros Hm HL. assert (H : list.last (map strip w') = Some (strip L')).
  { change (map strip w') with (strip <$> w'). by rewrite fmap_last, HL. }
  rewrite <- Hm in H. change (map strip w) with (strip <$> w) in H.
  rewrite fmap_last in H. destruct (list.last w) as [L|]; [|done].
  exists L. split; [done|]. cbn [fmap option_fmap option_map] in H. congruence.
Qed.

Lemma edge_distances_ok_strip w w' :
  map strip w = map strip w' -> edge_distances_ok w -> edge_distances_ok w'.
Proof.
  intros Hm [Hd He]. split; [by eapply distances_from_strip|].
  intros L' HL'. destruct (last_strip _ _ _ Hm HL') as (L & HL & HLL).
  specialize (He L HL). apply strip_fields in HLL as (_ & Hl & Hdd & _).
  rewrite <- Hl, <- Hdd. clear HL HL' Hd.
  apply strip_Forall2 in Hm.
  induction Hm as [|x y w w' Hxy Hm IH]; [constructor|].
  inversion_clear He as [|? ? Hx He']. constructor; [|by apply IH].
  apply strip_fields in Hxy as (_ & _ & _ & Hel). by rewrite <- Hel.
Qed.

Lemma edge_built_strip w w' r :
  map strip w = map strip w' -> edge_built w r -> edge_built w' r.
Proof.
  intros Hm (Hg & Hne & Hd).
  assert (Hlen : length w' = length w).
  { apply (f_equal length) in Hm. by rewrite !length_map in Hm. }
  split; [|split].
  - rewrite <- Hg. pose proof (strip_Forall2 _ _ Hm) as HF. clear -HF.
    induction HF as [|x y w w' Hxy Hm IH]; [done|].
    cbn [map]. apply strip_fields in Hxy as (Hgeo & _).
    by rewrite Hgeo, IH.
  - intros ->. destruct w; [done|]. done.
  - rewrite Hlen. intros Hb. eapply edge_distances_ok_strip; [done|]. by apply Hd.
Qed.

Lemma end_contour_spec b b' :
  end_contour b = Some b' ->
  exists k,
    B.m_start_contour b = Some k
    /\ B.m_temp b'
       = take k (B.m_temp b)
         ++ map (map (set_contour_lengths (B.m_open_contour_length b)
                        (B.m_closed_contour_length b)))
              (drop k (B.m_temp b))
    /\ B.m_loc b' = B.m_loc b
    /\ B.m_start_contour b' = Some k.
Proof.
  unfold end_contour. destruct (B.m_start_contour b) as [k|] eqn:Hk; [|done].
  case_bool_decide as Hend; intros [= <-]; exists k.
  - split; [done|]. split; [|done].
    rewrite Hend, take_ge, drop_ge by lia. by rewrite app_nil_r.
  - done.
Qed.

Lemma end_contour_strip b b' :
  end_contour b = Some b' ->
  map (map strip) (B.m_temp b') = map (map strip) (B.m_temp b).
Proof.
  intros (k & _ & -> & _)%end_contour_spec.
  rewrite <- (take_drop k (B.m_temp b)) at 3.
  rewrite !map_app. f_equal. rewrite map_map. apply map_ext. intros w.
  rewrite map_map. by apply map_ext.
Qed.

Lemma ranges_chain_app s es1 l1 m es2 l2 t :
  ranges_chain s es1 l1 m -> ranges_chain m es2 l2 t ->
  ranges_chain s (es1 ++ es2) (l1 ++ l2) t.
Proof.
  revert s l1. induction es1 as [|E es1 IH]; intros s [|n l1]; cbn; try done.
  - by intros ->.
  - intros [H1 H2] H3. split; [done|]. by eapply IH.
Qed.

Lemma strip_lengths (B0 ws : list (list segment)) :
  map (map strip) B0 = map (map strip) ws -> map length B0 = map length ws.
Proof.
  revert ws. induction B0 as [|x B0 IH]; intros [|y ws] H; try done.
  cbn [map] in *. f_equal.
  - apply (f_equal head) in H. cbn [head] in H.
    assert (He : map strip x = map strip y) by congruence.
    apply (f_equal length) in He. by rewrite !length_map in He.
  - apply IH. by apply (f_equal tail) in H.
Qed.

Lemma Forall2_edge_built_strip (B0 ws : list (list segment)) rs :
  map (map strip) ws = map (map strip) B0 ->
  Forall2 edge_built ws rs -> Forall2 edge_built B0 rs.
Proof.
  intros Hm HF. revert B0 Hm.
  induction HF as [|w r ws rs Hw HF IH]; intros [|w' B0] Hm; try done.
  cbn [map] in Hm. constructor.
  - eapply edge_built_strip; [|exact Hw].
    apply (f_equal head) in Hm. cbn [head] in Hm. congruence.
  - apply IH. by apply (f_equal tail) in Hm.
Qed.

Lemma start_contour_spec d b o n d1 b1 :
  start_contour d b o n = (d1, b1) ->
  P.m_edges d1 = alter (resize (N.to_nat n) default_Edge) o (P.m_edges d)
  /\ P.m_params d1 = P.m_params d
  /\ P.m_segment_data d1 = P.m_segment_data d
  /\ B.m_loc b1 = B.m_loc b
  /\ B.m_temp b1 = B.m_temp b
  /\ B.m_ende b1 = n
  /\ B.m_contour_length b1 = 0
  /\ B.m_start_contour b1 = B.m_start_contour b.
Proof. unfold start_contour. intros [= <- <-]. done. Qed.

Lemma build_contours_spec contours :
  forall o d b d' b',
    build_contours o contours d b = Some (d', b') ->
    (o + length contours <= length (P.m_edges d))%nat ->
    exists Told ws ess,
      B.m_temp b' = Told ++ ws
      /\ map (map strip) Told = map (map strip) (B.m_temp b)
      /\ P.m_edges d'
         = take o (P.m_edges d) ++ ess ++ drop (o + length contours) (P.m_edges d)
      /\ Forall2 (fun (es : list Edge) (c : list edge_result) => length es = length c)
           ess contours
      /\ ranges_chain (B.m_loc b) (concat ess) (map length ws) (B.m_loc b')
      /\ Forall2 edge_built ws (concat contours)
      /\ P.m_params d' = P.m_params d
      /\ P.m_segment_data d' = P.m_segment_data d.
Proof.
  induction contours as [|c rest IH]; intros o d b d' b' Hb Hlen.
  - cbn in Hb. injection Hb as <- <-. exists (B.m_temp b), [], [].
    rewrite app_nil_r, Nat.add_0_r. cbn. rewrite take_drop.
    repeat (split; [done|]). done.
  - cbn [build_contours] in Hb. cbn [length] in Hlen.
    destruct (start_contour d b o (N.of_nat (length c))) as [d1 b1] eqn:Hstart.
    apply start_contour_spec in Hstart
      as (He1 & Hp1 & Hs1 & Hloc1 & Htemp1 & Hende1 & _ & _).
    rewrite Nat2N.id in He1.
    destruct (build_edges o 0 _ c d1 b1) as [[d2 b2]|] eqn:Hedges; [|done].
    cbn in Hb.
    destruct (end_contour b2) as [b3|] eqn:Hend; [|done]. cbn in Hb.
    destruct (lookup_lt_is_Some_2 (P.m_edges d) o ltac:(lia)) as [es_old Hold].
    eapply (build_edges_spec o _ c 0 d1 b1 d2 b2
              (resize (length c) default_Edge es_old)) in Hedges; cycle 1.
    { rewrite He1, list_lookup_alter_eq, Hold. done. }
    { rewrite length_resize. lia. }
    { done. }
    destruct Hedges as (ws1 & es' & Htemp2 & He2 & Hlen' & _ & _ & Hranges & Hall
                        & _ & _ & _ & _ & Hp2 & Hs2 & _).
    rewrite length_resize in Hlen'.
    pose proof (end_contour_strip _ _ Hend) as Hstrip.
    apply end_contour_spec in Hend as (k & _ & _ & Hloc3 & _).
    apply IH in Hb; cycle 1.
    { rewrite He2, length_insert, He1, length_alter. lia. }
    destruct Hb as (Told' & ws' & ess' & Htemp & HTold & Hedges' & Hshape & Hranges'
                    & Hall' & Hp & Hs).
    rewrite Hstrip, Htemp2, Htemp1, map_app in HTold.
    apply fmap_app_inv in HTold as (A & B0 & HA & HB & ->).
    exists A, (B0 ++ ws'), (es' :: ess').
    split; [by rewrite Htemp, <- app_assoc|].
    split; [done|].
    split.
    { rewrite Hedges', He2, He1.
      assert (Hlo : (o < length (alter (resize (length c) default_Edge) o (P.m_edges d)))%nat)
        by (rewrite length_alter; lia).
      rewrite (take_S_r _ _ es') by (by apply list_lookup_insert_eq).
      rewrite take_insert_ge, take_alter_ge by lia.
      rewrite drop_insert_lt, drop_alter_lt by lia.
      rewrite <- !app_assoc. cbn.
      by replace (o + S (length rest))%nat with (S (o + length rest)) by lia. }
    split; [by constructor|].
    split.
    { cbn [concat]. rewrite map_app. eapply ranges_chain_app.
      - rewrite (strip_lengths B0 ws1) by done.
        rewrite drop_0, take_ge in Hranges by lia. rewrite <- Hloc1. exact Hranges.
      - rewrite <- Hloc3. exact Hranges'. }
    split.
    { cbn [concat]. apply Forall2_app; [|done].
      eapply Forall2_edge_built_strip; [|exact Hall]. done. }
    split; [by rewrite Hp, Hp2, Hp1|by rewrite Hs, Hs2, Hs1].
Qed.

Lemma length_concat_nonempty {A} (ws : list (list A)) :
  Forall (fun w => w <> []) ws -> (length ws <= length (concat ws))%nat.
Proof.
  induction 1 as [|w ws Hw _ IH]; [done|]. cbn. rewrite length_app.
  destruct w; [done|]. cbn. lia.
Qed.

Lemma edge_built_nonempty ws rs :
  Forall2 edge_built ws rs -> Forall (fun w => w <> []) ws.
Proof. induction 1 as [|w r ws rs (_ & Hne & _) _ IH]; by constructor. Qed.

Lemma concat_map_map_length {A B} (f : A -> B) (ws : list (list A)) :
  length (concat (map (map f) ws)) = length (concat ws).
Proof.
  induction ws as [|w ws IH]; [done|]. cbn. by rewrite !length_app, length_map, IH.
Qed.

Lemma concat_map_map {A B} (f : A -> B) (ws : list (list A)) :
  concat (map (map f) ws) = map f (concat ws).
Proof.
  induction ws as [|w ws IH]; [done|]. cbn. by rewrite map_app, IH.
Qed.

Lemma build_contours_closed contours :
  forall o d b d' b',
    build_contours o contours d b = Some (d', b') ->
    (o + length contours <= length (P.m_edges d))%nat ->
    Forall (fun c => c <> []) contours ->
    (N.of_nat (length (concat (B.m_temp b'))) < uint_modulus)%N ->
    exists tss,
      B.m_temp b' = B.m_temp b ++ concat tss
      /\ Forall2 (fun (ts : list (list segment)) (c : list edge_result) =>
                    length ts = length c) tss contours
      /\ Forall contour_closed_ok tss.
Proof.
  induction contours as [|c rest IH]; intros o d b d' b' Hb Hlen Hne Hbound.
  - cbn in Hb. injection Hb as <- <-. exists []. cbn. rewrite app_nil_r.
    split; [done|]. split; constructor.
  - cbn [build_contours] in Hb. cbn [length] in Hlen.
    inversion_clear Hne as [|? ? Hc Hrest].
    destruct (start_contour d b o (N.of_nat (length c))) as [d1 b1] eqn:Hstart.
    apply start_contour_spec in Hstart
      as (He1 & Hp1 & Hs1 & Hloc1 & Htemp1 & Hende1 & Hcl1 & Hst1).
    rewrite Nat2N.id in He1.
    destruct (build_edges o 0 _ c d1 b1) as [[d2 b2]|] eqn:Hedges; [|done].
    cbn in Hb.
    destruct (end_contour b2) as [b3|] eqn:Hend; [|done]. cbn in Hb.
    destruct (lookup_lt_is_Some_2 (P.m_edges d) o ltac:(lia)) as [es_old Hold].
    eapply (build_edges_spec o _ c 0 d1 b1 d2 b2
              (resize (length c) default_Edge es_old)) in Hedges; cycle 1.
    { rewrite He1, list_lookup_alter_eq, Hold. done. }
    { rewrite length_resize. lia. }
    { done. }
    destruct Hedges as (ws1 & es' & Htemp2 & He2 & Hlen' & _ & _ & _ & Hall
                        & Hcl2 & _ & Hstart2 & Hclosed2 & _ & _ & _).
    rewrite decide_True in Hstart2 by done.
    apply end_contour_spec in Hend as (k & Hk & Htemp3 & _ & _).
    rewrite Hstart2 in Hk. injection Hk as <-.
    rewrite Htemp2, Htemp1, take_app_length, drop_app_length in Htemp3.
    apply IH in Hb; [|rewrite He2, length_insert, He1, length_alter; lia|done|done].
    destruct Hb as (tss & Htemp & Hshape & Hok).
    set (stamp := set_contour_lengths _ _) in *.
    exists (map (map stamp) ws1 :: tss).
    split; [by rewrite Htemp, Htemp3, <- app_assoc|].
    split.
    { constructor; [|done]. rewrite length_map. by eapply Forall2_length. }
    constructor; [|done].
    assert (Hende : (N.of_nat (length c) < uint_modulus)%N).
    { rewrite Htemp, Htemp3 in Hbound.
      rewrite !concat_app, !length_app, concat_map_map_length in Hbound.
      pose proof (length_concat_nonempty ws1 (edge_built_nonempty _ _ Hall)).
      apply Forall2_length in Hall. lia. }
    specialize (Hclosed2 Hc eq_refl Hende).
    unfold contour_closed_ok.
    assert (Hsum : sum_lengths 0 (concat (map (map stamp) ws1))
                   = B.m_closed_contour_length b2).
    { rewrite Hclosed2, Hcl2, Hcl1. apply sum_lengths_ext.
      rewrite concat_map_map, map_map. by apply map_ext. }
    rewrite Hsum. apply Forall_fmap, Forall_true. intros w.
    apply Forall_fmap, Forall_true. intros S0. done.
Qed.


Lemma ranges_chain_lookup es :
  forall lens s t k E,
    ranges_chain (N.of_nat s) es lens t ->
    (N.of_nat (s + sum_list lens) < uint_modulus)%N ->
    es !! k = Some E ->
    exists n,
      lens !! k = Some n
      /\ m_edge_range E
         = mk_range (N.of_nat (s + sum_list (take k lens)))
             (N.of_nat (s + sum_list (take k lens) + n)).
Proof.
  induction es as [|E0 es IH]; intros [|n0 lens] s t k E Hr Hb Hk; try done.
  cbn in Hr. destruct Hr as [Hr0 Hr]. cbn [sum_list sum_list_with] in Hb.
  assert (Hw : uadd (N.of_nat s) (wrap (N.of_nat n0)) = N.of_nat (s + n0)).
  { rewrite wrap_small by uint_lia. rewrite uadd_small by uint_lia. lia. }
  rewrite Hw in Hr0, Hr.
  destruct k as [|k].
  - injection Hk as <-. exists n0. split; [done|]. cbn. rewrite Nat.add_0_r. done.
  - cbn in Hk. unfold id in *.
    destruct (IH lens (s + n0)%nat t k E Hr ltac:(by rewrite <- Nat.add_assoc) Hk)
      as (n & Hn & HE).
    exists n. split; [done|]. rewrite HE. cbn [take sum_list sum_list_with].
    by rewrite !Nat.add_assoc.
Qed.

Lemma ranges_chain_to es :
  forall lens s t,
    ranges_chain s es lens t -> es <> [] ->
    (t < uint_modulus)%N
    /\ exists E, list.last es = Some E /\ m_end (m_edge_range E) = t.
Proof.
  induction es as [|E0 es IH]; intros [|n0 lens] s t Hr Hne; try done.
  cbn in Hr. destruct Hr as [Hr0 Hr].
  destruct es as [|E1 es].
  - destruct lens; [|done]. cbn in Hr. subst t. split.
    + unfold uadd, wrap. apply N.mod_lt. done.
    + exists E0. split; [done|]. by rewrite Hr0.
  - destruct (IH _ _ _ Hr ltac:(done)) as (Ht & E & HE & Hend).
    split; [done|]. exists E. split; [|done]. by rewrite last_cons, HE.
Qed.

Lemma ranges_chain_total es :
  forall lens s t,
    ranges_chain (N.of_nat s) es lens t ->
    (N.of_nat (s + sum_list lens) < uint_modulus)%N ->
    t = N.of_nat (s + sum_list lens).
Proof.
  induction es as [|E0 es IH]; intros [|n0 lens] s t Hr Hb; try done.
  - cbn in *. subst. f_equal. lia.
  - cbn in Hr. destruct Hr as [_ Hr]. cbn [sum_list sum_list_with] in *.
    rewrite wrap_small, uadd_small in Hr by uint_lia.
    rewrite <- Nat2N.inj_add in Hr.
    unfold id in *.
    rewrite (IH _ _ _ Hr) by (by rewrite <- Nat.add_assoc). f_equal. lia.
Qed.

Lemma sum_list_lengths {A} (ws : list (list A)) :
  sum_list (map length ws) = length (concat ws).
Proof. induction ws as [|w ws IH]; [done|]. cbn. by rewrite length_app, IH. Qed.

Lemma lookup_concat {A} (ls : list (list A)) :
  forall j l i x,
    ls !! j = Some l -> l !! i = Some x ->
    concat ls !! (length (concat (take j ls)) + i)%nat = Some x.
Proof.
  induction ls as [|l0 ls IH]; intros j l i x Hj Hi; [done|].
  destruct j as [|j].
  - injection Hj as ->. cbn. by apply lookup_app_l_Some.
  - cbn in Hj. cbn [take concat]. rewrite length_app, <- Nat.add_assoc.
    rewrite lookup_app_r by lia.
    replace (length l0 + (length (concat (take j ls)) + i) - length l0)%nat
      with (length (concat (take j ls)) + i)%nat by lia.
    by eapply IH.
Qed.

Lemma sub_array_concat {A} (ws : list (list A)) k w :
  ws !! k = Some w ->
  sub_array
    (mk_range (N.of_nat (length (concat (take k ws))))
       (N.of_nat (length (concat (take k ws)) + length w)))
    (concat ws) = w.
Proof.
  intros Hk. unfold sub_array. cbn [m_begin m_end]. rewrite !Nat2N.id.
  assert (Hws : concat ws = concat (take k ws) ++ w ++ concat (drop (S k) ws)).
  { rewrite <- (take_drop_middle ws k w Hk) at 1. by rewrite concat_app. }
  rewrite Hws, drop_app_length.
  replace (length (concat (take k ws)) + length w - length (concat (take k ws)))%nat
    with (length w) by lia.
  by rewrite take_app_length.
Qed.

Lemma take_concat_shape {A C} (xss : list (list A)) (yss : list (list C)) o :
  Forall2 (fun xs ys => length xs = length ys) xss yss ->
  length (concat (take o xss)) = length (concat (take o yss)).
Proof.
  intros HF. revert o. induction HF as [|xs ys xss yss Hl _ IH]; intros [|o]; try done.
  cbn. by rewrite !length_app, Hl, IH.
Qed.

Lemma Forall2_concat_inv_r {A C} (P : A -> C -> Prop) (kss : list (list C)) :
  forall l,
    Forall2 P l (concat kss) ->
    exists lss, l = concat lss /\ Forall2 (Forall2 P) lss kss.
Proof.
  induction kss as [|ks kss IH]; intros l HF.
  - cbn in HF. apply Forall2_nil_inv_r in HF as ->. by exists [].
  - cbn in HF. apply Forall2_app_inv_r in HF as (l1 & l2 & H1 & H2 & ->).
    destruct (IH _ H2) as (lss & -> & Hlss). exists (l1 :: lss). split; [done|].
    by constructor.
Qed.

Lemma concat_inj_shape {A C} (xss yss : list (list A)) (kss : list (list C)) :
  Forall2 (fun xs ks => length xs = length ks) xss kss ->
  Forall2 (fun ys ks => length ys = length ks) yss kss ->
  concat xss = concat yss -> xss = yss.
Proof.
  intros HX. revert yss. induction HX as [|xs ks xss kss Hl _ IH]; intros yss HY Hc.
  - by apply Forall2_nil_inv_r in HY as ->.
  - apply Forall2_cons_inv_r in HY as (ys & yss' & Hl' & HY & ->).
    cbn in Hc. apply app_inj_1 in Hc as [-> Hc]; [|lia]. f_equal. by apply IH.
Qed.

Lemma last_concat {A} (xss : list (list A)) xs x :
  list.last xss = Some xs -> list.last xs = Some x -> list.last (concat xss) = Some x.
Proof.
  intros Hxss Hxs. rewrite last_Some in Hxss. destruct Hxss as [xss' ->].
  rewrite concat_app. cbn. rewrite app_nil_r.
  rewrite last_Some in Hxs. destruct Hxs as [xs' ->].
  by rewrite app_assoc, last_snoc.
Qed.
End add_edge.

(** ** [finalize] and the structure of a tessellated path *)

Section structure.
Context `{FM : FloatMath}.

Lemma finalize_spec d b tp :
  finalize d b = Some tp ->
  exists es E,
    list.last (P.m_edges d) = Some es
    /\ list.last es = Some E
    /\ m_end (m_edge_range E)
       = N.of_nat (length (P.m_segment_data d ++ concat (B.m_temp b)))
    /\ tp = P.set_m_segment_data (P.m_segment_data d ++ concat (B.m_temp b)) d.
Proof.
  unfold finalize. destruct (list.last (P.m_edges d)) as [es|] eqn:Hes; [|done]. cbn.
  destruct (list.last es) as [E|] eqn:HE; [|done]. cbn.
  destruct (_ =? _)%N eqn:Hc; [|done]. apply N.eqb_eq in Hc.
  intros [= <-]. exists es, E. split; [done|]. split; [done|]. split; [exact Hc|done].
Qed.

Lemma Forall2_shape_trans {A C D} (P1 : A -> C -> Prop)
    (xss : list (list D)) (yss : list (list A)) (kss : list (list C)) :
  Forall2 (fun xs ks => length xs = length ks) xss kss ->
  Forall2 (Forall2 P1) yss kss ->
  Forall2 (fun xs ys => length xs = length ys) xss yss.
Proof.
  intros HX. revert yss. induction HX as [|xs ks xss kss Hl _ IH]; intros yss HY.
  - apply Forall2_nil_inv_r in HY as ->. constructor.
  - apply Forall2_cons_inv_r in HY as (ys & yss' & Hy & HY & ->).
    constructor; [|by apply IH]. apply Forall2_length in Hy. lia.
Qed.

(** What [finalize] leaves: the segment buffer is the concatenation of the
    edges' segments, and the edge ranges chain through it. *)
Lemma built_structure rs TP tp :
  built_from rs TP tp ->
  exists tss, structure_of rs tp tss /\ P.m_params tp = TP.
Proof.
  intros (d' & b' & Hb & Hfin).
  pose proof Hb as Hb2.
  apply build_contours_spec in Hb
    as (Told & ws & ess & Htemp & HTold & Hedges & Hshape & Hranges & Hall & Hp & Hs);
    [|cbn; rewrite length_replicate; lia].
  cbn in HTold, Hedges, Hranges, Hp, Hs.
  destruct Told; [|done]. cbn in Htemp.
  rewrite Nat2N.id in Hedges.
  rewrite (drop_ge (replicate _ _)) in Hedges by (rewrite length_replicate; lia).
  rewrite app_nil_r, take_0 in Hedges. cbn [app] in Hedges.
  apply finalize_spec in Hfin as (es & E & Hes & HE & Hend & ->).
  rewrite Hs, Htemp in Hend. cbn in Hend.
  assert (Hne : concat ess <> []).
  { rewrite last_Some in HE. destruct HE as [es' ->].
    rewrite Hedges, last_Some in Hes. destruct Hes as [ess' ->].
    rewrite concat_app. cbn. rewrite app_nil_r, app_assoc. by destruct (_ ++ es'). }
  destruct (ranges_chain_to _ _ _ _ Hranges Hne) as (Hlt & E' & HE' & Hend').
  rewrite Hedges in Hes. rewrite (last_concat _ _ _ Hes HE) in HE'.
  injection HE' as <-. rewrite Hend in Hend'.
  destruct (Forall2_concat_inv_r _ _ _ Hall) as (tss & -> & Htss).
  exists tss. split; [|done]. unfold structure_of, segment_data. cbn.
  rewrite Hs, Htemp. cbn.
  split; [done|]. split; [done|].
  split; [rewrite Hedges; by eapply Forall2_shape_trans|].
  split; [by rewrite Hedges, Hend'|].
  split; [by rewrite Hend'|].
  intros Hrs.
  apply build_contours_closed in Hb2; [|cbn; rewrite length_replicate; lia|done|].
  - destruct Hb2 as (tss2 & Htemp2 & Hshape2 & Hok). cbn in Htemp2.
    rewrite Htemp in Htemp2.
    rewrite (concat_inj_shape tss tss2 rs); [done| |done|done].
    clear -Htss. induction Htss as [|ts c tss rs Hts _ IH]; constructor; [|done].
    by eapply Forall2_length.
  - by rewrite Htemp, Hend'.
Qed.


Lemma Forall2_lookup_shape {A C} (xss : list (list A)) (yss : list (list C)) o xs :
  Forall2 (fun xs ys => length xs = length ys) xss yss ->
  xss !! o = Some xs -> exists ys, yss !! o = Some ys /\ length xs = length ys.
Proof. intros HF Hx. by apply (Forall2_lookup_l _ _ _ _ _ HF Hx). Qed.

Lemma Forall2_lookup_shape_r {A C} (xss : list (list A)) (yss : list (list C)) o ys :
  Forall2 (fun xs ys => length xs = length ys) xss yss ->
  yss !! o = Some ys -> exists xs, xss !! o = Some xs /\ length xs = length ys.
Proof. intros HF Hy. by apply (Forall2_lookup_r _ _ _ _ _ HF Hy). Qed.

Lemma sum_list_take_lengths (ws : list (list segment)) k :
  sum_list (take k (map length ws)) = length (concat (take k ws)).
Proof.
  change (map length ws) with (length <$> ws).
  by rewrite <- fmap_take, <- sum_list_lengths.
Qed.

(** The range of the edge at position [k] of the flattened edge list. *)
Lemma structure_flat_range rs tp tss k E :
  structure_of rs tp tss ->
  concat (P.m_edges tp) !! k = Some E ->
  exists w,
    concat tss !! k = Some w
    /\ m_edge_range E
       = mk_range (N.of_nat (length (concat (take k (concat tss)))))
           (N.of_nat (length (concat (take k (concat tss))) + length w)).
Proof.
  intros (_ & _ & _ & Hr & Hb & _) Hk.
  destruct (ranges_chain_lookup _ _ 0 _ k E Hr) as (n & Hn & HE); [|done|].
  { cbn. by rewrite sum_list_lengths. }
  change (map length (concat tss)) with (length <$> concat tss) in Hn.
  rewrite list_lookup_fmap in Hn.
  destruct (concat tss !! k) as [w|] eqn:Hw; [|done]. injection Hn as <-.
  exists w. split; [done|]. cbn in HE. by rewrite sum_list_take_lengths in HE.
Qed.

Lemma structure_edge rs tp tss o e es E :
  structure_of rs tp tss ->
  P.m_edges tp !! o = Some es -> es !! e = Some E ->
  exists ts w,
    tss !! o = Some ts /\ ts !! e = Some w
    /\ concat (P.m_edges tp) !! (length (concat (take o (P.m_edges tp))) + e)%nat = Some E
    /\ concat tss !! (length (concat (take o (P.m_edges tp))) + e)%nat = Some w
    /\ edge_segment_data tp o e = Some w.
Proof.
  intros Hst Ho He. pose proof Hst as (Hseg & _ & Hshape & _).
  destruct (Forall2_lookup_shape _ _ _ _ Hshape Ho) as (ts & Hts & Hlen).
  destruct (lookup_lt_is_Some_2 ts e) as [w Hw].
  { rewrite <- Hlen. by eapply lookup_lt_Some. }
  pose proof (lookup_concat _ _ _ _ _ Ho He) as HkE.
  pose proof (lookup_concat _ _ _ _ _ Hts Hw) as Hkw.
  rewrite <- (take_concat_shape _ _ o Hshape) in Hkw.
  exists ts, w. do 4 (split; [done|]).
  destruct (structure_flat_range _ _ _ _ _ Hst HkE) as (w' & Hw' & HE).
  rewrite Hkw in Hw'. injection Hw' as <-.
  unfold edge_segment_data, edge_range. rewrite Ho. cbn. rewrite He. cbn.
  rewrite HE, Hseg. f_equal. by apply sub_array_concat.
Qed.

Lemma structure_consecutive rs tp tss k E1 E2 :
  structure_of rs tp tss ->
  concat (P.m_edges tp) !! k = Some E1 ->
  concat (P.m_edges tp) !! S k = Some E2 ->
  m_begin (m_edge_range E2) = m_end (m_edge_range E1).
Proof.
  intros Hst H1 H2.
  destruct (structure_flat_range _ _ _ _ _ Hst H1) as (w1 & Hw1 & ->).
  destruct (structure_flat_range _ _ _ _ _ Hst H2) as (w2 & Hw2 & ->).
  cbn. rewrite (take_S_r _ _ _ Hw1), concat_app, length_app. cbn.
  by rewrite app_nil_r.
Qed.
End structure.

(** ** The two constructors *)

Section ctor.
Context `{FM : FloatMath} `{PI : PathInterface}.

Lemma path_edge_result_eq params it ts calls tmp :
  produce_tessellation it params = (ts, calls, tmp) ->
  path_edge_result params it
  = mk_edge_result (run_storage_calls calls []) tmp (edge_type it)
      (recursion_depth <$> ts).
Proof. unfold path_edge_result. by intros ->. Qed.

Lemma Path_ctor_edge_loop_build interps :
  forall o e ende d b rc d' b' rc',
    Path_ctor_edge_loop o e ende interps d b rc = Some (d', b', rc') ->
    build_edges o e ende (map (path_edge_result (P.m_params d)) interps) d b
      = Some (d', b')
    /\ refiner_shape <$> rc' = refiner_shape <$> rc.
Proof.
  induction interps as [|it rest IH]; intros o e ende d b rc d' b' rc' Hl.
  - cbn in Hl. by injection Hl as <- <- <-.
  - cbn [Path_ctor_edge_loop] in Hl. cbn [map build_edges].
    destruct (produce_tessellation it (P.m_params d)) as [[ts calls] tmp] eqn:Hprod.
    rewrite (path_edge_result_eq _ _ _ _ _ Hprod).
    cbn [res_recursion res_work_room res_max_distance res_edge_type].
    set (d1 := match ts with Some _ => _ | None => d end) in Hl.
    set (d1' := match recursion_depth <$> ts with Some _ => _ | None => d end).
    assert (Hd : d1' = d1) by (subst d1 d1'; by destruct ts).
    rewrite Hd. clear Hd d1'.
    assert (Hp1 : P.m_params d1 = P.m_params d) by (subst d1; by destruct ts).
    destruct (add_edge d1 b o e _ tmp _) as [[d2 b2]|] eqn:Hadd; [|done].
    cbn in Hl |- *.
    apply add_edge_spec in Hadd as (_ & _ & Hp2 & _).
    apply IH in Hl as [Hl Hrc]. cbn [P.m_params P.set_m_edges] in Hl.
    rewrite Hp2, Hp1 in Hl. split; [exact Hl|].
    rewrite Hrc. destruct rc as [cs|]; [|done]. cbn. f_equal.
    unfold refiner_shape.
    clear. revert o. induction cs as [|c cs IHc]; intros [|o]; cbn; try done.
    + by rewrite length_insert.
    + by rewrite IHc.
Qed.

Lemma build_edges_params o ende results :
  forall e d b d' b',
    build_edges o e ende results d b = Some (d', b') ->
    P.m_params d' = P.m_params d.
Proof.
  induction results as [|r rest IH]; intros e d b d' b' Hb.
  - cbn in Hb. by injection Hb as <- <-.
  - cbn [build_edges] in Hb.
    set (d1 := match res_recursion r with Some _ => _ | None => d end) in Hb.
    assert (Hp1 : P.m_params d1 = P.m_params d) by (subst d1; by destruct (res_recursion r)).
    destruct (add_edge d1 b o e _ _ _) as [[d2 b2]|] eqn:Hadd; [|done]. cbn in Hb.
    apply add_edge_spec in Hadd as (_ & _ & Hp2 & _).
    apply IH in Hb. cbn in Hb. by rewrite Hb, Hp2, Hp1.
Qed.

Lemma refiner_shape_resize n o (cs : list PerContour.t) :
  refiner_shape
    (alter (fun c => PerContour.mk (resize n default_PerEdge (PerContour.m_edges c))) o cs)
  = alter (fun _ => n) o (refiner_shape cs).
Proof.
  revert o. induction cs as [|c cs IH]; intros [|o]; cbn; try done.
  - by rewrite length_resize.
  - by rewrite <- IH.
Qed.

Lemma Path_ctor_contour_loop_build contours :
  forall o d b rc d' b' rc',
    Path_ctor_contour_loop o contours d b rc = Some (d', b', rc') ->
    build_contours o (map (map (path_edge_result (P.m_params d))) contours) d b
      = Some (d', b')
    /\ (forall cs, rc = Some cs -> (o + length contours <= length cs)%nat ->
        exists cs',
          rc' = Some cs'
          /\ refiner_shape cs'
             = take o (refiner_shape cs) ++ map length contours
               ++ drop (o + length contours) (refiner_shape cs))
    /\ (rc = None -> rc' = None).
Proof.
  induction contours as [|c rest IH]; intros o d b rc d' b' rc' Hl.
  - cbn in Hl. injection Hl as <- <- <-. split; [done|]. split; [|done].
    intros cs -> _. exists cs. split; [done|]. cbn.
    by rewrite Nat.add_0_r, take_drop.
  - cbn [Path_ctor_contour_loop] in Hl. cbn [map build_contours].
    rewrite length_map. unfold number_points in Hl.
    destruct (start_contour d b o (N.of_nat (length c))) as [d1 b1] eqn:Hstart.
    pose proof (start_contour_spec _ _ _ _ _ _ Hstart) as (_ & Hp1 & _).
    destruct (Path_ctor_edge_loop o 0 _ c d1 b1 _) as [[[d2 b2] rc2]|] eqn:Hedges;
      [|done].
    cbn in Hl.
    apply Path_ctor_edge_loop_build in Hedges as [Hedges Hrc2].
    rewrite Hp1 in Hedges. rewrite Hedges. cbn.
    destruct (end_contour b2) as [b3|]; [|done]. cbn in Hl |- *.
    assert (Hp2 : P.m_params d2 = P.m_params d).
    { apply build_edges_params in Hedges. by rewrite Hedges. }
    apply IH in Hl as (Hl & Hsome & Hnone). rewrite Hp2 in Hl.
    split; [done|]. split.
    + intros cs -> Hlen. cbn [length] in Hlen. cbn in Hrc2.
      destruct rc2 as [cs2|]; [|done]. cbn in Hrc2. injection Hrc2 as Hrc2.
      rewrite refiner_shape_resize in Hrc2.
      assert (Hl2 : length cs2 = length cs).
      { apply (f_equal length) in Hrc2. unfold refiner_shape in Hrc2.
        by rewrite length_alter, !length_map in Hrc2. }
      destruct (Hsome cs2 eq_refl) as (cs' & -> & Hsh); [lia|].
      exists cs'. split; [done|]. rewrite Hsh, Hrc2. cbn [length map].
      assert (Ho : (o < length (refiner_shape cs))%nat)
        by (unfold refiner_shape; rewrite length_map; lia).
      destruct (lookup_lt_is_Some_2 _ _ Ho) as [n0 Hn0].
      rewrite Nat2N.id.
      rewrite (take_S_r _ _ (length c))
        by (by rewrite list_lookup_alter_eq, Hn0).
      rewrite take_alter_ge, drop_alter_lt by lia.
      rewrite <- app_assoc. cbn.
      by replace (o + S (length rest))%nat with (S (o + length rest)) by lia.
    + intros ->. cbn in Hrc2. destruct rc2; [done|]. by apply Hnone.
Qed.

Lemma build_contours_params contours :
  forall o d b d' b',
    build_contours o contours d b = Some (d', b') -> P.m_params d' = P.m_params d.
Proof.
  induction contours as [|c rest IH]; intros o d b d' b' Hb.
  - cbn in Hb. by injection Hb as <- <-.
  - cbn [build_contours] in Hb.
    destruct (start_contour d b o _) as [d1 b1] eqn:Hstart.
    pose proof (start_contour_spec _ _ _ _ _ _ Hstart) as (_ & Hp1 & _).
    destruct (build_edges o 0 _ c d1 b1) as [[d2 b2]|] eqn:Hedges; [|done]. cbn in Hb.
    destruct (end_contour b2) as [b3|]; [|done]. cbn in Hb.
    apply build_edges_params in Hedges. apply IH in Hb. by rewrite Hb, Hedges.
Qed.

(** What the constructor from a [Path] returns. *)
Lemma TessellatedPath_from_Path_spec (input : Path) TP want_ref tp ref :
  TessellatedPath_from_Path input TP want_ref = Some (tp, ref) ->
  (input = [] /\ tp = new_TessellatedPathPrivate 0 TP /\ ref = None)
  \/ (input <> []
      /\ built_from (map (map (path_edge_result TP)) input) TP tp
      /\ (want_ref = true ->
          exists r, ref = Some r /\ RefinerPrivate.m_path r = tp
                    /\ refiner_shape (RefinerPrivate.m_contours r) = map length input)
      /\ (want_ref = false -> ref = None)).
Proof.
  unfold TessellatedPath_from_Path, Path_number_contours.
  destruct (N.of_nat (length input) =? 0)%N eqn:Hz.
  { apply N.eqb_eq in Hz. destruct input; [|done]. intros [= <- <-]. by left. }
  apply N.eqb_neq in Hz. right. split; [by intros ->|].
  destruct (Path_ctor_contour_loop 0 input _ _ _) as [[[d1 b1] r1]|] eqn:Hloop; [|done].
  cbn in H. destruct (finalize d1 b1) as [d2|] eqn:Hfin; [|done]. cbn in H.
  injection H as <- <-.
  apply Path_ctor_contour_loop_build in Hloop as (Hloop & Hsome & Hnone).
  cbn [P.m_params new_TessellatedPathPrivate] in Hloop.
  split.
  { exists d1, b1. by rewrite length_map. }
  split.
  - intros ->. destruct (Hsome _ eq_refl) as (cs' & -> & Hsh).
    { rewrite length_replicate. lia. }
    eexists. split; [done|]. split; [done|].
    change (refiner_shape cs' = map length input). rewrite Hsh, take_0. cbn [app].
    rewrite drop_ge; [by rewrite app_nil_r|].
    unfold refiner_shape. rewrite length_map, length_replicate. lia.
  - intros ->. by rewrite Hnone.
Qed.

Lemma Refiner_ctor_edge_loop_build edges :
  forall o e ende d b d' b' edges',
    Refiner_ctor_edge_loop o e ende edges d b = Some (d', b', edges') ->
    exists results,
      build_edges o e ende results d b = Some (d', b')
      /\ length edges' = length edges
      /\ Forall2 (edge_retessellated (P.m_params d)) results edges.
Proof.
  induction edges as [|edge rest IH]; intros o e ende d b d' b' edges' Hl.
  - cbn in Hl. injection Hl as <- <- <-. exists []. split; [done|]. split; [done|].
    constructor.
  - cbn [Refiner_ctor_edge_loop] in Hl.
    destruct (PerEdge.m_interpolator edge) as [it|] eqn:Hit; [|done]. cbn in Hl.
    destruct (PerEdge.m_tess_state edge) as [ts|] eqn:Hts.
    + destruct (resume_tessellation ts (P.m_params d)) as [[ts' calls] tmp] eqn:Hres.
      destruct (add_edge _ b o e _ tmp _) as [[d2 b2]|] eqn:Hadd; [|done]. cbn in Hl.
      destruct (Refiner_ctor_edge_loop o (S e) ende rest _ b2)
        as [[[d4 b4] rest']|] eqn:Hrec; [|done].
      cbn in Hl. injection Hl as <- <- <-.
      pose proof (add_edge_spec _ _ _ _ _ _ _ _ _ Hadd) as (_ & _ & Hp2 & _).
      apply IH in Hrec as (results & Hb & Hlen & Hall).
      cbn [P.m_params P.set_m_edges P.set_m_max_recursion] in Hall, Hp2.
      exists (mk_edge_result (run_storage_calls calls []) tmp (edge_type it)
                (Some (recursion_depth ts')) :: results).
      split; [|split].
      * cbn [build_edges res_recursion res_work_room res_max_distance res_edge_type].
        rewrite Hadd. cbn. exact Hb.
      * cbn. by rewrite Hlen.
      * constructor; [|by rewrite Hp2 in Hall].
        exists calls. split; [|done]. unfold refiner_edge_calls.
        rewrite Hit, Hts. cbn. by rewrite Hres.
    + destruct (produce_tessellation it (P.m_params d)) as [[ts' calls] tmp] eqn:Hres.
      destruct (add_edge _ b o e _ tmp _) as [[d2 b2]|] eqn:Hadd; [|done]. cbn in Hl.
      destruct (Refiner_ctor_edge_loop o (S e) ende rest _ b2)
        as [[[d4 b4] rest']|] eqn:Hrec; [|done].
      cbn in Hl. injection Hl as <- <- <-.
      pose proof (add_edge_spec _ _ _ _ _ _ _ _ _ Hadd) as (_ & _ & Hp2 & _).
      apply IH in Hrec as (results & Hb & Hlen & Hall).
      cbn [P.m_params P.set_m_edges P.set_m_max_recursion] in Hall, Hp2.
      exists (mk_edge_result (run_storage_calls calls []) tmp (edge_type it) None
              :: results).
      split; [|split].
      * cbn [build_edges res_recursion res_work_room res_max_distance res_edge_type].
        rewrite Hadd. cbn. exact Hb.
      * cbn. by rewrite Hlen.
      * constructor; [|by rewrite Hp2 in Hall].
        exists calls. split; [|done]. unfold refiner_edge_calls.
        rewrite Hit, Hts. cbn. by rewrite Hres.
Qed.

Lemma Refiner_ctor_contour_loop_build contours :
  forall o d b d' b' contours',
    Refiner_ctor_contour_loop o contours d b = Some (d', b', contours') ->
    exists rs,
      build_contours o rs d b = Some (d', b')
      /\ refiner_shape contours' = refiner_shape contours
      /\ Forall2 (fun r c => Forall2 (edge_retessellated (P.m_params d)) r
                               (PerContour.m_edges c)) rs contours.
Proof.
  induction contours as [|c rest IH]; intros o d b d' b' contours' Hl.
  - cbn in Hl. injection Hl as <- <- <-. exists []. split; [done|]. split; [done|].
    constructor.
  - cbn [Refiner_ctor_contour_loop] in Hl.
    destruct (start_contour d b o _) as [d1 b1] eqn:Hstart.
    pose proof (start_contour_spec _ _ _ _ _ _ Hstart) as (_ & Hp1 & _).
    destruct (Refiner_ctor_edge_loop o 0 _ _ d1 b1) as [[[d2 b2] edges']|] eqn:Hedges;
      [|done].
    cbn in Hl. destruct (end_contour b2) as [b3|] eqn:Hend; [|done]. cbn in Hl.
    destruct (Refiner_ctor_contour_loop (S o) rest d2 b3)
      as [[[d4 b4] rest']|] eqn:Hrec; [|done].
    cbn in Hl. injection Hl as <- <- <-.
    apply Refiner_ctor_edge_loop_build in Hedges as (r & Hb & Hlen & Hall).
    pose proof (build_edges_params _ _ _ _ _ _ _ _ Hb) as Hp2.
    apply IH in Hrec as (rs & Hbc & Hsh & Hall').
    rewrite Hp2, Hp1 in Hall'. rewrite Hp1 in Hall.
    exists (r :: rs). split; [|split].
    + cbn [build_contours]. pose proof Hall as Hl2. apply Forall2_length in Hl2.
      rewrite <- Hl2 in Hstart, Hb.
      rewrite Hstart, Hb. cbn. rewrite Hend. cbn. exact Hbc.
    + unfold refiner_shape in *. cbn [map PerContour.m_edges]. by rewrite Hlen, Hsh.
    + by constructor.
Qed.

Lemma built_shape rs TP tp : built_from rs TP tp -> path_shape tp = map length rs.
Proof.
  intros (tss & (_ & Htss & Hshape & _) & _)%built_structure. unfold path_shape.
  revert rs Htss. induction Hshape as [|es ts ess tss Hl _ IH]; intros rs Htss.
  - by apply Forall2_nil_inv_l in Htss as ->.
  - apply Forall2_cons_inv_l in Htss as (r & rs' & Hr & Htss & ->).
    cbn. rewrite (IH _ Htss). f_equal. apply Forall2_length in Hr. lia.
Qed.

(** What the constructor from a [Refiner] returns. *)
Lemma TessellatedPath_from_Refiner_spec ref_d max_distance additional p contours' :
  TessellatedPath_from_Refiner ref_d max_distance additional = Some (p, contours') ->
  refiner_shape contours' = refiner_shape (RefinerPrivate.m_contours ref_d)
  /\ path_shape p = refiner_shape (RefinerPrivate.m_contours ref_d)
  /\ (RefinerPrivate.m_contours ref_d <> [] ->
      exists rs,
        built_from rs (refiner_params ref_d max_distance additional) p
        /\ Forall2 (fun r c =>
                      Forall2 (edge_retessellated
                                 (refiner_params ref_d max_distance additional)) r
                        (PerContour.m_edges c)) rs (RefinerPrivate.m_contours ref_d)).
Proof.
  unfold TessellatedPath_from_Refiner. fold (refiner_params ref_d max_distance additional).
  destruct (RefinerPrivate.m_contours ref_d) as [|c cs] eqn:Hcs.
  { intros [= <- <-]. done. }
  rewrite <- Hcs.
  destruct (Refiner_ctor_contour_loop 0 _ _ _) as [[[d1 b1] cs']|] eqn:Hloop; [|done].
  cbn. destruct (finalize d1 b1) as [d2|] eqn:Hfin; [|done]. cbn.
  intros [= <- <-].
  apply Refiner_ctor_contour_loop_build in Hloop as (rs & Hb & Hsh & Hall).
  cbn [P.m_params new_TessellatedPathPrivate] in Hall.
  assert (Hlen : length rs = length (RefinerPrivate.m_contours ref_d))
    by by eapply Forall2_length.
  assert (Hbuilt : built_from rs (refiner_params ref_d max_distance additional) d2).
  { exists d1, b1. by rewrite Hlen. }
  split; [done|]. split.
  - rewrite (built_shape _ _ _ Hbuilt). unfold refiner_shape.
    clear -Hall. induction Hall as [|r c rs cs Hr _ IH]; [done|].
    cbn. rewrite IH. f_equal. by eapply Forall2_length.
  - intros _. by exists rs.
Qed.
End ctor.

(** ** From storage calls to the segments of an edge *)

Lemma chain_geometry p l q : chain p (map geometry l) q <-> chain p l q.
Proof.
  revert p. induction l as [|S0 l IH]; intros p; [done|]. cbn. by rewrite IH.
Qed.

Lemma chain_map_geometry p l l' q :
  map geometry l = map geometry l' -> chain p l' q -> chain p l q.
Proof. intros Hm H. apply chain_geometry. rewrite Hm. by apply chain_geometry. Qed.

Lemma chain_contiguous p l q : chain p l q -> contiguous l.
Proof.
  revert p. induction l as [|S0 l IH]; intros p Hc i S1 T1 Hi Hj; [done|].
  destruct Hc as [_ Hc]. destruct i as [|i].
  - cbn in Hi, Hj. injection Hi as <-. destruct l as [|T0 l]; [done|].
    cbn in Hj. injection Hj as <-. by destruct Hc.
  - cbn in Hi, Hj. by eapply IH.
Qed.

Section storage_calls.
Context `{FM : FloatMath}.

Lemma run_storage_calls_chain calls :
  forall p q d,
    calls_chained p calls q -> Forall call_fits calls ->
    exists new, run_storage_calls calls d = d ++ new /\ chain p new q.
Proof.
  induction calls as [|c calls IH]; intros p q d Hc Hf.
  - exists []. cbn in *. by rewrite app_nil_r.
  - destruct Hc as [Hs Hc]. inversion_clear Hf as [|? ? Hfc Hf'].
    unfold run_storage_calls. cbn [fold_left].
    fold (run_storage_calls calls (run_storage_call d c)).
    assert (Hone : exists new1, run_storage_call d c = d ++ new1
                                /\ chain p new1 (call_end c)).
    { destruct c as [a b|a b center radius rng]; cbn in *.
      - exists [new_segment line_segment a b (mk_vec2 0 0) (mk_range 0 0) 0 false].
        split; [done|]. cbn. by subst.
      - destruct (add_arc_segment_spec a b center radius rng d Hfc)
          as (new1 & Heq & _ & _ & Hch & _).
        exists new1. split; [done|]. by subst. }
    destruct Hone as (new1 & -> & Hch1).
    destruct (IH _ _ (d ++ new1) Hc Hf') as (new2 & -> & Hch2).
    exists (new1 ++ new2). rewrite <- app_assoc. split; [done|].
    by eapply chain_app.
Qed.

Lemma take_concat_prefix {A} (xss : list (list A)) o :
  take (length (concat (take o xss))) (concat xss) = concat (take o xss).
Proof.
  rewrite <- (take_drop o xss) at 2. rewrite concat_app. by rewrite take_app_length.
Qed.

Lemma structure_contour rs tp tss o ts :
  structure_of rs tp tss ->
  tss !! o = Some ts -> ts <> [] ->
  contour_segment_data tp o = Some (concat ts).
Proof.
  intros Hst Hts Hne. pose proof Hst as (Hseg & _ & Hshape & _).
  destruct (Forall2_lookup_shape_r _ _ _ _ Hshape Hts) as (es & Hes & Hlen).
  assert (Hn : (0 < length es)%nat) by (destruct ts; [done|cbn in Hlen; lia]).
  destruct (lookup_lt_is_Some_2 es 0 Hn) as [E0 HE0].
  destruct (lookup_lt_is_Some_2 es (pred (length es)) ltac:(lia)) as [E1 HE1].
  destruct (structure_edge _ _ _ _ _ _ _ Hst Hes HE0)
    as (ts0 & w0 & Hts0 & Hw0 & Hk0 & Hkw0 & _).
  destruct (structure_edge _ _ _ _ _ _ _ Hst Hes HE1)
    as (ts1 & w1 & Hts1 & Hw1 & Hk1 & Hkw1 & _).
  rewrite Hts in Hts0, Hts1. injection Hts0 as <-. injection Hts1 as <-.
  destruct (structure_flat_range _ _ _ _ _ Hst Hk0) as (w0' & Hw0' & HR0).
  destruct (structure_flat_range _ _ _ _ _ Hst Hk1) as (w1' & Hw1' & HR1).
  rewrite Hkw0 in Hw0'. injection Hw0' as <-.
  rewrite Hkw1 in Hw1'. injection Hw1' as <-.
  unfold contour_segment_data, contour_range. rewrite Hes. cbn.
  rewrite head_lookup, HE0, last_lookup, HE1. cbn. rewrite HR0, HR1. cbn.
  f_equal. rewrite Hseg.
  rewrite (take_concat_shape _ _ o Hshape) in *. rewrite Nat.add_0_r.
  rewrite take_concat_prefix.
  set (k0 := length (concat (take o tss))) in *.
  assert (Ht1 : concat (take (k0 + pred (length es)) (concat tss)) ++ w1
                = concat (concat (take o tss)) ++ concat ts).
  { rewrite <- (app_nil_r w1), <- (concat_app _ [w1]).
    rewrite <- (take_S_r _ _ _ Hkw1).
    replace (S (k0 + pred (length es))) with (k0 + length ts)%nat by lia.
    assert (Htk : take (k0 + length ts) (concat tss) = concat (take o tss) ++ ts).
    { rewrite <- (take_drop_middle tss o ts Hts) at 1.
      rewrite concat_app. cbn [concat]. subst k0.
      rewrite take_app_add, take_app_length. done. }
    by rewrite Htk, concat_app. }
  apply (f_equal length) in Ht1. rewrite !length_app in Ht1.
  rewrite Ht1. unfold sub_array. cbn [m_begin m_end]. rewrite !Nat2N.id.
  assert (Hall : concat (concat tss)
                 = concat (concat (take o tss)) ++ concat ts
                   ++ concat (concat (drop (S o) tss))).
  { rewrite <- (take_drop_middle tss o ts Hts) at 1.
    rewrite !concat_app. cbn [concat]. by rewrite concat_app. }
  rewrite Hall, drop_app_length.
  replace (length (concat (concat (take o tss))) + length (concat ts)
           - length (concat (concat (take o tss))))%nat
    with (length (concat ts)) by lia.
  by rewrite take_app_length.
Qed.

Context `{PI : PathInterface}.

(** A constructed path is empty or built from edge results. *)
(** A constructed path is the empty one or was built by the shared loops
    and [finalize]. *)
Lemma constructed_cases tp :
  constructed tp ->
  (P.m_edges tp = [] /\ segment_data tp = [])
  \/ exists rs TP, built_from rs TP tp.
Proof.
  intros [(input & TP & want & ref & H)|(ref_d & md & add & cs & H)].
  - apply TessellatedPath_from_Path_spec in H as [(-> & -> & _)|(_ & Hb & _)];
      [by left|right; eauto].
  - unfold TessellatedPath_from_Refiner in H.
    destruct (RefinerPrivate.m_contours ref_d) as [|c cs0] eqn:Hcs.
    + injection H as <- <-. by left.
    + rewrite <- Hcs in H.
      destruct (TessellatedPath_from_Refiner_spec ref_d md add tp cs) as (_ & _ & Hb).
      { unfold TessellatedPath_from_Refiner. rewrite Hcs. rewrite <- Hcs. exact H. }
      destruct Hb as (rs & Hb & _); [by rewrite Hcs|]. right. eauto.
Qed.
End storage_calls.

(** ** Edge ranges and distance fields *)

Lemma lookup_map {A B} (f : A -> B) (l : list A) (i : nat) :
  map f l !! i = f <$> l !! i.
Proof. revert i. induction l as [|x l IH]; intros [|i]; cbn; done. Qed.

Lemma distances_from_lookup from l :
  distances_from from l ->
  (forall S0, l !! 0%nat = Some S0 -> m_distance_from_edge_start S0 = from)
  /\ (forall i S0 T0, l !! i = Some S0 -> l !! (i + 1)%nat = Some T0 ->
      m_distance_from_edge_start T0 = m_distance_from_edge_start S0 + m_length S0).
Proof.
  revert from. induction l as [|x l IH]; intros from Hd; [done|].
  destruct Hd as [Hx Hd]. destruct (IH _ Hd) as [IH0 IHS]. split.
  - intros S0 [= <-]. done.
  - intros [|i] S0 T0 Hi Hj; cbn in Hi, Hj.
    + injection Hi as <-. by apply IH0.
    + by eapply IHS.
Qed.

Lemma elem_of_concat_inv {A} (x : A) (ls : list (list A)) :
  x ∈ concat ls -> exists l, l ∈ ls /\ x ∈ l.
Proof.
  induction ls as [|l ls IH]; cbn; [by intros ?%elem_of_nil|].
  rewrite elem_of_app. intros [Hx|Hx].
  - exists l. split; [apply list_elem_of_here|done].
  - destruct (IH Hx) as (l' & Hl' & Hx'). exists l'.
    split; [by apply list_elem_of_further|done].
Qed.

Lemma lookup_concat_length {A} (ws : list (list A)) k w :
  ws !! k = Some w -> (length w <= length (concat ws))%nat.
Proof.
  intros Hk. rewrite <- (take_drop_middle ws k w Hk), concat_app. cbn.
  rewrite !length_app. lia.
Qed.

Lemma edge_data_inv tp o e l :
  edge_segment_data tp o e = Some l ->
  exists es E, P.m_edges tp !! o = Some es /\ es !! e = Some E.
Proof.
  unfold edge_segment_data, edge_range. intros Hl.
  destruct (P.m_edges tp !! o) as [es|]; [|done]. cbn in Hl.
  destruct (es !! e) as [E|] eqn:HE; [|done]. by exists es, E.
Qed.

Lemma edge_range_inv tp o e r :
  edge_range tp o e = Some r ->
  exists es E, P.m_edges tp !! o = Some es /\ es !! e = Some E /\ r = m_edge_range E.
Proof.
  unfold edge_range. intros Hr.
  destruct (P.m_edges tp !! o) as [es|]; [|done]. cbn in Hr.
  destruct (es !! e) as [E|] eqn:HE; [|done]. cbn in Hr. injection Hr as <-.
  by exists es, E.
Qed.

Lemma structure_edge_built rs tp tss o e l :
  structure_of rs tp tss ->
  edge_segment_data tp o e = Some l ->
  exists c r,
    rs !! o = Some c /\ c !! e = Some r /\ edge_built l r
    /\ (N.of_nat (length l) < uint_modulus)%N.
Proof.
  intros Hst Hl. destruct (edge_data_inv _ _ _ _ Hl) as (es & E & Hes & HE).
  destruct (structure_edge _ _ _ _ _ _ _ Hst Hes HE)
    as (ts & w & Hts & Hw & _ & Hkw & Hdata).
  rewrite Hdata in Hl. injection Hl as <-.
  pose proof Hst as (_ & Htss & _ & _ & Hb & _).
  destruct (Forall2_lookup_l _ _ _ _ _ Htss Hts) as (c & Hc & Hts_c).
  destruct (Forall2_lookup_l _ _ _ _ _ Hts_c Hw) as (r & Hr & Hbuilt).
  exists c, r. do 3 (split; [done|]).
  pose proof (lookup_concat_length _ _ _ Hkw). lia.
Qed.

Section ranges_and_distances.
Context `{FM : FloatMath} `{PI : PathInterface}.

(** C10: in a tessellated path that one of the constructors built, the range
    of the first edge of the first contour begins at 0; within a contour the
    range of an edge begins where the range of the edge before it ends; the
    range of the first edge of a contour begins where the range of the last
    edge of the contour before it ends; and the range of the last edge of
    the last contour ends at the number of segments of [segment_data()]. *)
Theorem edge_ranges_partition tp :
  constructed tp ->
  (forall r, edge_range tp 0 0 = Some r -> m_begin r = 0%N)
  /\ (forall o e r1 r2,
        edge_range tp o e = Some r1 -> edge_range tp o (e + 1) = Some r2 ->
        m_begin r2 = m_end r1)
  /\ (forall o n r1 r2,
        number_edges tp o = Some (S n) ->
        edge_range tp o n = Some r1 -> edge_range tp (o + 1) 0 = Some r2 ->
        m_begin r2 = m_end r1)
  /\ (forall o n r,
        number_contours tp = S o -> number_edges tp o = Some (S n) ->
        edge_range tp o n = Some r ->
        m_end r = N.of_nat (length (segment_data tp))).
Proof.
  intros [[He Hs]|(rs & TP & Hb)]%constructed_cases.
  { unfold edge_range, number_contours. rewrite He. repeat split; done. }
  apply built_structure in Hb as (tss & Hst & _).
  split; [|split; [|split]].
  - intros r (es & E & Hes & HE & ->)%edge_range_inv.
    destruct (structure_edge _ _ _ _ _ _ _ Hst Hes HE) as (_ & _ & _ & _ & Hk & _).
    destruct (structure_flat_range _ _ _ _ _ Hst Hk) as (w & _ & ->). done.
  - intros o e r1 r2 (es & E1 & Hes & HE1 & ->)%edge_range_inv
      (es' & E2 & Hes' & HE2 & ->)%edge_range_inv.
    rewrite Hes in Hes'. injection Hes' as <-.
    destruct (structure_edge _ _ _ _ _ _ _ Hst Hes HE1) as (_ & _ & _ & _ & Hk1 & _).
    destruct (structure_edge _ _ _ _ _ _ _ Hst Hes HE2) as (_ & _ & _ & _ & Hk2 & _).
    eapply structure_consecutive; [done|exact Hk1|].
    by replace (S (length (concat (take o (P.m_edges tp))) + e))
      with (length (concat (take o (P.m_edges tp))) + (e + 1))%nat by lia.
  - intros o n r1 r2 Hn (es & E1 & Hes & HE1 & ->)%edge_range_inv
      (es' & E2 & Hes' & HE2 & ->)%edge_range_inv.
    unfold number_edges in Hn. rewrite Hes in Hn. cbn in Hn. injection Hn as Hn.
    destruct (structure_edge _ _ _ _ _ _ _ Hst Hes HE1) as (_ & _ & _ & _ & Hk1 & _).
    destruct (structure_edge _ _ _ _ _ _ _ Hst Hes' HE2) as (_ & _ & _ & _ & Hk2 & _).
    eapply structure_consecutive; [done|exact Hk1|].
    replace (o + 1)%nat with (S o) in Hk2 by lia.
    rewrite (take_S_r _ _ _ Hes), concat_app, length_app in Hk2. cbn in Hk2.
    rewrite app_nil_r, Hn in Hk2.
    by replace (S (length (concat (take o (P.m_edges tp))) + n))
      with (length (concat (take o (P.m_edges tp))) + S n + 0)%nat by lia.
  - intros o n r Ho Hn (es & E & Hes & HE & ->)%edge_range_inv.
    unfold number_edges in Hn. rewrite Hes in Hn. cbn in Hn. injection Hn as Hn.
    unfold number_contours in Ho.
    pose proof Hst as (Hseg & _ & _ & Hr & _).
    assert (Hlast : list.last (concat (P.m_edges tp)) = Some E).
    { eapply last_concat; rewrite last_lookup.
      - by rewrite Ho.
      - by rewrite Hn. }
    destruct (ranges_chain_to _ _ _ _ Hr) as (_ & E' & HE' & Hend).
    { intros Hnil. by rewrite Hnil in Hlast. }
    rewrite Hlast in HE'. injection HE' as <-. by rewrite Hend, Hseg.
Qed.

(** C3: in a tessellated path that one of the constructors built, for every
    edge the first segment has [m_distance_from_edge_start] zero, each
    further segment has that of the segment before it plus the length of the
    segment before it, and every segment has as [m_edge_length] the
    [m_distance_from_edge_start] of the last segment plus the length of the
    last segment.  When every contour has an edge, as the contours of a
    [Path] have, every segment of a contour has as [m_closed_contour_length]
    the sum of the lengths of the segments of the contour, added in order. *)
Theorem cumulative_distances tp :
  constructed tp ->
  (forall o e l,
     edge_segment_data tp o e = Some l ->
     (forall S0, l !! 0%nat = Some S0 -> m_distance_from_edge_start S0 = 0)
     /\ (forall i S0 T0,
           l !! i = Some S0 -> l !! (i + 1)%nat = Some T0 ->
           m_distance_from_edge_start T0
           = m_distance_from_edge_start S0 + m_length S0)
     /\ (forall L S0,
           list.last l = Some L -> S0 ∈ l ->
           m_edge_length S0 = m_distance_from_edge_start L + m_length L))
  /\ (Forall (fun es => es <> []) (P.m_edges tp) ->
      forall o l,
        contour_segment_data tp o = Some l ->
        forall S0, S0 ∈ l -> m_closed_contour_length S0 = sum_lengths 0 l).
Proof.
  intros [[He Hs]|(rs & TP & Hb)]%constructed_cases.
  { unfold edge_segment_data, edge_range, contour_segment_data, contour_range.
    rewrite He. split; [done|]. intros _ o l. done. }
  apply built_structure in Hb as (tss & Hst & _). split.
  - intros o e l Hl.
    destruct (structure_edge_built _ _ _ _ _ _ Hst Hl) as (c & r & _ & _ & Hbuilt & Hlen).
    destruct Hbuilt as (_ & _ & Hok). destruct (Hok Hlen) as [Hd Hel].
    destruct (distances_from_lookup _ _ Hd) as [H0 HS].
    split; [done|]. split; [done|].
    intros L S0 HL Hin. specialize (Hel L HL). rewrite list.Forall_forall in Hel.
    by apply Hel.
  - intros Hne o l Hl S0 Hin.
    pose proof Hst as (_ & Htss & Hshape & _ & _ & Hclosed).
    assert (Hes : exists es, P.m_edges tp !! o = Some es).
    { unfold contour_segment_data, contour_range in Hl.
      destruct (P.m_edges tp !! o) as [es|]; [by exists es|done]. }
    destruct Hes as [es Hes].
    destruct (Forall2_lookup_shape _ _ _ _ Hshape Hes) as (ts & Hts & Hlen).
    assert (Hes_ne : es <> []).
    { rewrite list.Forall_forall in Hne. apply Hne. by eapply list_elem_of_lookup_2. }
    assert (Hts_ne : ts <> []) by (intros ->; by destruct es).
    rewrite (structure_contour _ _ _ _ _ Hst Hts Hts_ne) in Hl. injection Hl as <-.
    assert (Hrs : Forall (fun c => c <> []) rs).
    { clear -Hne Hshape Htss. revert rs Htss.
      induction Hshape as [|es ts ess tss Hl _ IH]; intros rs Htss.
      - apply Forall2_nil_inv_l in Htss as ->. constructor.
      - apply Forall2_cons_inv_l in Htss as (c & rs' & Hc & Htss & ->).
        inversion_clear Hne as [|? ? Hes Hne']. constructor; [|by apply IH].
        apply Forall2_length in Hc. intros ->. destruct es; [done|].
        cbn in Hl. destruct ts; [done|]. done. }
    specialize (Hclosed Hrs). rewrite list.Forall_forall in Hclosed.
    specialize (Hclosed ts ltac:(by eapply list_elem_of_lookup_2)).
    unfold contour_closed_ok in Hclosed.
    apply elem_of_concat_inv in Hin as (w & Hw & Hin).
    rewrite list.Forall_forall in Hclosed. specialize (Hclosed w Hw).
    rewrite list.Forall_forall in Hclosed. by apply Hclosed.
Qed.
End ranges_and_distances.

(** ** The constructor from a [Refiner] returns *)

Lemma wrap_length_nonzero {A} (l : list A) :
  l <> [] -> (N.of_nat (length l) < uint_modulus)%N -> wrap (N.of_nat (length l)) <> 0%N.
Proof.
  intros Hne Hlt. rewrite wrap_small by done. destruct l; [done|]. cbn [length]. lia.
Qed.

Section success.
Context `{FM : FloatMath}.

Lemma add_edge_is_Some d b o e work tmp closing :
  wrap (N.of_nat (length work)) <> 0%N ->
  is_Some (add_edge d b o e work tmp closing).
Proof.
  intros Hne. unfold add_edge. apply N.eqb_neq in Hne. rewrite Hne.
  destruct (add_edge_loop _ _ _ _) as [work1 acc]. by eexists.
Qed.

Lemma build_edges_start_contour o ende results :
  forall e d b d' b',
    build_edges o e ende results d b = Some (d', b') ->
    is_Some (B.m_start_contour b) \/ (e = 0%nat /\ results <> []) ->
    is_Some (B.m_start_contour b').
Proof.
  induction results as [|r rest IH]; intros e d b d' b' Hb Hs.
  - cbn in Hb. injection Hb as <- <-. by destruct Hs as [?|[_ ?]].
  - cbn [build_edges] in Hb.
    destruct (add_edge _ b o e _ _ _) as [[d2 b2]|] eqn:Hadd; [|done]. cbn in Hb.
    apply add_edge_spec in Hadd as (_ & _ & _ & _ & _ & _ & Hstart & _).
    eapply IH; [exact Hb|]. left. rewrite Hstart.
    case_bool_decide as He; [done|]. by destruct Hs as [?|[? _]].
Qed.

Lemma end_contour_is_Some b :
  is_Some (B.m_start_contour b) -> is_Some (end_contour b).
Proof.
  intros [k Hk]. unfold end_contour. rewrite Hk. case_bool_decide; by eexists.
Qed.

Lemma finalize_is_Some rs TP d' b' :
  build_contours 0 rs (new_TessellatedPathPrivate (N.of_nat (length rs)) TP)
    new_TessellatedPathBuildingState = Some (d', b') ->
  rs <> [] -> Forall (fun c => c <> []) rs ->
  (N.of_nat (length (concat (map res_work_room (concat rs)))) < uint_modulus)%N ->
  is_Some (finalize d' b').
Proof.
  intros Hb Hne Hall Htotal.
  apply build_contours_spec in Hb
    as (Told & ws & ess & Htemp & HTold & Hedges & Hshape & Hranges & Hbuilt & _ & Hs);
    [|cbn; rewrite length_replicate; lia].
  cbn in HTold, Hedges, Hranges, Hs.
  destruct Told; [|done]. cbn in Htemp.
  rewrite Nat2N.id in Hedges.
  rewrite (drop_ge (replicate _ _)) in Hedges by (rewrite length_replicate; lia).
  rewrite app_nil_r, take_0 in Hedges. cbn [app] in Hedges.
  assert (Hlen : length (concat ws) = length (concat (map res_work_room (concat rs)))).
  { clear -Hbuilt. induction Hbuilt as [|w r ws rs' (Hg & _) _ IH]; [done|].
    cbn. rewrite !length_app, IH. f_equal. by apply map_geometry_length. }
  destruct (list.last ess) as [es|] eqn:Hes; cycle 1.
  { apply last_None in Hes. rewrite Hes in Hshape.
    apply Forall2_nil_inv_l in Hshape. done. }
  destruct (list.last es) as [E|] eqn:HE; cycle 1.
  { apply last_None in HE. subst es. apply last_Some in Hes as [ess' Hess].
    rewrite Hess in Hshape.
    apply Forall2_app_inv_l in Hshape as (rs1 & rs2 & _ & Hlast & ->).
    apply Forall2_cons_inv_l in Hlast as (c & rs3 & Hc & _ & ->).
    apply Forall_app in Hall as [_ Hall]. inversion_clear Hall as [|? ? Hcne _].
    destruct c; done. }
  pose proof (last_concat _ _ _ Hes HE) as Hlast.
  destruct (ranges_chain_to _ _ _ _ Hranges) as (_ & E' & HE' & Hend).
  { intros Hnil. by rewrite Hnil in Hlast. }
  rewrite Hlast in HE'. injection HE' as <-.
  apply (ranges_chain_total _ _ 0) in Hranges;
    [|cbn; rewrite sum_list_lengths, Hlen; exact Htotal].
  cbn in Hranges. rewrite sum_list_lengths in Hranges.
  unfold finalize. rewrite Hedges, Hes. cbn. rewrite HE. cbn.
  rewrite Hs, Htemp. cbn [app].
  rewrite Hend, Hranges, N.eqb_refl. by eexists.
Qed.

Context `{PI : PathInterface}.

Lemma Refiner_ctor_edge_loop_is_Some edges :
  forall o e ende d b,
    Forall (fun edge =>
              wrap (N.of_nat (length (refiner_work_room (P.m_params d) edge))) <> 0%N)
      edges ->
    is_Some (Refiner_ctor_edge_loop o e ende edges d b).
Proof.
  induction edges as [|edge rest IH]; intros o e ende d b Hall; [by eexists|].
  inversion_clear Hall as [|? ? Hedge Hrest].
  cbn [Refiner_ctor_edge_loop]. unfold refiner_work_room, refiner_edge_calls in Hedge.
  destruct (PerEdge.m_interpolator edge) as [it|]; [|done]. cbn in Hedge |- *.
  destruct (PerEdge.m_tess_state edge) as [ts|].
  - destruct (resume_tessellation ts (P.m_params d)) as [[ts' calls] tmp]. cbn in Hedge.
    destruct (add_edge_is_Some
                (P.set_m_max_recursion (N.max (P.m_max_recursion d) (recursion_depth ts')) d)
                b o e (run_storage_calls calls []) tmp
                (uadd (N.of_nat e) 1 =? ende)%N Hedge) as [[d2 b2] Hadd].
    rewrite Hadd. cbn.
    apply add_edge_spec in Hadd as (_ & _ & Hp2 & _). cbn in Hp2.
    destruct (IH o (S e) ende
                (P.set_m_edges (alter (alter (set_edge_type (edge_type it)) e) o (P.m_edges d2)) d2)
                b2) as [[[d4 b4] rest'] ->]; [cbn; by rewrite Hp2|]. by eexists.
  - destruct (produce_tessellation it (P.m_params d)) as [[ts' calls] tmp]. cbn in Hedge.
    destruct (add_edge_is_Some d b o e (run_storage_calls calls []) tmp
                (uadd (N.of_nat e) 1 =? ende)%N Hedge) as [[d2 b2] Hadd].
    rewrite Hadd. cbn.
    apply add_edge_spec in Hadd as (_ & _ & Hp2 & _).
    destruct (IH o (S e) ende
                (P.set_m_edges (alter (alter (set_edge_type (edge_type it)) e) o (P.m_edges d2)) d2)
                b2) as [[[d4 b4] rest'] ->]; [cbn; by rewrite Hp2|]. by eexists.
Qed.

Lemma Refiner_ctor_contour_loop_is_Some contours :
  forall o d b,
    Forall (fun c =>
              PerContour.m_edges c <> []
              /\ Forall (fun edge =>
                           wrap (N.of_nat (length (refiner_work_room (P.m_params d) edge)))
                           <> 0%N) (PerContour.m_edges c)) contours ->
    is_Some (Refiner_ctor_contour_loop o contours d b).
Proof.
  induction contours as [|c rest IH]; intros o d b Hall; [by eexists|].
  inversion_clear Hall as [|? ? [Hne Hc] Hrest].
  cbn [Refiner_ctor_contour_loop].
  destruct (start_contour d b o _) as [d1 b1] eqn:Hstart.
  pose proof (start_contour_spec _ _ _ _ _ _ Hstart) as (_ & Hp1 & _).
  destruct (Refiner_ctor_edge_loop_is_Some (PerContour.m_edges c) o 0%nat
              (N.of_nat (length (PerContour.m_edges c))) d1 b1)
    as [[[d2 b2] edges'] Hedges]; [by rewrite Hp1|].
  rewrite Hedges. cbn.
  pose proof Hedges as (results & Hb & _ & Hres)%Refiner_ctor_edge_loop_build.
  pose proof (build_edges_params _ _ _ _ _ _ _ _ Hb) as Hp2.
  destruct (end_contour_is_Some b2) as [b3 Hend].
  { eapply build_edges_start_contour; [exact Hb|]. right. split; [done|].
    intros ->. apply Forall2_nil_inv_l in Hres. done. }
  rewrite Hend. cbn.
  destruct (IH (S o) d2 b3) as [[[d4 b4] rest'] ->]; [by rewrite Hp2, Hp1|].
  by eexists.
Qed.

Lemma retessellated_work_rooms params rs cs :
  Forall2 (fun r c => Forall2 (edge_retessellated params) r (PerContour.m_edges c)) rs cs ->
  concat (map res_work_room (concat rs)) = refiner_segments params cs.
Proof.
  unfold refiner_segments. induction 1 as [|r c rs cs Hrc _ IH]; [done|].
  cbn. rewrite map_app, concat_app, IH. f_equal.
  clear -Hrc. induction Hrc as [|x edge r es (calls & Hcalls & Hw) _ IH]; [done|].
  cbn. rewrite IH. f_equal. unfold refiner_work_room. by rewrite Hcalls.
Qed.

(** The constructor from a [Refiner] returns for a refinable refiner. *)
Lemma TessellatedPath_from_Refiner_is_Some ref_d max_distance additional :
  refinable (refiner_params ref_d max_distance additional)
    (RefinerPrivate.m_contours ref_d) ->
  is_Some (TessellatedPath_from_Refiner ref_d max_distance additional).
Proof.
  intros [Hall Htotal]. unfold TessellatedPath_from_Refiner.
  fold (refiner_params ref_d max_distance additional).
  destruct (RefinerPrivate.m_contours ref_d) as [|c cs] eqn:Hcs; [by eexists|].
  rewrite <- Hcs in *.
  set (params := refiner_params ref_d max_distance additional) in *.
  set (d := new_TessellatedPathPrivate _ params).
  assert (Hsmall : forall c0 edge,
             c0 ∈ RefinerPrivate.m_contours ref_d -> edge ∈ PerContour.m_edges c0 ->
             (N.of_nat (length (refiner_work_room params edge)) < uint_modulus)%N).
  { intros c0 edge Hc0 Hedge.
    apply list_elem_of_lookup_1 in Hc0 as [i Hi]. apply list_elem_of_lookup_1 in Hedge as [j Hj].
    assert (Hle : (length (refiner_work_room params edge)
                   <= length (refiner_segments params (RefinerPrivate.m_contours ref_d)))%nat).
    { unfold refiner_segments.
      etrans; [|eapply (lookup_concat_length _ i); rewrite lookup_map, Hi; reflexivity].
      eapply (lookup_concat_length _ j). by rewrite lookup_map, Hj. }
    lia. }
  destruct (Refiner_ctor_contour_loop_is_Some (RefinerPrivate.m_contours ref_d) 0%nat d
              new_TessellatedPathBuildingState) as [[[d1 b1] cs'] Hloop].
  { rewrite list.Forall_forall. intros c0 Hc0.
    rewrite list.Forall_forall in Hall. destruct (Hall c0 Hc0) as [Hne Hedges].
    split; [done|]. rewrite list.Forall_forall. intros edge Hedge.
    rewrite list.Forall_forall in Hedges.
    apply wrap_length_nonzero; [by apply Hedges|by eapply Hsmall]. }
  rewrite Hloop. cbn.
  apply Refiner_ctor_contour_loop_build in Hloop as (rs & Hb & _ & Hrs).
  cbn [P.m_params d new_TessellatedPathPrivate] in Hrs.
  assert (Hlen : length rs = length (RefinerPrivate.m_contours ref_d))
    by (by apply Forall2_length in Hrs).
  unfold d in Hb. rewrite <- Hlen in Hb.
  destruct (finalize_is_Some rs params d1 b1 Hb) as [tp ->].
  - intros ->. by rewrite Hcs in Hlen.
  - clear -Hrs Hall. induction Hrs as [|r c0 rs cs0 Hr _ IH]; [constructor|].
    inversion_clear Hall as [|? ? [Hne _] Hall']. constructor; [|by apply IH].
    intros ->. apply Forall2_nil_inv_l in Hr. done.
  - by rewrite (retessellated_work_rooms params rs _ Hrs).
  - by eexists.
Qed.
End success.

(** ** Contiguity, arcs, the empty path, refinement and derived geometry *)

Section tessellation.
Context `{FM : FloatMath} `{PI : PathInterface}.

Lemma edge_source_built tp o e calls l :
  edge_source tp o e calls ->
  edge_segment_data tp o e = Some l ->
  map geometry l = map geometry (run_storage_calls calls []).
Proof.
  intros [(input & TP & want & ref & contour & it & Hc & Ho & He & ->)
         |(ref_d & md & add & cs & c & edge & Hc & Ho & He & Hcalls)] Hl.
  - apply TessellatedPath_from_Path_spec in Hc as [(-> & _)|(_ & Hb & _)]; [done|].
    apply built_structure in Hb as (tss & Hst & _).
    destruct (structure_edge_built _ _ _ _ _ _ Hst Hl) as (c & r & Hc & Hr & (Hg & _) & _).
    unfold Path, PathContour in *.
    rewrite lookup_map, Ho in Hc. injection Hc as <-.
    rewrite lookup_map, He in Hr. injection Hr as <-.
    rewrite Hg. destruct (produce_tessellation it TP) as [[ts calls] tmp] eqn:Hprod.
    by rewrite (path_edge_result_eq _ _ _ _ _ Hprod).
  - apply TessellatedPath_from_Refiner_spec in Hc as (_ & _ & Hb).
    destruct Hb as (rs & Hb & Hrs); [intros Hnil; by rewrite Hnil in Ho|].
    apply built_structure in Hb as (tss & Hst & _).
    destruct (structure_edge_built _ _ _ _ _ _ Hst Hl) as (c0 & r & Hc0 & Hr & (Hg & _) & _).
    destruct (Forall2_lookup_l _ _ _ _ _ Hrs Hc0) as (c' & Hc' & Hrc).
    rewrite Ho in Hc'. injection Hc' as <-.
    destruct (Forall2_lookup_l _ _ _ _ _ Hrc Hr) as (edge' & Hedge' & (calls' & Hcalls' & Hw)).
    rewrite He in Hedge'. injection Hedge' as <-.
    rewrite Hcalls in Hcalls'. injection Hcalls' as <-. by rewrite Hg, Hw.
Qed.

(** C1, as amended: the segments of an edge of a tessellated path are
    positionally contiguous, the end point of each being the start point of
    the next, when the storage calls from which the edge was made follow one
    another (each call starts at the end point of the call before it) and
    the number of segments of each arc among them fits an [unsigned int].
    The segments then lead from the start point of the first call to the end
    point of the last one.  This covers both constructors, and the pieces
    into which [add_arc_segment] splits an arc. *)
Theorem edge_segments_contiguous tp o e calls p q l :
  edge_source tp o e calls ->
  calls_chained p calls q -> Forall call_fits calls ->
  edge_segment_data tp o e = Some l ->
  contiguous l /\ chain p l q.
Proof.
  intros Hsrc Hch Hfit Hl.
  pose proof (edge_source_built _ _ _ _ _ Hsrc Hl) as Hg.
  destruct (run_storage_calls_chain calls p q [] Hch Hfit) as (new & Hnew & Hchain).
  rewrite Hnew in Hg. cbn in Hg.
  assert (Hc : chain p l q) by (by eapply chain_map_geometry).
  split; [by eapply chain_contiguous|done].
Qed.

(** C2, as amended: a call of [add_arc_segment] whose numbers of segments
    fit an [unsigned int] appends arc segments to the storage, at least one.
    It cuts the arc at every critical angle, a multiple of [M_PI / 2] as a
    [float], that lies strictly inside the angle range: a segment begins at
    that angle and at the critical point of the circle, and is not marked as
    tangent with its predecessor.  When the rounding to [float] is a rounding
    to nearest with the relative error [u] and the absolute error [eta], an
    arc whose angle, as the code computes it, exceeds [max_arc], the [float]
    of [M_PI / 4], gives at least two segments, and every segment spans at
    most [max_arc] and what the three roundings add to it ([span_bound]);
    with exact arithmetic, where [u] and [eta] are zero, that is [max_arc]
    itself. *)
Theorem add_arc_segment_split start end_ center radius arc_angle d :
  arc_pieces_fit arc_angle ->
  exists new,
    add_arc_segment start end_ center radius arc_angle d = d ++ new
    /\ (1 <= length new)%nat
    /\ Forall (fun S0 => m_type S0 = arc_segment) new
    /\ (forall K crit,
          crit_angles !! K = Some crit -> strictly_inside arc_angle crit ->
          exists S0, S0 ∈ new /\ starts_at_cut center radius K S0)
    /\ (forall u eta,
          rounds_to_nearest u eta -> 0 <= u -> u < 1 -> 0 <= eta -> 0 < max_arc ->
          (max_arc < Qabs (to_float (m_end arc_angle - m_begin arc_angle)) ->
           (2 <= length new)%nat)
          /\ Forall (fun S0 => arc_span S0 <= span_bound u eta S0) new).
Proof.
  intros Hfit.
  destruct (add_arc_segment_spec start end_ center radius arc_angle d Hfit)
    as (new & Heq & Hall & Hsteps & _ & H1 & Hcnt & _ & _ & Hcut).
  exists new. split; [done|]. split; [done|]. split.
  { eapply List.Forall_impl; [|exact Hall]. by intros S0 [Ht _]. }
  split; [done|]. intros u eta Hr Hu0 Hu1 Heta Hm. split.
  - intros Hgt. destruct Hcnt as [Hcnt|Hcnt]; [|done].
    assert (Hwhole : arc_count_fits arc_angle).
    { destruct arc_angle as [b e].
      apply (arc_pieces_fit_piece (mk_range b e)); [done|by left|right; by left]. }
    destruct Hr as (Hmono & _ & Hone & _).
    pose proof (arc_count_ge_2 arc_angle Hmono Hone Hm Hwhole Hgt). lia.
  - eapply List.Forall_impl; [|exact Hsteps].
    intros S0 HS0. by apply span_bound_step.
Qed.

(** C8: the constructor from a [Path] without contours returns, with no
    assertion failing, a tessellated path that has no contours and no
    segments; no refiner is written. *)
Theorem zero_contours_empty TP want_ref :
  exists tp,
    TessellatedPath_from_Path [] TP want_ref = Some (tp, None)
    /\ number_contours tp = 0%nat
    /\ segment_data tp = []
    /\ P.m_edges tp = [].
Proof. eexists. split; [reflexivity|]. done. Qed.

(** The path that a refiner holds has the contours and edges of the
    refiner. *)
Lemma reachable_shape r :
  refiner_reachable r ->
  path_shape (RefinerPrivate.m_path r) = refiner_shape (RefinerPrivate.m_contours r).
Proof.
  induction 1 as [input TP tp r Hc|r md add r' Hr IH Href].
  - apply TessellatedPath_from_Path_spec in Hc as [(_ & _ & ?)|(_ & Hb & Href & _)]; [done|].
    destruct (Href eq_refl) as (r0 & [= <-] & <- & ->).
    rewrite (built_shape _ _ _ Hb), map_map. apply map_ext. intros c. by rewrite length_map.
  - unfold refine_tessellation in Href.
    destruct (Qltb md _); [|by injection Href as <-].
    destruct (TessellatedPath_from_Refiner r md add) as [[p cs]|] eqn:Hc; [|done].
    cbn in Href. injection Href as <-.
    apply TessellatedPath_from_Refiner_spec in Hc as (Hcs & Hp & _).
    change (path_shape p = refiner_shape cs). by rewrite Hcs, Hp.
Qed.

Lemma number_edges_shape tp o : number_edges tp o = path_shape tp !! o.
Proof. unfold number_edges, path_shape. by rewrite lookup_map. Qed.

(** C7: for a refiner made by the constructor from a [Path], or by earlier
    calls of [refine_tessellation]: when the requested distance is not less
    than the [max_distance()] of the held path, the refiner, and the path it
    holds, are left as they are.  Otherwise the new refiner holds the path
    that the constructor from a [Refiner] builds; it has as many contours
    and as many edges in each contour as the path held before; and the
    segments of each edge have the geometry of the storage calls of that
    edge, which are those of [resume_tessellation] of the saved state when
    the edge has one.  The new path is built, no assertion failing, when
    the refiner is [refinable] for the new parameters. *)
Theorem refine_tessellation_spec r md add :
  refiner_reachable r ->
  (Qltb md (max_distance (RefinerPrivate.m_path r)) = false ->
   refine_tessellation r md add = Some r)
  /\ (Qltb md (max_distance (RefinerPrivate.m_path r)) = true ->
      forall r',
        refine_tessellation r md add = Some r' ->
        TessellatedPath_from_Refiner r md add
        = Some (RefinerPrivate.m_path r', RefinerPrivate.m_contours r')
        /\ number_contours (RefinerPrivate.m_path r')
           = number_contours (RefinerPrivate.m_path r)
        /\ (forall o, number_edges (RefinerPrivate.m_path r') o
                      = number_edges (RefinerPrivate.m_path r) o)
        /\ (forall o e c edge l,
              RefinerPrivate.m_contours r !! o = Some c ->
              PerContour.m_edges c !! e = Some edge ->
              edge_segment_data (RefinerPrivate.m_path r') o e = Some l ->
              exists calls,
                refiner_edge_calls (refiner_params r md add) edge = Some calls
                /\ map geometry l = map geometry (run_storage_calls calls [])
                /\ forall ts,
                     PerEdge.m_tess_state edge = Some ts ->
                     calls = snd (fst (resume_tessellation ts (refiner_params r md add)))))
  /\ (Qltb md (max_distance (RefinerPrivate.m_path r)) = true ->
      refinable (refiner_params r md add) (RefinerPrivate.m_contours r) ->
      is_Some (refine_tessellation r md add)).
Proof.
  intros Hr. unfold refine_tessellation, max_distance. split; [|split]; cycle 2.
  { intros -> Hok.
    destruct (TessellatedPath_from_Refiner_is_Some r md add Hok) as [[p cs] ->].
    by eexists. }
  { by intros ->. }
  intros -> r' Href.
  destruct (TessellatedPath_from_Refiner r md add) as [[p cs]|] eqn:Hc; [|done].
  cbn in Href. injection Href as <-. cbn. split; [done|].
  pose proof (reachable_shape r Hr) as Hshape.
  pose proof Hc as (_ & Hp & Hb)%TessellatedPath_from_Refiner_spec.
  assert (Hps : path_shape p = path_shape (RefinerPrivate.m_path r)) by congruence.
  split; [|split].
  - unfold number_contours. apply (f_equal length) in Hps.
    unfold path_shape in Hps. by rewrite !length_map in Hps.
  - intros o. by rewrite !number_edges_shape, Hps.
  - intros o e c edge l Ho He Hl.
    destruct Hb as (rs & Hb & Hrs); [intros Hnil; by rewrite Hnil in Ho|].
    apply built_structure in Hb as (tss & Hst & _).
    destruct (structure_edge_built _ _ _ _ _ _ Hst Hl) as (c0 & r0 & Hc0 & Hr0 & (Hg & _) & _).
    destruct (Forall2_lookup_l _ _ _ _ _ Hrs Hc0) as (c' & Hc' & Hrc).
    rewrite Ho in Hc'. injection Hc' as <-.
    destruct (Forall2_lookup_l _ _ _ _ _ Hrc Hr0) as (edge' & Hedge' & (calls & Hcalls & Hw)).
    rewrite He in Hedge'. injection Hedge' as <-.
    exists calls. split; [done|]. split; [by rewrite Hg, Hw|].
    intros ts Hts. unfold refiner_edge_calls in Hcalls.
    destruct (PerEdge.m_interpolator edge); [|done]. cbn in Hcalls.
    rewrite Hts in Hcalls. by injection Hcalls as <-.
Qed.
End tessellation.

(** C9, as amended: [stroked()] returns an object; when none was cached it
    is a new [StrokedPath], and every later call returns the same object
    and creates nothing.  The same holds for [filled()] and the
    [FilledPath] when the path has no arcs.  When the path has arcs and no
    [FilledPath] is cached, [filled()] returns the null reference and
    creates nothing. *)
Theorem stroked_filled_cached (d : P.t) (heap : list derived_object) :
  (exists a d1 heap1,
     stroked d heap = (Some a, d1, heap1)
     /\ (P.m_stroked d = None ->
         a = length heap /\ heap1 = heap ++ [StrokedPath_object])
     /\ (forall b, P.m_stroked d = Some b -> a = b /\ d1 = d /\ heap1 = heap)
     /\ forall heap2, stroked d1 heap2 = (Some a, d1, heap2))
  /\ (P.m_has_arcs d = false ->
      exists a d1 heap1,
        filled d heap = (Some a, d1, heap1)
        /\ (P.m_filled d = None ->
            a = length heap /\ heap1 = heap ++ [FilledPath_object])
        /\ (forall b, P.m_filled d = Some b -> a = b /\ d1 = d /\ heap1 = heap)
        /\ forall heap2, filled d1 heap2 = (Some a, d1, heap2))
  /\ (P.m_has_arcs d = true -> P.m_filled d = None ->
      filled d heap = (None, d, heap)).
Proof.
  split; [|split].
  - unfold stroked. destruct (P.m_stroked d) as [b|] eqn:Hs.
    + exists b, d, heap. split; [done|]. split; [done|]. split.
      * by intros ? [= <-].
      * intros heap2. by rewrite Hs.
    + eexists _, _, _. split; [done|]. split; [done|]. split; [done|].
      intros heap2. done.
  - intros Harcs. unfold filled. destruct (P.m_filled d) as [b|] eqn:Hs.
    + exists b, d, heap. split; [done|]. split; [done|]. split.
      * by intros ? [= <-].
      * intros heap2. by rewrite Hs.
    + rewrite Harcs. cbn. eexists _, _, _. split; [done|]. split; [done|].
      split; [done|]. intros heap2. done.
  - intros Harcs Hf. unfold filled. by rewrite Hf, Harcs.
Qed.

(** ** The properties on the examples *)

(** The example paths are results of the constructors. *)
Lemma example_two_contours_constructed :
  TessellatedPath_from_Path (H := example_math) (H0 := example_interface)
    example_two_contours example_params true
  = Some (example_two_contours_tp, Some example_two_contours_refiner).
Proof. vm_compute. reflexivity. Qed.

Lemma example_refined_constructed :
  TessellatedPath_from_Refiner (H := example_math) (H0 := example_interface)
    example_two_contours_refiner (1 # 2) 1
  = Some (RefinerPrivate.m_path example_refined,
          RefinerPrivate.m_contours example_refined).
Proof. vm_compute. reflexivity. Qed.

Lemma example_broken_constructed :
  exists ref,
    TessellatedPath_from_Path (H := example_math) (H0 := example_interface)
      example_broken_path example_params true
    = Some (example_broken_tp, ref).
Proof. eexists. vm_compute. reflexivity. Qed.

Lemma example_arc_constructed :
  exists ref,
    TessellatedPath_from_Path (H := example_math) (H0 := example_interface)
      example_arc_path example_params true
    = Some (example_arc_tp, ref).
Proof. eexists. vm_compute. reflexivity. Qed.

(** The curved edge of the second example: two segments that meet. *)
Lemma edge_segments_contiguous_witness :
  exists l,
    edge_segment_data example_two_contours_tp 1 1 = Some l
    /\ length l = 2%nat
    /\ contiguous l
    /\ chain (mk_vec2 3 0) l (mk_vec2 2 1).
Proof.
  eexists. split; [vm_compute; reflexivity|]. split; [reflexivity|].
  apply (edge_segments_contiguous (FM := example_math) (PI := example_interface)
           example_two_contours_tp 1 1
           [ call_add_line_segment (mk_vec2 3 0) (mk_vec2 3 1);
             call_add_line_segment (mk_vec2 3 1) (mk_vec2 2 1) ]).
  - left.
    exists example_two_contours, example_params, true, (Some example_two_contours_refiner),
      [ example_flat (mk_vec2 2 0) (mk_vec2 3 0);
        example_curve (mk_vec2 3 0) (mk_vec2 3 1) (mk_vec2 2 1);
        example_flat (mk_vec2 2 1) (mk_vec2 2 0) ],
      (example_curve (mk_vec2 3 0) (mk_vec2 3 1) (mk_vec2 2 1)).
    repeat split; vm_compute; reflexivity.
  - vm_compute. repeat split; reflexivity.
  - repeat constructor.
  - vm_compute. reflexivity.
Defined.

(** C1 as stated fails: the first edge of the tessellated path of
    [example_broken_path] has a segment that ends at (1, 0) followed by one
    that starts at (5, 5); [add_line_segment] stores what the interpolator
    passes. *)
Lemma broken_edge_not_contiguous :
  constructed (H := example_math) (H0 := example_interface) example_broken_tp
  /\ exists l S0 T0,
       edge_segment_data example_broken_tp 0 0 = Some l
       /\ l !! 0%nat = Some S0 /\ l !! 1%nat = Some T0
       /\ m_end_pt S0 = mk_vec2 1 0 /\ m_start_pt T0 = mk_vec2 5 5
       /\ ~ contiguous l.
Proof.
  split.
  { left. destruct example_broken_constructed as [ref Href].
    by exists example_broken_path, example_params, true, ref. }
  eexists _, _, _. split; [vm_compute; reflexivity|].
  split; [reflexivity|]. split; [reflexivity|].
  split; [reflexivity|]. split; [reflexivity|].
  intros Hc. specialize (Hc 0%nat _ _ eq_refl eq_refl). discriminate Hc.
Qed.

(** In the arithmetic of the code the numbers of segments of the parts of
    an arc fit when that of the whole arc does. *)
Lemma binary32_pieces_fit rng :
  arc_count_fits (H := binary32_math) rng -> arc_pieces_fit (H := binary32_math) rng.
Proof.
  apply (arc_pieces_fit_whole (FM := binary32_math));
    [exact binary32_le|intros x; apply round_to_opp].
Qed.

(** A half circle with exact arithmetic and 355/113 for [M_PI], cut at
    half of it; and the full circle in the arithmetic of the code, cut at
    the [float] nearest to pi. *)
Lemma add_arc_segment_split_witness :
  (exists new,
     add_arc_segment (H := example_math) (mk_vec2 1 0) (mk_vec2 (-1) 0) (mk_vec2 0 0) 1
       (mk_range 0 (355 # 113)) []
     = [] ++ new
     /\ (1 <= length new)%nat
     /\ Forall (fun S0 => m_type S0 = arc_segment) new
     /\ (exists S0, S0 ∈ new
                    /\ starts_at_cut (H := example_math) (mk_vec2 0 0) 1 2 S0)
     /\ (2 <= length new)%nat
     /\ Forall (fun S0 => arc_span S0 <= span_bound (H := example_math) 0 0 S0) new)
  /\ (exists new,
        add_arc_segment (H := binary32_math) (mk_vec2 1 0) (mk_vec2 1 0) (mk_vec2 0 0) 1
          example_full_circle []
        = [] ++ new
        /\ (1 <= length new)%nat
        /\ Forall (fun S0 => m_type S0 = arc_segment) new
        /\ (exists S0, S0 ∈ new
                       /\ starts_at_cut (H := binary32_math) (mk_vec2 0 0) 1 3 S0)
        /\ (2 <= length new)%nat
        /\ Forall (fun S0 =>
                     arc_span S0
                     <= span_bound (H := binary32_math) (2 ^ (-24)) (2 ^ (-150)) S0)
             new).
Proof.
  split.
  - destruct (add_arc_segment_split (FM := example_math) (mk_vec2 1 0) (mk_vec2 (-1) 0)
                (mk_vec2 0 0) 1 (mk_range 0 (355 # 113)) [])
      as (new & Heq & H1 & Hty & Hcut & Hround).
    { vm_compute. reflexivity. }
    destruct (Hround 0 0 example_rounds_to_nearest) as [H2 Hspan];
      [vm_compute; discriminate|reflexivity|vm_compute; discriminate
      |vm_compute; reflexivity|].
    exists new. split; [exact Heq|]. split; [exact H1|]. split; [exact Hty|].
    split; [|split].
    + apply (Hcut 2%nat ((1 # 2) * (355 # 113))); [reflexivity|].
      left. split; vm_compute; reflexivity.
    + apply H2. vm_compute. reflexivity.
    + exact Hspan.
  - destruct (add_arc_segment_split (FM := binary32_math) (mk_vec2 1 0) (mk_vec2 1 0)
                (mk_vec2 0 0) 1 example_full_circle [])
      as (new & Heq & H1 & Hty & Hcut & Hround).
    { vm_compute. reflexivity. }
    destruct (Hround (2 ^ (-24)) (2 ^ (-150)) binary32_rounds_to_nearest)
      as [H2 Hspan];
      [vm_compute; discriminate|vm_compute; reflexivity|vm_compute; discriminate
      |vm_compute; reflexivity|].
    exists new. split; [exact Heq|]. split; [exact H1|]. split; [exact Hty|].
    split; [|split].
    + apply (Hcut 3%nat (13176795 # 4194304)); [vm_compute; reflexivity|].
      left. split; vm_compute; reflexivity.
    + apply H2. vm_compute. reflexivity.
    + exact Hspan.
Defined.

(** C2 as stated fails in the arithmetic of the code: of the full circle
    the part from the [float] of [M_PI] to the [float] of [1.5 * M_PI] gets
    two segments, and the first of them, the seventh of the arc, ranges from
    3.14159274 to 3.92699099: it spans 0.78539824, more than [max_arc],
    0.78539819, more than a quarter of [M_PI] and more than a quarter of
    3.1415927, a number above pi. *)
Lemma full_circle_span_exceeds :
  arc_pieces_fit (H := binary32_math) example_full_circle
  /\ exists S0,
       add_arc_segment (H := binary32_math) (mk_vec2 1 0) (mk_vec2 1 0) (mk_vec2 0 0) 1
         example_full_circle [] !! 6%nat = Some S0
       /\ m_type S0 = arc_segment
       /\ m_arc_angle S0 = mk_range (13176795 # 4194304) (8235497 # 2097152)
       /\ max_arc (H := binary32_math) < arc_span S0
       /\ M_PI (FloatMath := binary32_math) / 4 < arc_span S0
       /\ (31415927 # 10000000) / 4 < arc_span S0.
Proof.
  split; [vm_compute; reflexivity|].
  eexists. split; [vm_compute; reflexivity|].
  split; [reflexivity|]. split; [reflexivity|].
  split; [|split]; vm_compute; reflexivity.
Qed.

(** The curved edge and the second contour of the second example. *)
Lemma cumulative_distances_witness :
  (exists l,
     edge_segment_data example_two_contours_tp 1 1 = Some l
     /\ length l = 2%nat
     /\ (forall S0, l !! 0%nat = Some S0 -> m_distance_from_edge_start S0 = 0)
     /\ (forall i S0 T0,
           l !! i = Some S0 -> l !! (i + 1)%nat = Some T0 ->
           m_distance_from_edge_start T0
           = m_distance_from_edge_start S0 + m_length S0)
     /\ (forall L S0,
           list.last l = Some L -> S0 ∈ l ->
           m_edge_length S0 = m_distance_from_edge_start L + m_length L))
  /\ (exists l,
        contour_segment_data example_two_contours_tp 1 = Some l
        /\ length l = 4%nat
        /\ forall S0, S0 ∈ l -> m_closed_contour_length S0 = sum_lengths 0 l).
Proof.
  assert (Hc : constructed (H := example_math) (H0 := example_interface)
                 example_two_contours_tp).
  { left. exists example_two_contours, example_params, true,
      (Some example_two_contours_refiner). vm_compute. reflexivity. }
  destruct (cumulative_distances (FM := example_math) (PI := example_interface)
              example_two_contours_tp Hc) as [Hedge Hcontour].
  split.
  - eexists. split; [vm_compute; reflexivity|]. split; [reflexivity|].
    apply (Hedge 1%nat 1%nat). vm_compute. reflexivity.
  - eexists. split; [vm_compute; reflexivity|]. split; [reflexivity|].
    apply (Hcontour ltac:(repeat constructor; discriminate) 1%nat).
    vm_compute. reflexivity.
Defined.

(** The refiner of the second example, whose path has [max_distance()] 1:
    asked for 2 it stays as it is, asked for 1/2 it builds a new path. *)
Lemma refine_tessellation_spec_witness :
  refine_tessellation (H := example_math) (H0 := example_interface)
    example_two_contours_refiner 2 1
  = Some example_two_contours_refiner
  /\ TessellatedPath_from_Refiner (H := example_math) (H0 := example_interface)
       example_two_contours_refiner (1 # 2) 1
     = Some (RefinerPrivate.m_path example_refined,
             RefinerPrivate.m_contours example_refined)
  /\ number_contours (RefinerPrivate.m_path example_refined)
     = number_contours (RefinerPrivate.m_path example_two_contours_refiner)
  /\ (forall o, number_edges (RefinerPrivate.m_path example_refined) o
                = number_edges (RefinerPrivate.m_path example_two_contours_refiner) o)
  /\ is_Some (refine_tessellation (H := example_math) (H0 := example_interface)
                example_two_contours_refiner (1 # 2) 1).
Proof.
  assert (Hr : refiner_reachable (H := example_math) (H0 := example_interface)
                 example_two_contours_refiner).
  { apply (@reachable_new example_math example_interface example_two_contours
             example_params example_two_contours_tp).
    vm_compute. reflexivity. }
  split.
  - apply (proj1 (refine_tessellation_spec (FM := example_math) (PI := example_interface)
                    example_two_contours_refiner 2 1 Hr)).
    vm_compute. reflexivity.
  - destruct (proj1 (proj2 (refine_tessellation_spec (FM := example_math)
                       (PI := example_interface)
                       example_two_contours_refiner (1 # 2) 1 Hr))
                ltac:(vm_compute; reflexivity) example_refined
                ltac:(vm_compute; reflexivity)) as (H1 & H2 & H3 & _).
    split; [exact H1|]. split; [exact H2|]. split; [exact H3|].
    apply (proj2 (proj2 (refine_tessellation_spec (FM := example_math)
                           (PI := example_interface)
                           example_two_contours_refiner (1 # 2) 1 Hr)));
      [vm_compute; reflexivity|].
    split; [|vm_compute; reflexivity].
    repeat (apply List.Forall_cons;
            [split; [discriminate
                    |repeat (apply List.Forall_cons; [vm_compute; discriminate|]);
                     apply List.Forall_nil]|]).
    apply List.Forall_nil.
Defined.

(** The square, which has no arcs, and the path with an arc. *)
Lemma stroked_filled_cached_witness :
  (exists d1,
     stroked example_square_tp [] = (Some 0%nat, d1, [StrokedPath_object])
     /\ forall heap2, stroked d1 heap2 = (Some 0%nat, d1, heap2))
  /\ (exists d1,
        filled example_square_tp [] = (Some 0%nat, d1, [FilledPath_object])
        /\ forall heap2, filled d1 heap2 = (Some 0%nat, d1, heap2))
  /\ filled example_arc_tp [] = (None, example_arc_tp, []).
Proof.
  destruct (stroked_filled_cached example_square_tp []) as (Hs & Hf & _).
  destruct (stroked_filled_cached example_arc_tp []) as (_ & _ & Ha).
  split; [|split].
  - destruct Hs as (a & d1 & heap1 & Heq & Hnew & _ & Hagain).
    destruct (Hnew ltac:(reflexivity)) as [-> ->]. by exists d1.
  - destruct (Hf ltac:(reflexivity)) as (a & d1 & heap1 & Heq & Hnew & _ & Hagain).
    destruct (Hnew ltac:(reflexivity)) as [-> ->]. by exists d1.
  - apply Ha; reflexivity.
Defined.

(** C9 as stated fails for [filled()]: the tessellated path of
    [example_arc_path] has arcs, and every call of [filled()] on it returns
    the null reference and constructs nothing. *)
Lemma filled_null_with_arcs :
  constructed (H := example_math) (H0 := example_interface) example_arc_tp
  /\ P.m_filled example_arc_tp = None
  /\ forall heap,
       filled example_arc_tp heap = (None, example_arc_tp, heap)
       /\ forall heap2, fst (fst (filled (snd (fst (filled example_arc_tp heap))) heap2)) = None.
Proof.
  split.
  { left. destruct example_arc_constructed as [ref Href].
    by exists example_arc_path, example_params, true, ref. }
  split; [reflexivity|]. intros heap. split; reflexivity.
Qed.

(** The seven edges of the second example. *)
Lemma edge_ranges_partition_witness :
  (exists r, edge_range example_two_contours_tp 0 0 = Some r /\ m_begin r = 0%N)
  /\ (exists r1 r2,
        edge_range example_two_contours_tp 1 1 = Some r1
        /\ edge_range example_two_contours_tp 1 2 = Some r2
        /\ m_begin r2 = m_end r1)
  /\ (exists r1 r2,
        edge_range example_two_contours_tp 0 3 = Some r1
        /\ edge_range example_two_contours_tp 1 0 = Some r2
        /\ m_begin r2 = m_end r1)
  /\ (exists r,
        edge_range example_two_contours_tp 1 2 = Some r
        /\ m_end r = N.of_nat (length (segment_data example_two_contours_tp))).
Proof.
  assert (Hc : constructed (H := example_math) (H0 := example_interface)
                 example_two_contours_tp).
  { left. exists example_two_contours, example_params, true,
      (Some example_two_contours_refiner). vm_compute. reflexivity. }
  destruct (edge_ranges_partition (FM := example_math) (PI := example_interface)
              example_two_contours_tp Hc) as (H1 & H2 & H3 & H4).
  split; [|split; [|split]].
  - eexists. split; [reflexivity|]. apply H1. reflexivity.
  - eexists _, _. split; [reflexivity|]. split; [reflexivity|].
    apply (H2 1%nat 1%nat); reflexivity.
  - eexists _, _. split; [reflexivity|]. split; [reflexivity|].
    apply (H3 0%nat 3%nat); reflexivity.
  - eexists. split; [reflexivity|]. apply (H4 1%nat 2%nat); reflexivity.
Defined.

(** ** What the loops accumulate: arcs, maxima and recursion depths *)

(** The folds by which the loops over the edges accumulate [m_max_segments],
    [m_max_distance] and [m_max_recursion]. *)
Lemma fold_Nmax_bounds {A} (f : A -> N) (l : list A) (init : N) :
  (init <= fold_left (fun acc x => N.max acc (f x)) l init)%N
  /\ Forall (fun x => (f x <= fold_left (fun acc x => N.max acc (f x)) l init)%N) l
  /\ (fold_left (fun acc x => N.max acc (f x)) l init = init
      \/ exists x, x ∈ l /\ fold_left (fun acc x => N.max acc (f x)) l init = f x).
Proof.
  revert init. induction l as [|x l IH]; intros init; cbn.
  - split; [lia|]. split; [constructor|by left].
  - destruct (IH (N.max init (f x))) as (H1 & H2 & H3).
    split; [lia|]. split; [constructor; [lia|done]|].
    destruct H3 as [H3|(y & Hy & H3)].
    + rewrite H3. destruct (N.max_spec init (f x)) as [[_ ->]|[_ ->]].
      * right. exists x. split; [apply list_elem_of_here|done].
      * by left.
    + right. exists y. split; [by apply list_elem_of_further|done].
Qed.

Lemma Qmax_cases (a b : Q) : (Qmax a b = a \/ Qmax a b = b) /\ a <= Qmax a b /\ b <= Qmax a b.
Proof.
  split; [|split; [apply Q.le_max_l|apply Q.le_max_r]].
  unfold Qmax, GenericMinMax.gmax. destruct (a ?= b); auto.
Qed.

Lemma fold_Qmax_bounds {A} (f : A -> Q) (l : list A) (init : Q) :
  init <= fold_left (fun acc x => Qmax acc (f x)) l init
  /\ Forall (fun x => f x <= fold_left (fun acc x => Qmax acc (f x)) l init) l
  /\ (fold_left (fun acc x => Qmax acc (f x)) l init = init
      \/ exists x, x ∈ l /\ fold_left (fun acc x => Qmax acc (f x)) l init = f x).
Proof.
  revert init. induction l as [|x l IH]; intros init; cbn.
  - split; [apply Qle_refl|]. split; [constructor|by left].
  - destruct (IH (Qmax init (f x))) as (H1 & H2 & H3).
    destruct (Qmax_cases init (f x)) as (Hc & Hl & Hr).
    split; [by eapply Qle_trans|]. split; [constructor; [by eapply Qle_trans|done]|].
    destruct H3 as [H3|(y & Hy & H3)].
    + rewrite H3. destruct Hc as [->| ->].
      * by left.
      * right. exists x. split; [apply list_elem_of_here|done].
    + right. exists y. split; [by apply list_elem_of_further|done].
Qed.

Lemma fold_recursion_bounds (l : list edge_result) (init : N) :
  (init <= fold_left recursion_step l init)%N
  /\ Forall (fun r => forall depth, res_recursion r = Some depth ->
                      (depth <= fold_left recursion_step l init)%N) l.
Proof.
  revert init. induction l as [|x l IH]; intros init; cbn.
  - split; [lia|constructor].
  - destruct (IH (recursion_step init x)) as (H1 & H2).
    assert (Hi : (init <= recursion_step init x)%N).
    { unfold recursion_step. destruct (res_recursion x); lia. }
    split; [lia|]. constructor; [|done].
    intros depth Hd. unfold recursion_step in H1 at 1. rewrite Hd in H1. lia.
Qed.

Section summary.
Context `{FM : FloatMath}.

Lemma add_edge_loop_has_arcs closing work :
  forall prev acc work1 acc1,
    add_edge_loop closing prev work acc = (work1, acc1) ->
    acc_has_arcs acc1 = acc_has_arcs acc || existsb is_arc_segment work.
Proof.
  induction work as [|S0 work IH]; intros prev acc work1 acc1; simpl.
  - intros [= <- <-]. by rewrite orb_false_r.
  - destruct (add_edge_loop _ _ work _) as [rest' acc'] eqn:Hrec.
    intros [= <- <-]. apply IH in Hrec. rewrite Hrec. cbn.
    by rewrite orb_assoc.
Qed.

Lemma summary_of_app rs1 rs2 d d1 d2 :
  summary_of rs1 d d1 -> summary_of rs2 d1 d2 -> summary_of (rs1 ++ rs2) d d2.
Proof.
  intros (A1 & A2 & A3 & A4 & A5 & A6) (B1 & B2 & B3 & B4 & B5 & B6).
  unfold summary_of. rewrite map_app, concat_app, existsb_app, !fold_left_app.
  rewrite B1, B2, B3, B4, B5, B6, A1, A2, A3, A4, A5, A6.
  by rewrite orb_assoc.
Qed.

Lemma add_edge_summary d b o e r d' b' closing :
  add_edge
    (match res_recursion r with
     | Some depth => P.set_m_max_recursion (N.max (P.m_max_recursion d) depth) d
     | None => d
     end) b o e (res_work_room r) (res_max_distance r) closing = Some (d', b') ->
  summary_of [r] d d'.
Proof.
  unfold add_edge.
  destruct (wrap (N.of_nat (length (res_work_room r))) =? 0)%N; [done|].
  destruct (add_edge_loop _ _ _ _) as [work1 acc] eqn:Hloop.
  apply add_edge_loop_has_arcs in Hloop. cbn in Hloop.
  intros [= <- <-]. unfold summary_of, recursion_step. cbn.
  rewrite app_nil_r. destruct (res_recursion r); cbn in *; by rewrite Hloop.
Qed.

Lemma build_edges_summary o ende results :
  forall e d b d' b',
    build_edges o e ende results d b = Some (d', b') -> summary_of results d d'.
Proof.
  induction results as [|r rest IH]; intros e d b d' b' Hb.
  - cbn in Hb. injection Hb as <- <-. unfold summary_of. cbn.
    by rewrite orb_false_r.
  - cbn [build_edges] in Hb.
    destruct (add_edge _ b o e _ _ _) as [[d2 b2]|] eqn:Hadd; [|done]. cbn in Hb.
    apply add_edge_summary in Hadd. apply IH in Hb.
    apply (summary_of_app [r] rest d d2 d'); [done|].
    destruct Hb as (B1 & B2 & B3 & B4 & B5 & B6). done.
Qed.

Lemma build_contours_summary contours :
  forall o d b d' b',
    build_contours o contours d b = Some (d', b') -> summary_of (concat contours) d d'.
Proof.
  induction contours as [|c rest IH]; intros o d b d' b' Hb.
  - cbn in Hb. injection Hb as <- <-. unfold summary_of. cbn.
    by rewrite orb_false_r.
  - cbn [build_contours] in Hb.
    destruct (start_contour d b o _) as [d1 b1] eqn:Hstart.
    unfold start_contour in Hstart. injection Hstart as <- <-.
    destruct (build_edges o 0 _ c _ _) as [[d2 b2]|] eqn:Hedges; [|done]. cbn in Hb.
    destruct (end_contour b2) as [b3|]; [|done]. cbn in Hb.
    apply build_edges_summary in Hedges. apply IH in Hb. cbn [concat].
    eapply summary_of_app; [|exact Hb].
    destruct Hedges as (B1 & B2 & B3 & B4 & B5 & B6). done.
Qed.

Lemma built_summary rs TP tp :
  built_from rs TP tp ->
  summary_of (concat rs) (new_TessellatedPathPrivate (N.of_nat (length rs)) TP) tp.
Proof.
  intros (d' & b' & Hb & Hfin). apply build_contours_summary in Hb.
  apply finalize_spec in Hfin as (_ & _ & _ & _ & _ & ->).
  destruct Hb as (B1 & B2 & B3 & B4 & B5 & B6). done.
Qed.
End summary.

(** ** The results of the edges and the reported maxima *)

Section results.
Context `{FM : FloatMath} `{PI : PathInterface}.

Lemma Refiner_ctor_edge_loop_results edges :
  forall o e ende d b d' b' edges',
    Refiner_ctor_edge_loop o e ende edges d b = Some (d', b', edges') ->
    exists results,
      build_edges o e ende results d b = Some (d', b')
      /\ Forall2 (fun r edge => refiner_edge_result (P.m_params d) edge = Some r)
           results edges.
Proof.
  induction edges as [|edge rest IH]; intros o e ende d b d' b' edges' Hl.
  - cbn in Hl. injection Hl as <- <- <-. exists []. split; [done|constructor].
  - cbn [Refiner_ctor_edge_loop] in Hl.
    destruct (PerEdge.m_interpolator edge) as [it|] eqn:Hit; [|done]. cbn in Hl.
    destruct (PerEdge.m_tess_state edge) as [ts|] eqn:Hts.
    + destruct (resume_tessellation ts (P.m_params d)) as [[ts' calls] tmp] eqn:Hres.
      destruct (add_edge _ b o e _ tmp _) as [[d2 b2]|] eqn:Hadd; [|done]. cbn in Hl.
      destruct (Refiner_ctor_edge_loop o (S e) ende rest _ b2)
        as [[[d4 b4] rest']|] eqn:Hrec; [|done].
      cbn in Hl. injection Hl as <- <- <-.
      pose proof (add_edge_spec _ _ _ _ _ _ _ _ _ Hadd) as (_ & _ & Hp2 & _).
      apply IH in Hrec as (results & Hb & Hall).
      cbn [P.m_params P.set_m_edges P.set_m_max_recursion] in Hall, Hp2.
      exists (mk_edge_result (run_storage_calls calls []) tmp (edge_type it)
                (Some (recursion_depth ts')) :: results).
      split.
      * cbn [build_edges res_recursion res_work_room res_max_distance res_edge_type].
        rewrite Hadd. cbn. exact Hb.
      * constructor; [|by rewrite Hp2 in Hall].
        unfold refiner_edge_result. rewrite Hit, Hts. cbn. by rewrite Hres.
    + destruct (produce_tessellation it (P.m_params d)) as [[ts' calls] tmp] eqn:Hres.
      destruct (add_edge _ b o e _ tmp _) as [[d2 b2]|] eqn:Hadd; [|done]. cbn in Hl.
      destruct (Refiner_ctor_edge_loop o (S e) ende rest _ b2)
        as [[[d4 b4] rest']|] eqn:Hrec; [|done].
      cbn in Hl. injection Hl as <- <- <-.
      pose proof (add_edge_spec _ _ _ _ _ _ _ _ _ Hadd) as (_ & _ & Hp2 & _).
      apply IH in Hrec as (results & Hb & Hall).
      cbn [P.m_params P.set_m_edges P.set_m_max_recursion] in Hall, Hp2.
      exists (mk_edge_result (run_storage_calls calls []) tmp (edge_type it) None
              :: results).
      split.
      * cbn [build_edges res_recursion res_work_room res_max_distance res_edge_type].
        rewrite Hadd. cbn. exact Hb.
      * constructor; [|by rewrite Hp2 in Hall].
        unfold refiner_edge_result. rewrite Hit, Hts. cbn. by rewrite Hres.
Qed.

Lemma Refiner_ctor_contour_loop_results contours :
  forall o d b d' b' contours',
    Refiner_ctor_contour_loop o contours d b = Some (d', b', contours') ->
    exists rs,
      build_contours o rs d b = Some (d', b')
      /\ Forall2 (fun r c =>
                    Forall2 (fun r edge =>
                               refiner_edge_result (P.m_params d) edge = Some r)
                      r (PerContour.m_edges c)) rs contours.
Proof.
  induction contours as [|c rest IH]; intros o d b d' b' contours' Hl.
  - cbn in Hl. injection Hl as <- <- <-. exists []. split; [done|constructor].
  - cbn [Refiner_ctor_contour_loop] in Hl.
    destruct (start_contour d b o _) as [d1 b1] eqn:Hstart.
    pose proof (start_contour_spec _ _ _ _ _ _ Hstart) as (_ & Hp1 & _).
    destruct (Refiner_ctor_edge_loop o 0 _ _ d1 b1) as [[[d2 b2] edges']|] eqn:Hedges;
      [|done].
    cbn in Hl. destruct (end_contour b2) as [b3|] eqn:Hend; [|done]. cbn in Hl.
    destruct (Refiner_ctor_contour_loop (S o) rest d2 b3)
      as [[[d4 b4] rest']|] eqn:Hrec; [|done].
    cbn in Hl. injection Hl as <- <- <-.
    apply Refiner_ctor_edge_loop_results in Hedges as (r & Hb & Hall).
    pose proof (build_edges_params _ _ _ _ _ _ _ _ Hb) as Hp2.
    apply IH in Hrec as (rs & Hbc & Hall').
    rewrite Hp2, Hp1 in Hall'. rewrite Hp1 in Hall.
    exists (r :: rs). split; [|by constructor].
    cbn [build_contours]. pose proof Hall as Hl2. apply Forall2_length in Hl2.
    rewrite <- Hl2 in Hstart, Hb.
    rewrite Hstart, Hb. cbn. rewrite Hend. cbn. exact Hbc.
Qed.

Lemma TessellatedPath_from_Refiner_results ref_d max_distance additional p contours' :
  TessellatedPath_from_Refiner ref_d max_distance additional = Some (p, contours') ->
  (RefinerPrivate.m_contours ref_d = []
   /\ p = new_TessellatedPathPrivate 0 (refiner_params ref_d max_distance additional))
  \/ exists rs,
       built_from rs (refiner_params ref_d max_distance additional) p
       /\ Forall2 (fun r c =>
                     Forall2 (fun r edge =>
                                refiner_edge_result
                                  (refiner_params ref_d max_distance additional) edge
                                = Some r)
                       r (PerContour.m_edges c)) rs (RefinerPrivate.m_contours ref_d).
Proof.
  unfold TessellatedPath_from_Refiner. fold (refiner_params ref_d max_distance additional).
  destruct (RefinerPrivate.m_contours ref_d) as [|c cs] eqn:Hcs.
  { intros [= <- <-]. by left. }
  rewrite <- Hcs.
  destruct (Refiner_ctor_contour_loop 0 _ _ _) as [[[d1 b1] cs']|] eqn:Hloop; [|done].
  cbn. destruct (finalize d1 b1) as [d2|] eqn:Hfin; [|done]. cbn.
  intros [= <- <-]. right.
  apply Refiner_ctor_contour_loop_results in Hloop as (rs & Hb & Hall).
  cbn [P.m_params new_TessellatedPathPrivate] in Hall.
  exists rs. split; [|done]. exists d1, b1. split; [|done].
  apply Forall2_length in Hall. by rewrite Hall.
Qed.

(** A constructed path is the empty one of its parameters, or was built from
    the results of tessellating its edges. *)
Lemma constructed_results tp :
  constructed tp ->
  (exists TP, tp = new_TessellatedPathPrivate 0 TP)
  \/ exists rs TP,
       built_from rs TP tp
       /\ forall o c e r, rs !! o = Some c -> c !! e = Some r -> edge_result_of tp o e r.
Proof.
  intros [(input & TP & want & ref & H)|(ref_d & md & add & cs & H)].
  - pose proof H as [(-> & -> & _)|(_ & Hb & _)]%TessellatedPath_from_Path_spec.
    { left. by exists TP. }
    right. exists (map (map (path_edge_result TP)) input), TP. split; [done|].
    intros o c e r Ho He. unfold Path, PathContour in *.
    rewrite lookup_map in Ho.
    destruct (input !! o) as [contour|] eqn:Hcontour; [|done]. injection Ho as <-.
    rewrite lookup_map in He.
    destruct (contour !! e) as [it|] eqn:Hit; [|done]. injection He as <-.
    left. by exists input, TP, want, ref, contour, it.
  - pose proof H as [[_ ->]|(rs & Hb & Hrs)]%TessellatedPath_from_Refiner_results.
    { left. by eexists. }
    right. exists rs, (refiner_params ref_d md add). split; [done|].
    intros o c e r Ho He.
    destruct (Forall2_lookup_l _ _ _ _ _ Hrs Ho) as (c' & Hc' & Hrc).
    destruct (Forall2_lookup_l _ _ _ _ _ Hrc He) as (edge & Hedge & Hr).
    right. by exists ref_d, md, add, cs, c', edge.
Qed.

(** The result of an edge is at its place among the results from which the
    path was built. *)
Lemma edge_result_built tp o e r :
  edge_result_of tp o e r ->
  exists rs TP c, built_from rs TP tp /\ rs !! o = Some c /\ c !! e = Some r.
Proof.
  intros [(input & TP & want & ref & contour & it & Hc & Ho & He & ->)
         |(ref_d & md & add & cs & c & edge & Hc & Ho & He & Hr)].
  - apply TessellatedPath_from_Path_spec in Hc as [(-> & _)|(_ & Hb & _)]; [done|].
    exists (map (map (path_edge_result TP)) input), TP,
      (map (path_edge_result TP) contour).
    split; [done|]. unfold Path, PathContour in *.
    by rewrite !lookup_map, Ho, He.
  - apply TessellatedPath_from_Refiner_results in Hc as [[Hnil _]|(rs & Hb & Hrs)].
    { by rewrite Hnil in Ho. }
    destruct (Forall2_lookup_r _ _ _ _ _ Hrs Ho) as (c0 & Hc0 & Hrc).
    destruct (Forall2_lookup_r _ _ _ _ _ Hrc He) as (r0 & Hr0 & Hr0').
    rewrite Hr in Hr0'. injection Hr0' as <-.
    by exists rs, (refiner_params ref_d md add), c0.
Qed.

Lemma elem_of_concat_lookup {A} (x : A) (ls : list (list A)) :
  x ∈ concat ls -> exists o l e, ls !! o = Some l /\ l !! e = Some x.
Proof.
  intros (l & Hl & Hx)%elem_of_concat_inv.
  apply list_elem_of_lookup_1 in Hl as [o Ho]. apply list_elem_of_lookup_1 in Hx as [e He].
  by exists o, l, e.
Qed.

Lemma lookup_elem_of_concat {A} (x : A) (ls : list (list A)) o l e :
  ls !! o = Some l -> l !! e = Some x -> x ∈ concat ls.
Proof.
  intros Ho He. eapply list_elem_of_lookup_2. by eapply lookup_concat.
Qed.

(** X3: for a tessellated path that one of the constructors built,
    [max_distance()] is not negative, it is at least the distance that the
    tessellation of each edge reported, and it is zero or the distance that
    one of the edges reported. *)
Theorem max_distance_is_maximum tp :
  constructed tp ->
  0 <= max_distance tp
  /\ (forall o e r, edge_result_of tp o e r -> res_max_distance r <= max_distance tp)
  /\ (max_distance tp = 0
      \/ exists o e r, edge_result_of tp o e r /\ max_distance tp = res_max_distance r).
Proof.
  intros Hc. unfold max_distance.
  assert (H0 : 0 <= P.m_max_distance tp
               /\ (P.m_max_distance tp = 0
                   \/ exists o e r, edge_result_of tp o e r
                                    /\ P.m_max_distance tp = res_max_distance r)).
  { destruct (constructed_results tp Hc) as [[TP ->]|(rs & TP & Hb & Hof)].
    { split; [apply Qle_refl|by left]. }
    apply built_summary in Hb as (_ & _ & -> & _). cbn.
    destruct (fold_Qmax_bounds res_max_distance (concat rs) 0) as (H1 & _ & H3).
    split; [done|]. destruct H3 as [H3|(r & Hr & H3)]; [by left|right].
    apply elem_of_concat_lookup in Hr as (o & c & e & Ho & He).
    exists o, e, r. split; [by eapply Hof|done]. }
  destruct H0 as [H0 H1]. split; [done|]. split; [|done].
  intros o e r (rs & TP & c & Hb & Ho & He)%edge_result_built.
  apply built_summary in Hb as (_ & _ & -> & _). cbn.
  destruct (fold_Qmax_bounds res_max_distance (concat rs) 0) as (_ & H2 & _).
  rewrite list.Forall_forall in H2. apply H2. by eapply lookup_elem_of_concat.
Qed.

(** X4: when the tessellation of an edge returned or resumed a tessellation
    state, [max_recursion()] of the path is at least the recursion depth of
    that state. *)
Theorem max_recursion_bounds_depths tp o e r depth :
  edge_result_of tp o e r -> res_recursion r = Some depth ->
  (depth <= max_recursion tp)%N.
Proof.
  intros (rs & TP & c & Hb & Ho & He)%edge_result_built Hd. unfold max_recursion.
  apply built_summary in Hb as (_ & _ & _ & -> & _). cbn.
  destruct (fold_recursion_bounds (concat rs) 0%N) as (_ & H2).
  rewrite list.Forall_forall in H2. eapply H2; [|exact Hd].
  by eapply lookup_elem_of_concat.
Qed.

(** X5: a path constructed from a [Path] reports with
    [tessellation_parameters()] the parameters that it was given.  A path
    constructed from a [Refiner] reports the distance that was asked for,
    [m_allow_arcs] of the path that the refiner held, and as
    [m_max_recursion] the sum as [unsigned int] of [max_recursion()] of that
    path and the additional recursion count. *)
Theorem tessellation_parameters_kept :
  (forall (input : Path) TP want_ref tp ref,
     TessellatedPath_from_Path input TP want_ref = Some (tp, ref) ->
     tessellation_parameters tp = TP)
  /\ (forall ref_d md add tp contours,
        TessellatedPath_from_Refiner ref_d md add = Some (tp, contours) ->
        TessellationParams.m_max_distance (tessellation_parameters tp) = md
        /\ TessellationParams.m_allow_arcs (tessellation_parameters tp)
           = TessellationParams.m_allow_arcs
               (tessellation_parameters (tessellated_path ref_d))
        /\ TessellationParams.m_max_recursion (tessellation_parameters tp)
           = uadd (max_recursion (tessellated_path ref_d)) add).
Proof.
  unfold tessellation_parameters, tessellated_path, max_recursion. split.
  - intros input TP want tp ref [(_ & -> & _)|(_ & Hb & _)]%TessellatedPath_from_Path_spec;
      [done|].
    by apply built_structure in Hb as (_ & _ & ->).
  - intros ref_d md add tp cs [[_ ->]|(rs & Hb & _)]%TessellatedPath_from_Refiner_results;
      [done|].
    by apply built_structure in Hb as (_ & _ & ->).
Qed.

(** X6: when [refine_tessellation] returns for a distance that is not
    negative and the tessellation of every edge of the refiner for the new
    parameters reports a distance of at most the one asked for, the path
    held afterwards has [max_distance()] at most that distance, and a
    further call for the same distance, with any recursion count, changes
    nothing. *)
Theorem refine_tessellation_settles r md add r' :
  refine_tessellation r md add = Some r' ->
  0 <= md ->
  (forall o c e edge res,
     RefinerPrivate.m_contours r !! o = Some c ->
     PerContour.m_edges c !! e = Some edge ->
     refiner_edge_result (refiner_params r md add) edge = Some res ->
     res_max_distance res <= md) ->
  max_distance (tessellated_path r') <= md
  /\ forall add', refine_tessellation r' md add' = Some r'.
Proof.
  intros Href Hmd Hres.
  assert (Hle : max_distance (tessellated_path r') <= md).
  { unfold refine_tessellation in Href. unfold max_distance, tessellated_path.
    destruct (Qltb md _) eqn:Hlt.
    - destruct (TessellatedPath_from_Refiner r md add) as [[p cs]|] eqn:Hc; [|done].
      cbn in Href. injection Href as <-. cbn.
      apply TessellatedPath_from_Refiner_results in Hc as [[_ ->]|(rs & Hb & Hrs)];
        [done|].
      apply built_summary in Hb as (_ & _ & -> & _). cbn.
      destruct (fold_Qmax_bounds res_max_distance (concat rs) 0) as (_ & _ & [->|H3]);
        [done|].
      destruct H3 as (res & Hin & ->).
      apply elem_of_concat_lookup in Hin as (o & c0 & e & Ho & He).
      destruct (Forall2_lookup_l _ _ _ _ _ Hrs Ho) as (c & Hc & Hrc).
      destruct (Forall2_lookup_l _ _ _ _ _ Hrc He) as (edge & Hedge & Hr).
      by eapply Hres.
    - injection Href as <-. by apply Qltb_ge. }
  split; [done|]. intros add'. unfold refine_tessellation.
  unfold max_distance, tessellated_path in Hle. apply Qltb_ge in Hle. by rewrite Hle.
Qed.
End results.

(** ** Arcs, segment counts and edge ranges *)

Lemma existsb_geometry (l1 l2 : list segment) :
  map geometry l1 = map geometry l2 ->
  existsb is_arc_segment l1 = existsb is_arc_segment l2.
Proof.
  revert l2. induction l1 as [|x l1 IH]; intros [|y l2] Hm; try done.
  cbn [map] in Hm. cbn.
  assert (Hxy : geometry x = geometry y) by (apply (f_equal head) in Hm; cbn in Hm; congruence).
  assert (Hl : map geometry l1 = map geometry l2) by (by apply (f_equal tail) in Hm).
  rewrite (IH _ Hl). f_equal.
  unfold is_arc_segment. apply (f_equal m_type) in Hxy. cbn in Hxy. by rewrite Hxy.
Qed.

Lemma built_geometry tss rs :
  Forall2 (Forall2 edge_built) tss rs ->
  map geometry (concat (concat tss))
  = map geometry (concat (map res_work_room (concat rs))).
Proof.
  induction 1 as [|ts c tss rs Hts _ IH]; [done|].
  cbn. rewrite !map_app, !concat_app, !map_app, IH. f_equal.
  clear -Hts. induction Hts as [|w r ts c (Hg & _) _ IH]; [done|].
  cbn. by rewrite !map_app, IH, Hg.
Qed.

Lemma length_concat_take_le {A} (ws : list (list A)) k w :
  ws !! k = Some w ->
  (length (concat (take k ws)) + length w <= length (concat ws))%nat.
Proof.
  intros Hk.
  assert (Hws : concat ws = concat (take k ws) ++ w ++ concat (drop (S k) ws)).
  { rewrite <- (take_drop_middle ws k w Hk) at 1. by rewrite concat_app. }
  rewrite Hws, !length_app. lia.
Qed.

Section tables.
Context `{FM : FloatMath} `{PI : PathInterface}.

(** The segments of the edge whose result is at the place [(o, e)]. *)
Lemma structure_result_edge rs tp tss o c e r :
  structure_of rs tp tss ->
  rs !! o = Some c -> c !! e = Some r ->
  exists l,
    edge_segment_data tp o e = Some l /\ edge_built l r
    /\ (N.of_nat (length l) < uint_modulus)%N.
Proof.
  intros Hst Ho He. pose proof Hst as (_ & Htss & Hshape & _ & Hbound & _).
  destruct (Forall2_lookup_r _ _ _ _ _ Htss Ho) as (ts & Hts & Htsc).
  destruct (Forall2_lookup_r _ _ _ _ _ Htsc He) as (w & Hw & Hbuilt).
  destruct (Forall2_lookup_shape_r _ _ _ _ Hshape Hts) as (es & Hes & Hlen).
  destruct (lookup_lt_is_Some_2 es e) as [E HE].
  { rewrite Hlen. by eapply lookup_lt_Some. }
  destruct (structure_edge _ _ _ _ _ _ _ Hst Hes HE)
    as (ts' & w' & Hts' & Hw' & _ & Hk & Hdata).
  rewrite Hts in Hts'. injection Hts' as <-. rewrite Hw in Hw'. injection Hw' as <-.
  exists w. split; [done|]. split; [done|].
  pose proof (lookup_concat_length _ _ _ Hk). lia.
Qed.

(** X1: for a tessellated path that one of the constructors built,
    [has_arcs()] is true exactly when one of the segments of
    [segment_data()] is an arc segment. *)
Theorem has_arcs_iff_arc_segment tp :
  constructed tp ->
  has_arcs tp = true
  <-> exists S0, S0 ∈ segment_data tp /\ m_type S0 = arc_segment.
Proof.
  intros Hc. unfold has_arcs.
  assert (Hex : P.m_has_arcs tp = existsb is_arc_segment (segment_data tp)).
  { destruct (constructed_results tp Hc) as [[TP ->]|(rs & TP & Hb & _)]; [done|].
    pose proof (built_summary _ _ _ Hb) as (-> & _). cbn.
    apply built_structure in Hb as (tss & (Hseg & Htss & _) & _).
    rewrite Hseg. symmetry. apply existsb_geometry. by apply built_geometry. }
  rewrite Hex, existsb_exists. split.
  - intros (S0 & Hin & Harc). exists S0. split; [by apply list_elem_of_In|].
    unfold is_arc_segment in Harc. by destruct (m_type S0).
  - intros (S0 & Hin & Harc). exists S0. split; [by apply list_elem_of_In|].
    unfold is_arc_segment. by rewrite Harc.
Qed.

(** X2: for a tessellated path that one of the constructors built, no edge
    has more segments than [max_segments()], and [max_segments()] is zero,
    as for the empty path, or the number of segments of one of the edges. *)
Theorem max_segments_is_maximum tp :
  constructed tp ->
  (forall o e l,
     edge_segment_data tp o e = Some l -> (N.of_nat (length l) <= max_segments tp)%N)
  /\ (max_segments tp = 0%N
      \/ exists o e l,
           edge_segment_data tp o e = Some l /\ max_segments tp = N.of_nat (length l)).
Proof.
  intros Hc. unfold max_segments.
  destruct (constructed_results tp Hc) as [[TP ->]|(rs & TP & Hb & _)].
  { split; [|by left]. intros o e l (es & E & Hes & _)%edge_data_inv.
    cbn in Hes. by destruct o. }
  set (f := fun r : edge_result => wrap (N.of_nat (length (res_work_room r)))).
  assert (Hmax : P.m_max_segments tp
                 = fold_left (fun acc x => N.max acc (f x)) (concat rs) 0%N).
  { by pose proof (built_summary _ _ _ Hb) as (_ & -> & _). }
  rewrite Hmax. clear Hmax.
  apply built_structure in Hb as (tss & Hst & _).
  destruct (fold_Nmax_bounds f (concat rs) 0%N) as (_ & H2 & H3).
  split.
  - intros o e l Hl.
    destruct (structure_edge_built _ _ _ _ _ _ Hst Hl) as (c & r & Ho & He & (Hg & _) & Hlt).
    rewrite list.Forall_forall in H2.
    specialize (H2 r (lookup_elem_of_concat _ _ _ _ _ Ho He)).
    unfold f in H2 at 1. rewrite <- (map_geometry_length _ _ Hg) in H2.
    by rewrite wrap_small in H2.
  - destruct H3 as [H3|(r & Hr & H3)]; [by left|right].
    apply elem_of_concat_lookup in Hr as (o & c & e & Ho & He).
    destruct (structure_result_edge _ _ _ _ _ _ _ Hst Ho He) as (l & Hl & (Hg & _) & Hlt).
    exists o, e, l. split; [done|]. rewrite H3. unfold f.
    rewrite <- (map_geometry_length _ _ Hg). by apply wrap_small.
Qed.

(** X7: for a tessellated path that one of the constructors built, the
    range of every edge is not empty and ends within [segment_data()], and
    [edge_segment_data] returns for the edge as many segments, at least
    one, as the range is long. *)
Theorem edge_ranges_nonempty tp o e r :
  constructed tp ->
  edge_range tp o e = Some r ->
  (m_begin r < m_end r)%N
  /\ (m_end r <= N.of_nat (length (segment_data tp)))%N
  /\ exists l,
       edge_segment_data tp o e = Some l /\ l <> []
       /\ N.of_nat (length l) = (m_end r - m_begin r)%N.
Proof.
  intros Hc (es & E & Hes & HE & ->)%edge_range_inv.
  destruct (constructed_cases tp Hc) as [[Hnil _]|(rs & TP & Hb)].
  { by rewrite Hnil in Hes. }
  apply built_structure in Hb as (tss & Hst & _).
  destruct (structure_edge _ _ _ _ _ _ _ Hst Hes HE)
    as (ts & w & Hts & Hw & Hk & Hkw & Hdata).
  destruct (structure_flat_range _ _ _ _ _ Hst Hk) as (w' & Hw' & ->).
  rewrite Hkw in Hw'. injection Hw' as <-.
  pose proof Hst as (Hseg & Htss & _).
  destruct (Forall2_lookup_l _ _ _ _ _ Htss Hts) as (c & _ & Htsc).
  destruct (Forall2_lookup_l _ _ _ _ _ Htsc Hw) as (r & _ & (_ & Hne & _)).
  pose proof (length_concat_take_le _ _ _ Hkw) as Hle.
  cbn [m_begin m_end]. rewrite Hseg.
  assert (0 < length w)%nat by (destruct w; [done|cbn; lia]).
  split; [lia|]. split; [lia|]. exists w. split; [done|]. split; [done|]. lia.
Qed.
End tables.

(** ** Edge types *)

Lemma alter_alter_types (f : Edge -> Edge) (g : edge_type_t -> edge_type_t)
    (e o : nat) (edges : list (list Edge)) :
  (forall E, m_edge_type (f E) = g (m_edge_type E)) ->
  fmap (M := list) (fmap (M := list) m_edge_type) (alter (alter f e) o edges)
  = alter (alter g e) o (fmap (M := list) (fmap (M := list) m_edge_type) edges).
Proof.
  intros Hf. apply list_fmap_alter, Forall_true. intros es.
  by apply list_fmap_alter, Forall_true.
Qed.

Lemma alter_id_eq {A} (g : A -> A) (i : nat) (l : list A) :
  (forall x, g x = x) -> alter g i l = l.
Proof.
  intros Hg. revert i. induction l as [|x l IH]; intros [|i]; cbn; [done|done| |].
  - by rewrite Hg.
  - f_equal. apply IH.
Qed.

Lemma alter_const_insert {A} (x : A) (i : nat) (l : list A) :
  alter (fun _ => x) i l = <[i := x]> l.
Proof. revert i. induction l as [|y l IH]; intros [|i]; cbn; [done|done|done|]. f_equal. apply IH. Qed.

Lemma insert_middle {A} (x : A) (e : nat) (ts mid : list A) (n : nat) :
  (e + S n <= length ts)%nat -> length mid = n ->
  take (S e) (<[e := x]> ts) ++ mid ++ drop (S e + n) (<[e := x]> ts)
  = take e ts ++ (x :: mid) ++ drop (e + S n) ts.
Proof.
  intros Hle Hmid. replace (S e + n)%nat with (e + S n)%nat by lia.
  rewrite (take_S_r (<[e := x]> ts) e x) by (apply list_lookup_insert_eq; lia).
  rewrite take_insert_ge by lia. rewrite drop_insert_lt by lia.
  by rewrite <- app_assoc.
Qed.

Section edge_types.
Context `{FM : FloatMath}.

Lemma add_edge_types d b o e work tmp closing d' b' :
  add_edge d b o e work tmp closing = Some (d', b') -> edge_types d' = edge_types d.
Proof.
  intros (_ & He & _)%add_edge_spec. unfold edge_types. rewrite He.
  rewrite (alter_alter_types _ (fun t => t)) by done.
  apply alter_id_eq. intros ts. by apply alter_id_eq.
Qed.

Lemma build_edges_types o ende results :
  forall e d b d' b' ts,
    build_edges o e ende results d b = Some (d', b') ->
    edge_types d !! o = Some ts ->
    (e + length results <= length ts)%nat ->
    edge_types d'
    = <[o := take e ts ++ map res_edge_type results ++ drop (e + length results) ts]>
        (edge_types d).
Proof.
  induction results as [|r rest IH]; intros e d b d' b' ts Hb Ho Hle.
  - cbn in Hb. injection Hb as <- <-. cbn. rewrite Nat.add_0_r, take_drop.
    by rewrite list_insert_id.
  - cbn [build_edges] in Hb.
    set (d1 := match res_recursion r with Some _ => _ | None => d end) in Hb.
    assert (Hd1 : edge_types d1 = edge_types d) by (subst d1; by destruct (res_recursion r)).
    destruct (add_edge d1 b o e _ _ _) as [[d2 b2]|] eqn:Hadd; [|done]. cbn in Hb.
    apply add_edge_types in Hadd. rewrite Hd1 in Hadd.
    cbn [length] in Hle.
    set (d3 := P.set_m_edges _ d2) in Hb.
    assert (Hd3 : edge_types d3 = <[o := <[e := res_edge_type r]> ts]> (edge_types d)).
    { subst d3. unfold edge_types at 1. cbn [P.m_edges P.set_m_edges].
      rewrite (alter_alter_types _ (fun _ => res_edge_type r)) by done.
      fold (edge_types d2). rewrite Hadd.
      rewrite (alter_insert _ o _ ts) by done. by rewrite alter_const_insert. }
    eapply (IH (S e) d3 b2 d' b' (<[e := res_edge_type r]> ts)) in Hb; cycle 1.
    { rewrite Hd3. apply list_lookup_insert_eq. by eapply lookup_lt_Some. }
    { rewrite length_insert. lia. }
    rewrite Hb, Hd3, list_insert_insert_eq. f_equal. cbn [map length].
    apply insert_middle; [lia|by rewrite length_map].
Qed.

Lemma build_contours_types contours :
  forall o d b d' b',
    build_contours o contours d b = Some (d', b') ->
    (o + length contours <= length (edge_types d))%nat ->
    edge_types d'
    = take o (edge_types d) ++ map (map res_edge_type) contours
      ++ drop (o + length contours) (edge_types d).
Proof.
  induction contours as [|c rest IH]; intros o d b d' b' Hb Hlen.
  - cbn in Hb. injection Hb as <- <-. cbn. by rewrite Nat.add_0_r, take_drop.
  - cbn [build_contours] in Hb. cbn [length] in Hlen.
    destruct (start_contour d b o _) as [d1 b1] eqn:Hstart.
    assert (Hd1 : edge_types d1
                  = alter (resize (length c) starts_new_edge) o (edge_types d)).
    { unfold start_contour in Hstart. injection Hstart as <- _.
      unfold edge_types. cbn [P.m_edges P.set_m_edges]. rewrite Nat2N.id.
      apply list_fmap_alter, Forall_true. intros es. by rewrite fmap_resize. }
    destruct (build_edges o 0 _ c d1 b1) as [[d2 b2]|] eqn:Hedges; [|done]. cbn in Hb.
    destruct (end_contour b2) as [b3|]; [|done]. cbn in Hb.
    destruct (lookup_lt_is_Some_2 (edge_types d) o ltac:(lia)) as [ts_old Hold].
    eapply (build_edges_types o _ c 0 d1 b1 d2 b2
              (resize (length c) starts_new_edge ts_old)) in Hedges; cycle 1.
    { by rewrite Hd1, list_lookup_alter_eq, Hold. }
    { rewrite length_resize. lia. }
    rewrite take_0, drop_ge, app_nil_r in Hedges by (rewrite length_resize; lia).
    cbn [app] in Hedges.
    apply IH in Hb; [|rewrite Hedges, length_insert, Hd1, length_alter; lia].
    rewrite Hb, Hedges, Hd1.
    assert (Hlo : (o < length (alter (resize (length c) starts_new_edge) o (edge_types d)))%nat)
      by (rewrite length_alter; lia).
    rewrite (take_S_r _ _ (map res_edge_type c)) by (by apply list_lookup_insert_eq).
    rewrite take_insert_ge, take_alter_ge by lia.
    rewrite drop_insert_lt, drop_alter_lt by lia.
    rewrite <- !app_assoc. cbn.
    by replace (o + S (length rest))%nat with (S (o + length rest)) by lia.
Qed.

Lemma built_types rs TP tp :
  built_from rs TP tp -> edge_types tp = map (map res_edge_type) rs.
Proof.
  intros (d' & b' & Hb & Hfin).
  apply build_contours_types in Hb; [|unfold edge_types; cbn;
    rewrite length_fmap, length_replicate; lia].
  apply finalize_spec in Hfin as (_ & _ & _ & _ & _ & ->).
  unfold edge_types in *. cbn [P.m_edges P.set_m_segment_data].
  rewrite Hb. cbn. rewrite Nat2N.id, take_0.
  rewrite drop_ge by (rewrite length_fmap, length_replicate; lia).
  by rewrite app_nil_r.
Qed.

Context `{PI : PathInterface}.

(** X8: [TessellatedPath::edge_type] returns for every edge of a
    constructed path the [edge_type()] of the interpolator of the edge. *)
Theorem edge_type_of_result tp o e r :
  edge_result_of tp o e r ->
  TessellatedPath_edge_type tp o e = Some (res_edge_type r).
Proof.
  intros (rs & TP & c & Hb & Ho & He)%edge_result_built.
  apply built_types in Hb.
  assert (Ht : edge_types tp !! o = Some (map res_edge_type c))
    by (by rewrite Hb, lookup_map, Ho).
  unfold edge_types in Ht. rewrite list_lookup_fmap in Ht.
  unfold TessellatedPath_edge_type.
  destruct (P.m_edges tp !! o) as [es|]; [|done]. cbn in Ht |- *. injection Ht as Ht.
  assert (Hte : (m_edge_type <$> es) !! e = Some (res_edge_type r))
    by (by rewrite Ht, lookup_map, He).
  rewrite list_lookup_fmap in Hte.
  destruct (es !! e) as [E|]; [|done]. cbn in Hte |- *. by injection Hte as ->.
Qed.
End edge_types.

(** ** Local values of the stored segments *)

Section local_values.
Context `{FM : FloatMath}.

Lemma compute_local_idempotent S0 :
  compute_local_segment_values (compute_local_segment_values S0)
  = compute_local_segment_values S0.
Proof. unfold compute_local_segment_values. by destruct S0 as [[] ? ? ? ? ? ? ? ? ? ? ? ? ? ?]. Qed.

Lemma compute_local_set_distances a c S0 :
  compute_local_segment_values (set_distances a c S0)
  = set_distances a c (compute_local_segment_values S0).
Proof. unfold compute_local_segment_values. by destruct S0 as [[] ? ? ? ? ? ? ? ? ? ? ? ? ? ?]. Qed.

Lemma compute_local_set_edge_length v S0 :
  compute_local_segment_values (set_edge_length v S0)
  = set_edge_length v (compute_local_segment_values S0).
Proof. unfold compute_local_segment_values. by destruct S0 as [[] ? ? ? ? ? ? ? ? ? ? ? ? ? ?]. Qed.

Lemma compute_local_set_contour_lengths a c S0 :
  compute_local_segment_values (set_contour_lengths a c S0)
  = set_contour_lengths a c (compute_local_segment_values S0).
Proof. unfold compute_local_segment_values. by destruct S0 as [[] ? ? ? ? ? ? ? ? ? ? ? ? ? ?]. Qed.

Lemma add_edge_loop_local closing work :
  forall prev acc work1 acc1,
    add_edge_loop closing prev work acc = (work1, acc1) ->
    Forall (fun S0 => compute_local_segment_values S0 = S0) work1.
Proof.
  induction work as [|S0 work IH]; intros prev acc work1 acc1; simpl.
  - intros [= <- <-]. constructor.
  - destruct (add_edge_loop _ _ work _) as [rest' acc'] eqn:Hrec.
    intros [= <- <-]. apply IH in Hrec. constructor; [|done].
    by rewrite compute_local_set_distances, compute_local_idempotent.
Qed.

Lemma add_edge_length_loop_Forall (Q : segment -> Prop) needed (work : list segment) :
  (forall v S0, Q S0 -> Q (set_edge_length v S0)) ->
  Forall Q work -> Forall Q (add_edge_length_loop needed work).
Proof.
  intros HQ. unfold add_edge_length_loop.
  generalize (seq 0 (N.to_nat needed)). intros idxs. revert work.
  induction idxs as [|i idxs IH]; intros work Hw; [done|].
  cbn [fold_left]. apply IH. destruct (work !! _); [|done].
  apply Forall_alter; [done|]. intros S0 _ HS. by apply HQ.
Qed.

Lemma add_edge_local d b o e work tmp closing d' b' :
  add_edge d b o e work tmp closing = Some (d', b') ->
  Forall (Forall (fun S0 => compute_local_segment_values S0 = S0)) (B.m_temp b) ->
  Forall (Forall (fun S0 => compute_local_segment_values S0 = S0)) (B.m_temp b').
Proof.
  unfold add_edge.
  destruct (wrap (N.of_nat (length work)) =? 0)%N; [done|].
  destruct (add_edge_loop _ _ _ _) as [work1 acc] eqn:Hloop.
  apply add_edge_loop_local in Hloop. intros [= <- <-] Hold. cbn.
  apply Forall_app. split; [done|]. constructor; [|constructor].
  apply add_edge_length_loop_Forall; [|done].
  intros v S0 HS. by rewrite compute_local_set_edge_length, HS.
Qed.

Lemma build_edges_local o ende results :
  forall e d b d' b',
    build_edges o e ende results d b = Some (d', b') ->
    Forall (Forall (fun S0 => compute_local_segment_values S0 = S0)) (B.m_temp b) ->
    Forall (Forall (fun S0 => compute_local_segment_values S0 = S0)) (B.m_temp b').
Proof.
  induction results as [|r rest IH]; intros e d b d' b' Hb Hold.
  - cbn in Hb. by injection Hb as <- <-.
  - cbn [build_edges] in Hb.
    destruct (add_edge _ b o e _ _ _) as [[d2 b2]|] eqn:Hadd; [|done]. cbn in Hb.
    eapply IH; [exact Hb|]. by eapply add_edge_local.
Qed.

Lemma end_contour_local b b' :
  end_contour b = Some b' ->
  Forall (Forall (fun S0 => compute_local_segment_values S0 = S0)) (B.m_temp b) ->
  Forall (Forall (fun S0 => compute_local_segment_values S0 = S0)) (B.m_temp b').
Proof.
  intros (k & _ & -> & _)%end_contour_spec Hold.
  rewrite <- (take_drop k (B.m_temp b)) in Hold. apply Forall_app in Hold as [H1 H2].
  apply Forall_app. split; [done|].
  apply Forall_fmap. eapply List.Forall_impl; [|exact H2]. intros w Hw.
  apply Forall_fmap. eapply List.Forall_impl; [|exact Hw]. intros S0 HS. cbn.
  by rewrite compute_local_set_contour_lengths, HS.
Qed.

Lemma build_contours_local contours :
  forall o d b d' b',
    build_contours o contours d b = Some (d', b') ->
    Forall (Forall (fun S0 => compute_local_segment_values S0 = S0)) (B.m_temp b) ->
    Forall (Forall (fun S0 => compute_local_segment_values S0 = S0)) (B.m_temp b').
Proof.
  induction contours as [|c rest IH]; intros o d b d' b' Hb Hold.
  - cbn in Hb. by injection Hb as <- <-.
  - cbn [build_contours] in Hb.
    destruct (start_contour d b o _) as [d1 b1] eqn:Hstart.
    unfold start_contour in Hstart. injection Hstart as <- <-.
    destruct (build_edges o 0 _ c _ _) as [[d2 b2]|] eqn:Hedges; [|done]. cbn in Hb.
    destruct (end_contour b2) as [b3|] eqn:Hend; [|done]. cbn in Hb.
    eapply IH; [exact Hb|]. eapply end_contour_local; [exact Hend|].
    eapply build_edges_local; [exact Hedges|]. exact Hold.
Qed.

Context `{PI : PathInterface}.

(** X9: every segment of a tessellated path that one of the constructors
    built holds the values that [compute_local_segment_values] computes from
    its other fields: computing them again leaves the segment as it is. *)
Theorem stored_local_values tp S0 :
  constructed tp -> S0 ∈ segment_data tp ->
  compute_local_segment_values S0 = S0.
Proof.
  intros [[_ Hnil]|(rs & TP & d' & b' & Hb & Hfin)]%constructed_cases Hin.
  { rewrite Hnil in Hin. by apply elem_of_nil in Hin. }
  pose proof Hb as Hloc. apply build_contours_local in Hloc; [|constructor].
  apply build_contours_spec in Hb as (_ & _ & _ & _ & _ & _ & _ & _ & _ & _ & Hs);
    [|cbn; rewrite length_replicate; lia].
  apply finalize_spec in Hfin as (_ & _ & _ & _ & _ & ->).
  unfold segment_data in Hin. cbn in Hin, Hs. rewrite Hs in Hin. cbn in Hin.
  apply elem_of_concat_inv in Hin as (w & Hw & Hin).
  rewrite list.Forall_forall in Hloc. specialize (Hloc w Hw).
  rewrite list.Forall_forall in Hloc. by apply Hloc.
Qed.
End local_values.

(** ** Distances from the start of the contour *)

Lemma contour_distances_ext from (l1 l2 : list segment) :
  map (fun S0 => (m_distance_from_contour_start S0, m_length S0)) l1
  = map (fun S0 => (m_distance_from_contour_start S0, m_length S0)) l2 ->
  contour_distances_from from l1 -> contour_distances_from from l2.
Proof.
  revert from l2. induction l1 as [|x l1 IH]; intros from [|y l2] Hm; try done.
  cbn [map] in Hm. injection Hm as Hd Hl Hm. cbn. rewrite <- Hd, <- Hl.
  intros [H1 H2]. split; [done|]. by apply IH.
Qed.

Lemma contour_distances_app from (l1 l2 : list segment) :
  contour_distances_from from l1 ->
  contour_distances_from (sum_lengths from l1) l2 ->
  contour_distances_from from (l1 ++ l2).
Proof.
  revert from. induction l1 as [|x l1 IH]; intros from; [done|].
  cbn [contour_distances_from app]. rewrite sum_lengths_cons.
  intros [H1 H2] H3. split; [done|]. apply IH; [done|]. by rewrite H1.
Qed.

Lemma contour_distances_lookup l :
  forall from,
    contour_distances_from from l ->
    (forall S0, l !! 0%nat = Some S0 -> m_distance_from_contour_start S0 = from)
    /\ (forall i S0 T0, l !! i = Some S0 -> l !! (i + 1)%nat = Some T0 ->
        m_distance_from_contour_start T0
        = m_distance_from_contour_start S0 + m_length S0).
Proof.
  induction l as [|x l IH]; intros from Hd; [done|].
  destruct Hd as [Hx Hd]. destruct (IH _ Hd) as [IH0 IHS]. split.
  - intros S0 [= <-]. done.
  - intros [|i] S0 T0 Hi Hj; cbn in Hi, Hj.
    + injection Hi as <-. by apply IH0.
    + by eapply IHS.
Qed.

Lemma removelast_map {A C} (f : A -> C) (l : list A) :
  removelast (map f l) = map f (removelast l).
Proof.
  induction l as [|x l IH]; [done|]. cbn. destruct l as [|y l]; [done|].
  cbn [map] in *. by rewrite IH.
Qed.

Lemma removelast_cons_cons {A} (x y : A) (l : list A) :
  removelast (x :: y :: l) = x :: removelast (y :: l).
Proof. done. Qed.

Section contour_fields.
Context `{FM : FloatMath}.

Lemma add_edge_loop_contour closing work :
  forall prev acc work1 acc1,
    add_edge_loop closing prev work acc = (work1, acc1) ->
    contour_distances_from (acc_contour_length acc) work1.
Proof.
  induction work as [|S0 work IH]; intros prev acc work1 acc1; simpl.
  - intros [= <- <-]. done.
  - destruct (add_edge_loop _ _ work _) as [rest' acc'] eqn:Hrec.
    intros [= <- <-]. apply IH in Hrec. cbn in Hrec |- *. split; [done|]. exact Hrec.
Qed.

Lemma add_edge_contour d b o e work tmp closing d' b' :
  add_edge d b o e work tmp closing = Some (d', b') ->
  exists w,
    B.m_temp b' = B.m_temp b ++ [w]
    /\ contour_distances_from (B.m_contour_length b) w
    /\ B.m_contour_length b' = sum_lengths (B.m_contour_length b) w
    /\ B.m_open_contour_length b'
       = (if (uadd (N.of_nat e) 2 =? B.m_ende b)%N then B.m_contour_length b'
          else B.m_open_contour_length b)
    /\ B.m_ende b' = B.m_ende b.
Proof.
  intros Hadd. pose proof Hadd as Hspec.
  apply add_edge_spec in Hspec
    as (_ & _ & _ & _ & _ & Hende & _ & w & Htemp & _ & _ & Hcl & _).
  exists w. split; [done|].
  unfold add_edge in Hadd.
  destruct (wrap (N.of_nat (length work)) =? 0)%N; [done|].
  destruct (add_edge_loop _ _ _ _) as [work1 acc] eqn:Hloop.
  apply add_edge_loop_contour in Hloop. cbn in Hloop.
  injection Hadd as <- <-. cbn in *.
  apply app_inj_tail in Htemp as [_ <-].
  split.
  { eapply contour_distances_ext; [|exact Hloop]. symmetry.
    by apply add_edge_length_loop_map. }
  split; [done|]. split; [|done]. by destruct (_ =? _)%N.
Qed.

Lemma build_edges_contour o ende results :
  forall e d b d' b',
    build_edges o e ende results d b = Some (d', b') ->
    B.m_ende b = ende -> N.of_nat (e + length results) = ende ->
    (ende < uint_modulus)%N ->
    exists ws,
      B.m_temp b' = B.m_temp b ++ ws
      /\ length ws = length results
      /\ contour_distances_from (B.m_contour_length b) (concat ws)
      /\ B.m_contour_length b' = sum_lengths (B.m_contour_length b) (concat ws)
      /\ B.m_open_contour_length b'
         = (if decide (2 <= length results)%nat
            then sum_lengths (B.m_contour_length b) (concat (removelast ws))
            else B.m_open_contour_length b).
Proof.
  induction results as [|r rest IH]; intros e d b d' b' Hb Hende Hlast Hfit.
  - cbn in Hb. injection Hb as <- <-. exists []. rewrite app_nil_r. cbn.
    by rewrite decide_False by lia.
  - cbn [build_edges] in Hb.
    destruct (add_edge _ b o e _ _ _) as [[d2 b2]|] eqn:Hadd; [|done]. cbn in Hb.
    apply add_edge_contour in Hadd as (w & Htemp2 & Hcd2 & Hcl2 & Hopen2 & Hende2).
    cbn [length] in Hlast.
    eapply (IH (S e) _ b2 d' b') in Hb; [|by rewrite Hende2|rewrite <- Hlast; f_equal; lia|done].
    destruct Hb as (ws & Htemp & Hlen & Hcd & Hcl & Hopen).
    exists (w :: ws). split; [by rewrite Htemp, Htemp2, <- app_assoc|].
    split; [cbn; by rewrite Hlen|]. cbn [concat].
    split; [apply contour_distances_app; [done|by rewrite <- Hcl2]|].
    split; [by rewrite sum_lengths_app, <- Hcl2|].
    rewrite Hopen, Hopen2, Hende. cbn [length].
    destruct rest as [|r1 rest].
    + cbn [length]. rewrite !decide_False by lia.
      assert (Hne : (uadd (N.of_nat e) 2 =? ende)%N = false).
      { apply N.eqb_neq. unfold uadd, wrap. intros Hbad.
        destruct (decide (N.of_nat e + 2 < uint_modulus)%N) as [Hlt|Hge].
        - rewrite N.mod_small in Hbad by done. cbn [length] in Hlast. lia.
        - assert (Heq : (N.of_nat e + 2 = uint_modulus)%N)
            by (cbn [length] in Hlast; lia).
          rewrite Heq, N.Div0.mod_same in Hbad. cbn [length] in Hlast. lia. }
      by rewrite Hne.
    + destruct ws as [|w1 ws]; [done|].
      destruct rest as [|r2 rest].
      * cbn [length]. rewrite decide_False by lia. rewrite decide_True by lia.
        destruct ws; [|done]. cbn [removelast concat]. rewrite app_nil_r.
        assert (He2 : (uadd (N.of_nat e) 2 =? ende)%N = true).
        { apply N.eqb_eq. cbn [length] in Hlast. rewrite uadd_small by lia. lia. }
        by rewrite He2, Hcl2.
      * cbn [length]. rewrite !decide_True by lia.
        rewrite removelast_cons_cons. cbn [concat].
        by rewrite sum_lengths_app, <- Hcl2.
Qed.
End contour_fields.

(** ** The contour fields over the loops *)

Section contours.
Context `{FM : FloatMath}.

Lemma build_contours_fields contours :
  forall o d b d' b',
    build_contours o contours d b = Some (d', b') ->
    (o + length contours <= length (P.m_edges d))%nat ->
    Forall (fun c => c <> []) contours ->
    (N.of_nat (length (concat (B.m_temp b'))) < uint_modulus)%N ->
    exists tss,
      B.m_temp b' = B.m_temp b ++ concat tss
      /\ Forall2 (fun (ts : list (list segment)) (c : list edge_result) =>
                    length ts = length c) tss contours
      /\ Forall contour_fields_ok tss.
Proof.
  induction contours as [|c rest IH]; intros o d b d' b' Hb Hlen Hne Hbound.
  - cbn in Hb. injection Hb as <- <-. exists []. cbn. rewrite app_nil_r.
    split; [done|]. split; constructor.
  - cbn [build_contours] in Hb. cbn [length] in Hlen.
    inversion_clear Hne as [|? ? Hc Hrest].
    destruct (start_contour d b o (N.of_nat (length c))) as [d1 b1] eqn:Hstart.
    pose proof Hstart as Hopen1. unfold start_contour in Hopen1.
    apply (f_equal snd) in Hopen1. cbn in Hopen1.
    apply (f_equal B.m_open_contour_length) in Hopen1. cbn in Hopen1.
    apply start_contour_spec in Hstart
      as (He1 & Hp1 & Hs1 & Hloc1 & Htemp1 & Hende1 & Hcl1 & Hst1).
    rewrite Nat2N.id in He1.
    destruct (build_edges o 0 _ c d1 b1) as [[d2 b2]|] eqn:Hedges; [|done].
    cbn in Hb.
    destruct (end_contour b2) as [b3|] eqn:Hend; [|done]. cbn in Hb.
    destruct (lookup_lt_is_Some_2 (P.m_edges d) o ltac:(lia)) as [es_old Hold].
    pose proof Hedges as Hcontour.
    eapply (build_edges_spec o _ c 0 d1 b1 d2 b2
              (resize (length c) default_Edge es_old)) in Hedges; cycle 1.
    { rewrite He1, list_lookup_alter_eq, Hold. done. }
    { rewrite length_resize. lia. }
    { done. }
    destruct Hedges as (ws1 & es' & Htemp2 & He2 & Hlen' & _ & _ & _ & Hall
                        & _ & _ & Hstart2 & _ & _ & _ & _).
    rewrite decide_True in Hstart2 by done.
    apply end_contour_spec in Hend as (k & Hk & Htemp3 & _ & _).
    rewrite Hstart2 in Hk. injection Hk as <-.
    rewrite Htemp2, Htemp1, take_app_length, drop_app_length in Htemp3.
    apply IH in Hb; [|rewrite He2, length_insert, He1, length_alter; lia|done|done].
    destruct Hb as (tss & Htemp & Hshape & Hok).
    set (stamp := set_contour_lengths _ _) in *.
    assert (Hende : (N.of_nat (length c) < uint_modulus)%N).
    { rewrite Htemp, Htemp3 in Hbound.
      rewrite !concat_app, !length_app, concat_map_map_length in Hbound.
      pose proof (length_concat_nonempty ws1 (edge_built_nonempty _ _ Hall)).
      apply Forall2_length in Hall. lia. }
    apply build_edges_contour in Hcontour; [|done|done|done].
    destruct Hcontour as (ws & Htemp2' & Hlenws & Hcd & _ & Hopen).
    rewrite Htemp2 in Htemp2'. apply app_inv_head in Htemp2' as <-.
    rewrite <- Hopen1 in Hopen. rewrite Hcl1 in Hcd, Hopen.
    exists (map (map stamp) ws1 :: tss).
    split; [by rewrite Htemp, Htemp3, <- app_assoc|].
    split.
    { constructor; [|done]. by rewrite length_map. }
    constructor; [|done]. split.
    + rewrite concat_map_map. eapply contour_distances_ext; [|exact Hcd].
      rewrite map_map. apply map_ext. intros S0. done.
    + unfold contour_open_ok.
      assert (Hsum : sum_lengths 0 (concat (removelast (map (map stamp) ws1)))
                     = B.m_open_contour_length b2).
      { rewrite Hopen, removelast_map.
        transitivity (sum_lengths 0 (concat (removelast ws1))).
        { apply sum_lengths_ext. rewrite concat_map_map, map_map. by apply map_ext. }
        case_decide as H2; [done|].
        destruct ws1 as [|w1 [|w2 ws1]]; [done|done|].
        cbn [length] in Hlenws. lia. }
      rewrite Hsum. apply Forall_fmap, Forall_true. intros w.
      apply Forall_fmap, Forall_true. intros S0. done.
Qed.

(** As [built_structure], with the vectors of [m_temp] from which [finalize]
    copies the segments. *)
Lemma built_structure_temp rs TP d' b' tp :
  build_contours 0 rs (new_TessellatedPathPrivate (N.of_nat (length rs)) TP)
    new_TessellatedPathBuildingState = Some (d', b') ->
  finalize d' b' = Some tp ->
  exists tss, structure_of rs tp tss /\ B.m_temp b' = concat tss.
Proof.
  intros Hb Hfin.
  pose proof Hb as Hb2.
  apply build_contours_spec in Hb
    as (Told & ws & ess & Htemp & HTold & Hedges & Hshape & Hranges & Hall & Hp & Hs);
    [|cbn; rewrite length_replicate; lia].
  cbn in HTold, Hedges, Hranges, Hp, Hs.
  destruct Told; [|done]. cbn in Htemp.
  rewrite Nat2N.id in Hedges.
  rewrite (drop_ge (replicate _ _)) in Hedges by (rewrite length_replicate; lia).
  rewrite app_nil_r, take_0 in Hedges. cbn [app] in Hedges.
  apply finalize_spec in Hfin as (es & E & Hes & HE & Hend & ->).
  rewrite Hs, Htemp in Hend. cbn in Hend.
  assert (Hne : concat ess <> []).
  { rewrite last_Some in HE. destruct HE as [es' ->].
    rewrite Hedges, last_Some in Hes. destruct Hes as [ess' ->].
    rewrite concat_app. cbn. rewrite app_nil_r, app_assoc. by destruct (_ ++ es'). }
  destruct (ranges_chain_to _ _ _ _ Hranges Hne) as (Hlt & E' & HE' & Hend').
  rewrite Hedges in Hes. rewrite (last_concat _ _ _ Hes HE) in HE'.
  injection HE' as <-. rewrite Hend in Hend'.
  destruct (Forall2_concat_inv_r _ _ _ Hall) as (tss & -> & Htss).
  exists tss. split; [|done]. unfold structure_of, segment_data. cbn.
  rewrite Hs, Htemp. cbn.
  split; [done|]. split; [done|].
  split; [rewrite Hedges; by eapply Forall2_shape_trans|].
  split; [by rewrite Hedges, Hend'|].
  split; [by rewrite Hend'|].
  intros Hrs.
  apply build_contours_closed in Hb2; [|cbn; rewrite length_replicate; lia|done|].
  - destruct Hb2 as (tss2 & Htemp2 & Hshape2 & Hok). cbn in Htemp2.
    rewrite Htemp in Htemp2.
    rewrite (concat_inj_shape tss tss2 rs); [done| |done|done].
    clear -Htss. induction Htss as [|ts c tss rs Hts _ IH]; constructor; [|done].
    by eapply Forall2_length.
  - by rewrite Htemp, Hend'.
Qed.

Lemma built_fields rs TP tp :
  built_from rs TP tp -> Forall (fun c => c <> []) rs ->
  exists tss, structure_of rs tp tss /\ Forall contour_fields_ok tss.
Proof.
  intros (d' & b' & Hb & Hfin) Hrs.
  destruct (built_structure_temp _ _ _ _ _ Hb Hfin) as (tss & Hst & Htemp).
  exists tss. split; [done|].
  pose proof Hst as (_ & Htss & _ & _ & Hbound & _).
  apply build_contours_fields in Hb; [|cbn; rewrite length_replicate; lia|done|].
  - destruct Hb as (tss2 & Htemp2 & Hshape2 & Hok). cbn in Htemp2.
    rewrite Htemp in Htemp2.
    rewrite (concat_inj_shape tss tss2 rs); [done| |done|done].
    clear -Htss. induction Htss as [|ts c tss rs Hts _ IH]; constructor; [|done].
    by eapply Forall2_length.
  - by rewrite Htemp.
Qed.
End contours.

(** ** Contour lengths and the layout of the segment data *)

Lemma structure_results_nonempty rs tp tss :
  structure_of rs tp tss ->
  Forall (fun es => es <> []) (P.m_edges tp) ->
  Forall (fun c => c <> []) rs.
Proof.
  intros (_ & Htss & Hshape & _) Hne. revert rs Htss.
  induction Hshape as [|es ts ess tss Hl _ IH]; intros rs Htss.
  - apply Forall2_nil_inv_l in Htss as ->. constructor.
  - apply Forall2_cons_inv_l in Htss as (c & rs' & Hc & Htss & ->).
    inversion_clear Hne as [|? ? Hes Hne']. constructor; [|by apply IH].
    apply Forall2_length in Hc. intros ->. destruct es; [done|].
    cbn in Hl. destruct ts; [done|]. done.
Qed.

Lemma structure_contour_edges rs tp tss o ts :
  structure_of rs tp tss ->
  tss !! o = Some ts -> contour_edges_data tp o = Some ts.
Proof.
  intros Hst Hts. pose proof Hst as (_ & _ & Hshape & _).
  destruct (Forall2_lookup_shape_r _ _ _ _ Hshape Hts) as (es & Hes & Hlen).
  unfold contour_edges_data. rewrite Hes. cbn.
  apply mapM_Some_2, Forall2_same_length_lookup_2.
  { by rewrite length_seq. }
  intros i e w Hi Hw. apply lookup_seq in Hi as [-> Hi]. cbn.
  destruct (lookup_lt_is_Some_2 es i Hi) as [E HE].
  destruct (structure_edge _ _ _ _ _ _ _ Hst Hes HE)
    as (ts' & w' & Hts' & Hw' & _ & _ & Hdata).
  rewrite Hts in Hts'. injection Hts' as <-. rewrite Hw in Hw'. by injection Hw' as <-.
Qed.

Lemma contour_edges_data_inv rs tp tss o ts :
  structure_of rs tp tss ->
  contour_edges_data tp o = Some ts -> tss !! o = Some ts.
Proof.
  intros Hst Hdata. pose proof Hst as (_ & _ & Hshape & _).
  assert (Hes : exists es, P.m_edges tp !! o = Some es).
  { unfold contour_edges_data in Hdata.
    destruct (P.m_edges tp !! o) as [es|]; [by exists es|done]. }
  destruct Hes as [es Hes].
  destruct (Forall2_lookup_shape _ _ _ _ Hshape Hes) as (ts' & Hts' & _).
  rewrite (structure_contour_edges _ _ _ _ _ Hst Hts') in Hdata. by injection Hdata as <-.
Qed.

Section contour_data.
Context `{FM : FloatMath} `{PI : PathInterface}.

Lemma constructed_fields tp :
  constructed tp ->
  Forall (fun es => es <> []) (P.m_edges tp) ->
  P.m_edges tp = []
  \/ exists rs tss,
       structure_of rs tp tss /\ Forall contour_closed_ok tss
       /\ Forall contour_fields_ok tss.
Proof.
  intros [[Hnil _]|(rs & TP & Hb)]%constructed_cases Hne; [by left|right].
  destruct (built_structure _ _ _ Hb) as (tss0 & Hst0 & _).
  pose proof (structure_results_nonempty _ _ _ Hst0 Hne) as Hrs.
  destruct (built_fields _ _ _ Hb Hrs) as (tss & Hst & Hok).
  exists rs, tss. split; [done|]. split; [|done].
  destruct Hst as (_ & _ & _ & _ & _ & Hclosed). by apply Hclosed.
Qed.

(** X10: in a tessellated path that one of the constructors built and whose
    contours all have an edge, the first segment of a contour has
    [m_distance_from_contour_start] zero, and each further segment of the
    contour has that of the segment before it plus the length of the segment
    before it, also from one edge to the next. *)
Theorem contour_start_distances tp :
  constructed tp ->
  Forall (fun es => es <> []) (P.m_edges tp) ->
  forall o l,
    contour_segment_data tp o = Some l ->
    (forall S0, l !! 0%nat = Some S0 -> m_distance_from_contour_start S0 = 0)
    /\ (forall i S0 T0,
          l !! i = Some S0 -> l !! (i + 1)%nat = Some T0 ->
          m_distance_from_contour_start T0
          = m_distance_from_contour_start S0 + m_length S0).
Proof.
  intros Hc Hne o l Hl.
  assert (Hes : exists es, P.m_edges tp !! o = Some es).
  { unfold contour_segment_data, contour_range in Hl.
    destruct (P.m_edges tp !! o) as [es|]; [by exists es|done]. }
  destruct Hes as [es Hes].
  destruct (constructed_fields tp Hc Hne) as [Hnil|(rs & tss & Hst & _ & Hok)].
  { by rewrite Hnil in Hes. }
  pose proof Hst as (_ & _ & Hshape & _).
  destruct (Forall2_lookup_shape _ _ _ _ Hshape Hes) as (ts & Hts & Hlen).
  assert (Hes_ne : es <> []).
  { rewrite list.Forall_forall in Hne. apply Hne. by eapply list_elem_of_lookup_2. }
  assert (Hts_ne : ts <> []) by (intros ->; by destruct es).
  rewrite (structure_contour _ _ _ _ _ Hst Hts Hts_ne) in Hl. injection Hl as <-.
  rewrite list.Forall_forall in Hok.
  destruct (Hok ts ltac:(by eapply list_elem_of_lookup_2)) as [Hcd _].
  by apply contour_distances_lookup.
Qed.

(** X11: in a tessellated path that one of the constructors built and whose
    contours all have an edge, every segment of a contour has as
    [m_open_contour_length] the sum of the lengths of the segments of all
    the edges of the contour but the last one, added in order, and as
    [m_closed_contour_length] that sum continued over the segments of the
    last edge. *)
Theorem open_contour_length tp :
  constructed tp ->
  Forall (fun es => es <> []) (P.m_edges tp) ->
  forall o ts S0,
    contour_edges_data tp o = Some ts -> S0 ∈ concat ts ->
    m_open_contour_length S0 = sum_lengths 0 (concat (removelast ts))
    /\ m_closed_contour_length S0
       = sum_lengths (m_open_contour_length S0) (List.last ts []).
Proof.
  intros Hc Hne o ts S0 Hdata Hin.
  destruct (constructed_fields tp Hc Hne) as [Hnil|(rs & tss & Hst & Hclosed & Hok)].
  { unfold contour_edges_data in Hdata. by rewrite Hnil in Hdata. }
  pose proof (contour_edges_data_inv _ _ _ _ _ Hst Hdata) as Hts.
  rewrite list.Forall_forall in Hok, Hclosed.
  assert (Hin_ts : ts ∈ tss) by (by eapply list_elem_of_lookup_2).
  destruct (Hok ts Hin_ts) as [_ Hopen]. specialize (Hclosed ts Hin_ts).
  apply elem_of_concat_inv in Hin as (w & Hw & Hin).
  unfold contour_open_ok in Hopen. unfold contour_closed_ok in Hclosed.
  rewrite list.Forall_forall in Hopen, Hclosed.
  specialize (Hopen w Hw). specialize (Hclosed w Hw).
  rewrite list.Forall_forall in Hopen, Hclosed.
  specialize (Hopen S0 Hin). specialize (Hclosed S0 Hin).
  split; [done|]. rewrite Hclosed, Hopen.
  assert (Hts_ne : ts <> []) by (intros ->; by apply elem_of_nil in Hw).
  rewrite (app_removelast_last [] Hts_ne) at 1.
  rewrite concat_app, sum_lengths_app. cbn. by rewrite app_nil_r.
Qed.

(** X12: for a tessellated path that one of the constructors built,
    [edge_segment_data] returns for every edge of every contour, and
    [segment_data()] is the segments of the edges put one after the other,
    contour by contour and edge by edge; [contour_segment_data] returns for
    a contour that has an edge the segments of its edges in order. *)
Theorem segment_data_is_concatenation tp :
  constructed tp ->
  exists tss,
    mapM (contour_edges_data tp) (seq 0%nat (number_contours tp)) = Some tss
    /\ segment_data tp = concat (concat tss)
    /\ forall o ts,
         tss !! o = Some ts -> ts <> [] ->
         contour_segment_data tp o = Some (concat ts).
Proof.
  intros [[Hnil Hseg]|(rs & TP & Hb)]%constructed_cases.
  { exists []. unfold number_contours. rewrite Hnil, Hseg. done. }
  apply built_structure in Hb as (tss & Hst & _). exists tss.
  pose proof Hst as (Hseg & _ & Hshape & _).
  split; [|split; [done|]].
  - apply mapM_Some_2, Forall2_same_length_lookup_2.
    { rewrite length_seq. unfold number_contours. by eapply Forall2_length. }
    intros i o ts Hi Hts. apply lookup_seq in Hi as [-> _]. cbn.
    by eapply structure_contour_edges.
  - intros o ts Hts Hne. by eapply structure_contour.
Qed.
End contour_data.

(** ** The angles of the pieces of an arc *)

Section arc_angles.
Context `{FM : FloatMath}.

Lemma angles_linked_lookup rng from l :
  angles_linked rng from l ->
  forall i S0 T0,
    l !! i = Some S0 -> l !! (i + 1)%nat = Some T0 ->
    m_begin (m_arc_angle T0) = m_end (m_arc_angle S0)
    \/ (In (m_begin (m_arc_angle T0)) crit_angles
        /\ strictly_inside rng (m_begin (m_arc_angle T0))
        /\ m_tangent_with_predecessor T0 = false).
Proof.
  revert from. induction l as [|S1 l IH]; intros from Hl i S0 T0 Hi Hj; [done|].
  destruct Hl as [_ Hl]. destruct i as [|i].
  - cbn in Hi, Hj. injection Hi as <-. destruct l as [|T1 l]; [done|].
    cbn in Hj. injection Hj as <-. by destruct Hl.
  - cbn in Hi, Hj. by eapply IH.
Qed.

(** X13: a call of [add_arc_segment] whose numbers of segments fit an
    [unsigned int] appends arc segments that all have the center and the
    radius of the call.  The angle range of the first begins at
    [arc_angle.m_begin]; that of each further one begins at the angle at
    which the one before it ends or, where the arc was cut, at a critical
    angle strictly inside the angle range of the arc, and then the segment
    is not marked as tangent with its predecessor.  This holds whatever the
    rounding is. *)
Theorem add_arc_segment_angles start end_ center radius arc_angle d :
  arc_pieces_fit arc_angle ->
  exists new,
    add_arc_segment start end_ center radius arc_angle d = d ++ new
    /\ Forall (arc_of center radius) new
    /\ (forall S0, new !! 0%nat = Some S0 ->
          m_begin (m_arc_angle S0) = m_begin arc_angle)
    /\ (forall i S0 T0,
          new !! i = Some S0 -> new !! (i + 1)%nat = Some T0 ->
          m_begin (m_arc_angle T0) = m_end (m_arc_angle S0)
          \/ (In (m_begin (m_arc_angle T0)) crit_angles
              /\ strictly_inside arc_angle (m_begin (m_arc_angle T0))
              /\ m_tangent_with_predecessor T0 = false)).
Proof.
  intros Hfit.
  destruct (add_arc_segment_spec start end_ center radius arc_angle d Hfit)
    as (new & Heq & Hall & _ & _ & _ & _ & Hfirst & Hlink & _).
  exists new. split; [done|]. split; [done|]. split; [done|].
  by eapply angles_linked_lookup.
Qed.
End arc_angles.

(** ** The contents of the refiner *)

Section refiner_contents.
Context `{FM : FloatMath} `{PI : PathInterface}.

Lemma contents_alter (g : list PerEdge.t -> list PerEdge.t) (o : nat)
    (cs : list PerContour.t) :
  map PerContour.m_edges (alter (fun c => PerContour.mk (g (PerContour.m_edges c))) o cs)
  = alter g o (map PerContour.m_edges cs).
Proof. revert o. induction cs as [|c cs IH]; intros [|o]; cbn; [done|done|done|]. by rewrite IH. Qed.

Lemma Path_ctor_edge_loop_contents interps :
  forall o e ende d b cs d' b' rc' es,
    Path_ctor_edge_loop o e ende interps d b (Some cs) = Some (d', b', rc') ->
    map PerContour.m_edges cs !! o = Some es ->
    (e + length interps <= length es)%nat ->
    exists cs',
      rc' = Some cs'
      /\ map PerContour.m_edges cs'
         = <[o := take e es ++ map (path_refiner_edge (P.m_params d)) interps
                   ++ drop (e + length interps) es]> (map PerContour.m_edges cs).
Proof.
  induction interps as [|it rest IH]; intros o e ende d b cs d' b' rc' es Hl Ho Hle.
  - cbn in Hl. injection Hl as <- <- <-. exists cs. split; [done|]. cbn.
    by rewrite Nat.add_0_r, take_drop, list_insert_id.
  - cbn [Path_ctor_edge_loop] in Hl.
    destruct (produce_tessellation it (P.m_params d)) as [[ts calls] tmp] eqn:Hprod.
    set (d1 := match ts with Some _ => _ | None => d end) in Hl.
    assert (Hp1 : P.m_params d1 = P.m_params d) by (subst d1; by destruct ts).
    destruct (add_edge d1 b o e _ tmp _) as [[d2 b2]|] eqn:Hadd; [|done].
    cbn in Hl.
    apply add_edge_spec in Hadd as (_ & _ & Hp2 & _).
    cbn [length] in Hle.
    eapply (IH _ _ _ _ _ _ _ _ _ (<[e := PerEdge.mk ts (Some it)]> es)) in Hl; cycle 1.
    { rewrite contents_alter, list_lookup_alter_eq, Ho. done. }
    { rewrite length_insert. lia. }
    destruct Hl as (cs' & -> & Hcs'). exists cs'. split; [done|].
    rewrite Hcs', contents_alter. cbn [P.m_params P.set_m_edges]. rewrite Hp2, Hp1.
    rewrite (alter_insert _ o _ es) by done.
    rewrite list_insert_insert_eq. f_equal. cbn [map length].
    unfold path_refiner_edge at 2. rewrite Hprod. cbn [fst].
    apply insert_middle; [lia|by rewrite length_map].
Qed.

Lemma Path_ctor_contour_loop_contents contours :
  forall o d b cs d' b' rc',
    Path_ctor_contour_loop o contours d b (Some cs) = Some (d', b', rc') ->
    (o + length contours <= length cs)%nat ->
    exists cs',
      rc' = Some cs'
      /\ map PerContour.m_edges cs'
         = take o (map PerContour.m_edges cs)
           ++ map (map (path_refiner_edge (P.m_params d))) contours
           ++ drop (o + length contours) (map PerContour.m_edges cs).
Proof.
  induction contours as [|c rest IH]; intros o d b cs d' b' rc' Hl Hlen.
  - cbn in Hl. injection Hl as <- <- <-. exists cs. split; [done|]. cbn.
    by rewrite Nat.add_0_r, take_drop.
  - cbn [Path_ctor_contour_loop] in Hl. cbn [length] in Hlen.
    unfold number_points in Hl. rewrite Nat2N.id in Hl.
    destruct (start_contour d b o (N.of_nat (length c))) as [d1 b1] eqn:Hstart.
    pose proof (start_contour_spec _ _ _ _ _ _ Hstart) as (_ & Hp1 & _).
    cbn [fmap option_fmap option_map] in Hl.
    set (cs1 := alter _ o cs) in Hl.
    destruct (Path_ctor_edge_loop o 0 _ c d1 b1 (Some cs1)) as [[[d2 b2] rc2]|] eqn:Hedges;
      [|done].
    cbn in Hl.
    destruct (end_contour b2) as [b3|]; [|done]. cbn in Hl.
    assert (Hlo : (o < length (map PerContour.m_edges cs))%nat)
      by (rewrite length_map; lia).
    destruct (lookup_lt_is_Some_2 _ _ Hlo) as [es_old Hold].
    pose proof (Path_ctor_edge_loop_build _ _ _ _ _ _ _ _ _ _ Hedges) as [Hbuild _].
    apply build_edges_params in Hbuild.
    eapply (Path_ctor_edge_loop_contents _ _ _ _ _ _ _ _ _ _
              (resize (length c) default_PerEdge es_old)) in Hedges; cycle 1.
    { subst cs1. by rewrite contents_alter, list_lookup_alter_eq, Hold. }
    { rewrite length_resize. lia. }
    destruct Hedges as (cs2 & -> & Hcs2).
    rewrite take_0, drop_ge, app_nil_r in Hcs2 by (rewrite length_resize; lia).
    cbn [app] in Hcs2.
    assert (Hl2 : length cs2 = length cs).
    { apply (f_equal length) in Hcs2. subst cs1.
      by rewrite length_insert, !length_map, length_alter in Hcs2. }
    apply IH in Hl; [|lia]. destruct Hl as (cs' & -> & Hcs').
    exists cs'. split; [done|]. rewrite Hcs', Hcs2, Hbuild, Hp1. subst cs1.
    rewrite contents_alter.
    assert (Hlo' : (o < length (alter (resize (length c) default_PerEdge) o
                                  (map PerContour.m_edges cs)))%nat)
      by (rewrite length_alter; lia).
    rewrite (take_S_r _ _ (map (path_refiner_edge (P.m_params d)) c))
      by (by apply list_lookup_insert_eq).
    rewrite take_insert_ge, take_alter_ge by lia.
    rewrite drop_insert_lt, drop_alter_lt by lia.
    rewrite <- !app_assoc. cbn.
    by replace (o + S (length rest))%nat with (S (o + length rest)) by lia.
Qed.

Lemma contents_eq (cs : list PerContour.t) (ess : list (list PerEdge.t)) :
  map PerContour.m_edges cs = ess -> cs = map PerContour.mk ess.
Proof.
  intros <-. rewrite map_map. induction cs as [|[es] cs IH]; [done|]. cbn. by f_equal.
Qed.

(** X14: the constructor from a [Path] that has a contour, called with a
    place for a refiner, returns a refiner whose [tessellated_path()] is the
    constructed path and that holds, for every edge of every contour of the
    [Path] in order, the interpolator of the edge and the tessellation state
    that its [produce_tessellation] returned. *)
Theorem refiner_of_path (input : Path) TP tp ref :
  TessellatedPath_from_Path input TP true = Some (tp, ref) ->
  input <> [] ->
  exists r,
    ref = Some r
    /\ tessellated_path r = tp
    /\ RefinerPrivate.m_contours r
       = map (fun contour => PerContour.mk (map (path_refiner_edge TP) contour)) input.
Proof.
  unfold TessellatedPath_from_Path, Path_number_contours. intros H Hne.
  destruct (N.of_nat (length input) =? 0)%N eqn:Hz.
  { apply N.eqb_eq in Hz. by destruct input. }
  destruct (Path_ctor_contour_loop 0 input _ _ _) as [[[d1 b1] r1]|] eqn:Hloop; [|done].
  cbn in H. destruct (finalize d1 b1) as [d2|] eqn:Hfin; [|done]. cbn in H.
  injection H as <- <-.
  apply Path_ctor_contour_loop_contents in Hloop; [|rewrite length_replicate; lia].
  destruct Hloop as (cs' & -> & Hcs'). cbn [P.m_params new_TessellatedPathPrivate] in Hcs'.
  eexists. split; [done|]. split; [done|]. cbn.
  rewrite take_0 in Hcs'. cbn [app] in Hcs'.
  rewrite drop_ge, app_nil_r in Hcs' by (rewrite length_map, length_replicate; lia).
  apply contents_eq in Hcs'. by rewrite Hcs', map_map.
Qed.

Lemma Refiner_ctor_edge_loop_states edges :
  forall o e ende d b d' b' edges',
    Refiner_ctor_edge_loop o e ende edges d b = Some (d', b', edges') ->
    edges' = map (resumed_edge (P.m_params d)) edges.
Proof.
  induction edges as [|edge rest IH]; intros o e ende d b d' b' edges' Hl.
  - cbn in Hl. by injection Hl as <- <- <-.
  - cbn [Refiner_ctor_edge_loop] in Hl.
    destruct (PerEdge.m_interpolator edge) as [it|] eqn:Hit; [|done]. cbn in Hl.
    destruct (PerEdge.m_tess_state edge) as [ts|] eqn:Hts.
    + destruct (resume_tessellation ts (P.m_params d)) as [[ts' calls] tmp] eqn:Hres.
      destruct (add_edge _ b o e _ tmp _) as [[d2 b2]|] eqn:Hadd; [|done]. cbn in Hl.
      destruct (Refiner_ctor_edge_loop o (S e) ende rest _ b2)
        as [[[d4 b4] rest']|] eqn:Hrec; [|done].
      cbn in Hl. injection Hl as <- <- <-.
      apply add_edge_spec in Hadd as (_ & _ & Hp2 & _).
      apply IH in Hrec. cbn [P.m_params P.set_m_edges P.set_m_max_recursion] in Hrec, Hp2.
      rewrite Hp2 in Hrec. rewrite Hrec. cbn [map]. f_equal.
      unfold resumed_edge. by rewrite Hts, Hres, Hit.
    + destruct (produce_tessellation it (P.m_params d)) as [[ts' calls] tmp] eqn:Hres.
      destruct (add_edge _ b o e _ tmp _) as [[d2 b2]|] eqn:Hadd; [|done]. cbn in Hl.
      destruct (Refiner_ctor_edge_loop o (S e) ende rest _ b2)
        as [[[d4 b4] rest']|] eqn:Hrec; [|done].
      cbn in Hl. injection Hl as <- <- <-.
      apply add_edge_spec in Hadd as (_ & _ & Hp2 & _).
      apply IH in Hrec. cbn [P.m_params P.set_m_edges] in Hrec, Hp2.
      rewrite Hp2 in Hrec. rewrite Hrec. cbn [map]. f_equal.
      unfold resumed_edge. by rewrite Hts.
Qed.

Lemma Refiner_ctor_contour_loop_states contours :
  forall o d b d' b' contours',
    Refiner_ctor_contour_loop o contours d b = Some (d', b', contours') ->
    contours'
    = map (fun c => PerContour.mk (map (resumed_edge (P.m_params d)) (PerContour.m_edges c)))
        contours.
Proof.
  induction contours as [|c rest IH]; intros o d b d' b' contours' Hl.
  - cbn in Hl. by injection Hl as <- <- <-.
  - cbn [Refiner_ctor_contour_loop] in Hl.
    destruct (start_contour d b o _) as [d1 b1] eqn:Hstart.
    pose proof (start_contour_spec _ _ _ _ _ _ Hstart) as (_ & Hp1 & _).
    destruct (Refiner_ctor_edge_loop o 0 _ _ d1 b1) as [[[d2 b2] edges']|] eqn:Hedges;
      [|done].
    cbn in Hl. destruct (end_contour b2) as [b3|] eqn:Hend; [|done]. cbn in Hl.
    destruct (Refiner_ctor_contour_loop (S o) rest d2 b3)
      as [[[d4 b4] rest']|] eqn:Hrec; [|done].
    cbn in Hl. injection Hl as <- <- <-.
    pose proof (Refiner_ctor_edge_loop_build _ _ _ _ _ _ _ _ _ Hedges) as (r & Hb & _).
    apply build_edges_params in Hb.
    apply Refiner_ctor_edge_loop_states in Hedges. apply IH in Hrec.
    rewrite Hb, Hp1 in Hrec. rewrite Hp1 in Hedges. cbn [map]. by rewrite Hedges, Hrec.
Qed.

(** X15: when [refine_tessellation] is called for a distance below
    [max_distance()] of the held path and returns, the refiner has the same
    contours, edges and interpolators as before, and every tessellation
    state that it held has been resumed once, with the parameters of the new
    path; an edge without a state is left as it was. *)
Theorem refined_states r md add r' :
  refine_tessellation r md add = Some r' ->
  Qltb md (max_distance (tessellated_path r)) = true ->
  RefinerPrivate.m_contours r'
  = map (fun c => PerContour.mk
                    (map (resumed_edge (refiner_params r md add)) (PerContour.m_edges c)))
      (RefinerPrivate.m_contours r).
Proof.
  unfold refine_tessellation, max_distance, tessellated_path. intros H Hlt.
  rewrite Hlt in H.
  destruct (TessellatedPath_from_Refiner r md add) as [[p cs]|] eqn:Hc; [|done].
  cbn in H. injection H as <-. cbn.
  unfold TessellatedPath_from_Refiner in Hc. fold (refiner_params r md add) in Hc.
  destruct (RefinerPrivate.m_contours r) as [|c0 cs0] eqn:Hcs.
  { by injection Hc as <- <-. }
  rewrite <- Hcs in *.
  destruct (Refiner_ctor_contour_loop 0 _ _ _) as [[[d1 b1] cs']|] eqn:Hloop; [|done].
  cbn in Hc. destruct (finalize d1 b1) as [d2|]; [|done]. cbn in Hc.
  injection Hc as <- <-.
  by apply Refiner_ctor_contour_loop_states in Hloop.
Qed.
End refiner_contents.

(** ** An edge without segments *)

Section assertion.
Context `{FM : FloatMath} `{PI : PathInterface}.

(** X16: when the interpolator of some edge of the [Path] adds no segment
    to the storage, the constructor does not return a path: the assertion
    [needed > 0u] of [add_edge] fails, or one before it. *)
Theorem empty_edge_fails (input : Path) TP want_ref o (contour : PathContour) e it :
  input !! o = Some contour -> contour !! e = Some it ->
  run_storage_calls (snd (fst (produce_tessellation it TP))) [] = [] ->
  TessellatedPath_from_Path input TP want_ref = None.
Proof.
  intros Ho He Hempty.
  destruct (TessellatedPath_from_Path input TP want_ref) as [[tp ref]|] eqn:Hc; [|done].
  exfalso.
  assert (Hof : edge_result_of tp o e (path_edge_result TP it)).
  { left. by exists input, TP, want_ref, ref, contour, it. }
  apply edge_result_built in Hof as (rs & TP' & c & Hb & Hrs & Hr).
  apply built_structure in Hb as (tss & Hst & _).
  destruct (structure_result_edge _ _ _ _ _ _ _ Hst Hrs Hr) as (l & _ & (Hg & Hne & _) & _).
  destruct (produce_tessellation it TP) as [[ts calls] tmp] eqn:Hprod.
  rewrite (path_edge_result_eq _ _ _ _ _ Hprod) in Hg.
  cbn [res_work_room] in Hg. cbn [fst snd] in Hempty.
  rewrite Hempty in Hg. by destruct l.
Qed.
End assertion.

(** ** The further properties on the examples *)

(** The path of the third example, which has an arc. *)
Lemma has_arcs_iff_arc_segment_witness :
  has_arcs example_arc_tp = true
  <-> exists S0, S0 ∈ segment_data example_arc_tp /\ m_type S0 = arc_segment.
Proof.
  apply (has_arcs_iff_arc_segment (FM := example_math) (PI := example_interface)).
  left. exists example_arc_path, example_params, false, None. vm_compute. reflexivity.
Defined.

(** The second example: the curved edge has two segments, the most of any
    edge. *)
Lemma max_segments_is_maximum_witness :
  max_segments example_two_contours_tp = 2%N
  /\ (forall o e l,
        edge_segment_data example_two_contours_tp o e = Some l ->
        (N.of_nat (length l) <= max_segments example_two_contours_tp)%N).
Proof.
  split; [reflexivity|].
  apply (max_segments_is_maximum (FM := example_math) (PI := example_interface)).
  left. exists example_two_contours, example_params, true,
    (Some example_two_contours_refiner). vm_compute. reflexivity.
Defined.

(** The second example: the curved edge reports the distance 1. *)
Lemma max_distance_is_maximum_witness :
  max_distance example_two_contours_tp = 1
  /\ 0 <= max_distance example_two_contours_tp
  /\ res_max_distance example_curve_result <= max_distance example_two_contours_tp.
Proof.
  split; [reflexivity|].
  destruct (max_distance_is_maximum (FM := example_math) (PI := example_interface)
              example_two_contours_tp) as (H0 & Hle & _).
  { left. exists example_two_contours, example_params, true,
      (Some example_two_contours_refiner). vm_compute. reflexivity. }
  split; [exact H0|]. apply (Hle 1%nat 1%nat). left.
  exists example_two_contours, example_params, true, (Some example_two_contours_refiner),
    [ example_flat (mk_vec2 2 0) (mk_vec2 3 0);
      example_curve (mk_vec2 3 0) (mk_vec2 3 1) (mk_vec2 2 1);
      example_flat (mk_vec2 2 1) (mk_vec2 2 0) ],
    (example_curve (mk_vec2 3 0) (mk_vec2 3 1) (mk_vec2 2 1)).
  repeat split; vm_compute; reflexivity.
Defined.

(** The curved edge of the second example has a state of depth 1. *)
Lemma max_recursion_bounds_depths_witness :
  res_recursion example_curve_result = Some 1%N
  /\ (1 <= max_recursion example_two_contours_tp)%N.
Proof.
  split; [reflexivity|].
  apply (max_recursion_bounds_depths (FM := example_math) (PI := example_interface)
           example_two_contours_tp 1 1 example_curve_result 1%N); [|reflexivity].
  left.
  exists example_two_contours, example_params, true, (Some example_two_contours_refiner),
    [ example_flat (mk_vec2 2 0) (mk_vec2 3 0);
      example_curve (mk_vec2 3 0) (mk_vec2 3 1) (mk_vec2 2 1);
      example_flat (mk_vec2 2 1) (mk_vec2 2 0) ],
    (example_curve (mk_vec2 3 0) (mk_vec2 3 1) (mk_vec2 2 1)).
  repeat split; vm_compute; reflexivity.
Defined.

(** The second example and its refinement to the distance 1/2. *)
Lemma tessellation_parameters_kept_witness :
  tessellation_parameters example_two_contours_tp = example_params
  /\ TessellationParams.m_max_distance
       (tessellation_parameters (tessellated_path example_refined)) = 1 # 2
  /\ TessellationParams.m_allow_arcs
       (tessellation_parameters (tessellated_path example_refined))
     = TessellationParams.m_allow_arcs
         (tessellation_parameters (tessellated_path example_two_contours_refiner))
  /\ TessellationParams.m_max_recursion
       (tessellation_parameters (tessellated_path example_refined))
     = uadd (max_recursion (tessellated_path example_two_contours_refiner)) 1.
Proof.
  destruct (tessellation_parameters_kept (FM := example_math) (PI := example_interface))
    as [Hpath Href].
  split.
  - apply (Hpath example_two_contours example_params true example_two_contours_tp
             (Some example_two_contours_refiner)). vm_compute. reflexivity.
  - apply (Href example_two_contours_refiner (1 # 2) 1%N
             (tessellated_path example_refined)
             (RefinerPrivate.m_contours example_refined)).
    vm_compute. reflexivity.
Defined.

(** The refiner of the second example, refined to the distance 1/2. *)
Lemma refine_tessellation_settles_witness :
  max_distance (tessellated_path example_refined) <= 1 # 2
  /\ forall add',
       refine_tessellation (H := example_math) (H0 := example_interface)
         example_refined (1 # 2) add' = Some example_refined.
Proof.
  apply (refine_tessellation_settles (FM := example_math) (PI := example_interface)
           example_two_contours_refiner (1 # 2) 1%N example_refined).
  - vm_compute. reflexivity.
  - vm_compute. discriminate.
  - intros o c e edge res Hc He Hres.
    destruct o as [|[|o]]; vm_compute in Hc; try discriminate;
      injection Hc as <-;
      (destruct e as [|[|[|[|e]]]]; vm_compute in He; try discriminate;
       injection He as <-; vm_compute in Hres; injection Hres as <-;
       vm_compute; discriminate).
Defined.

(** The curved edge of the second example has the range from 5 to 7. *)
Lemma edge_ranges_nonempty_witness :
  (5 < 7)%N
  /\ (7 <= N.of_nat (length (segment_data example_two_contours_tp)))%N
  /\ exists l,
       edge_segment_data example_two_contours_tp 1 1 = Some l /\ l <> []
       /\ N.of_nat (length l) = (7 - 5)%N.
Proof.
  apply (edge_ranges_nonempty (FM := example_math) (PI := example_interface)
           example_two_contours_tp 1 1 (mk_range 5%N 7%N)).
  - left. exists example_two_contours, example_params, true,
      (Some example_two_contours_refiner). vm_compute. reflexivity.
  - vm_compute. reflexivity.
Defined.

(** The second example with an interface for which the curve continues
    the edge before it: the curved edge continues, the edge after it starts
    a new edge. *)
Lemma edge_type_of_result_witness :
  TessellatedPath_edge_type example_typed_tp 1 1 = Some continues_edge
  /\ TessellatedPath_edge_type example_typed_tp 1 2 = Some starts_new_edge.
Proof.
  split.
  - apply (edge_type_of_result (FM := example_math) (PI := example_typed_interface)
             example_typed_tp 1 1
             (path_edge_result (H := example_math) (H0 := example_typed_interface)
                example_params
                (example_curve (mk_vec2 3 0) (mk_vec2 3 1) (mk_vec2 2 1)))).
    left.
    exists example_two_contours, example_params, false, None,
      [ example_flat (mk_vec2 2 0) (mk_vec2 3 0);
        example_curve (mk_vec2 3 0) (mk_vec2 3 1) (mk_vec2 2 1);
        example_flat (mk_vec2 2 1) (mk_vec2 2 0) ],
      (example_curve (mk_vec2 3 0) (mk_vec2 3 1) (mk_vec2 2 1)).
    repeat split; vm_compute; reflexivity.
  - apply (edge_type_of_result (FM := example_math) (PI := example_typed_interface)
             example_typed_tp 1 2
             (path_edge_result (H := example_math) (H0 := example_typed_interface)
                example_params (example_flat (mk_vec2 2 1) (mk_vec2 2 0)))).
    left.
    exists example_two_contours, example_params, false, None,
      [ example_flat (mk_vec2 2 0) (mk_vec2 3 0);
        example_curve (mk_vec2 3 0) (mk_vec2 3 1) (mk_vec2 2 1);
        example_flat (mk_vec2 2 1) (mk_vec2 2 0) ],
      (example_flat (mk_vec2 2 1) (mk_vec2 2 0)).
    repeat split; vm_compute; reflexivity.
Defined.

(** The segments of the third example, a line and the pieces of an arc. *)
Lemma stored_local_values_witness :
  segment_data example_arc_tp <> []
  /\ Forall (fun S0 => compute_local_segment_values (H := example_math) S0 = S0)
       (segment_data example_arc_tp).
Proof.
  split; [vm_compute; discriminate|].
  apply list.Forall_forall. intros S0 HS0.
  apply (stored_local_values (FM := example_math) (PI := example_interface)
           example_arc_tp S0); [|exact HS0].
  left. exists example_arc_path, example_params, false, None. vm_compute. reflexivity.
Defined.

(** The four segments of the second contour of the second example. *)
Lemma contour_start_distances_witness :
  exists l,
    contour_segment_data example_two_contours_tp 1 = Some l
    /\ length l = 4%nat
    /\ (forall S0, l !! 0%nat = Some S0 -> m_distance_from_contour_start S0 = 0)
    /\ (forall i S0 T0,
          l !! i = Some S0 -> l !! (i + 1)%nat = Some T0 ->
          m_distance_from_contour_start T0
          = m_distance_from_contour_start S0 + m_length S0).
Proof.
  destruct (contour_segment_data example_two_contours_tp 1) as [l|] eqn:Hl;
    [|vm_compute in Hl; discriminate].
  exists l. split; [reflexivity|]. split.
  { vm_compute in Hl. injection Hl as <-. reflexivity. }
  apply (contour_start_distances (FM := example_math) (PI := example_interface)
           example_two_contours_tp) with (o := 1%nat).
  - left. exists example_two_contours, example_params, true,
      (Some example_two_contours_refiner). vm_compute. reflexivity.
  - vm_compute. repeat (apply List.Forall_cons; [discriminate|]). apply List.Forall_nil.
  - exact Hl.
Defined.

(** The three edges of the second contour of the second example. *)
Lemma open_contour_length_witness :
  exists ts,
    contour_edges_data example_two_contours_tp 1 = Some ts
    /\ length ts = 3%nat
    /\ Forall (fun S0 =>
         m_open_contour_length S0 = sum_lengths 0 (concat (removelast ts))
         /\ m_closed_contour_length S0
            = sum_lengths (m_open_contour_length S0) (List.last ts [])) (concat ts).
Proof.
  destruct (contour_edges_data example_two_contours_tp 1) as [ts|] eqn:Hts;
    [|vm_compute in Hts; discriminate].
  exists ts. split; [reflexivity|]. split.
  { vm_compute in Hts. injection Hts as <-. reflexivity. }
  apply list.Forall_forall. intros S0 HS0.
  apply (open_contour_length (FM := example_math) (PI := example_interface)
           example_two_contours_tp) with (o := 1%nat).
  - left. exists example_two_contours, example_params, true,
      (Some example_two_contours_refiner). vm_compute. reflexivity.
  - vm_compute. repeat (apply List.Forall_cons; [discriminate|]). apply List.Forall_nil.
  - exact Hts.
  - exact HS0.
Defined.

(** The second example. *)
Lemma segment_data_is_concatenation_witness :
  exists tss,
    mapM (contour_edges_data example_two_contours_tp)
      (seq 0%nat (number_contours example_two_contours_tp)) = Some tss
    /\ segment_data example_two_contours_tp = concat (concat tss)
    /\ forall o ts,
         tss !! o = Some ts -> ts <> [] ->
         contour_segment_data example_two_contours_tp o = Some (concat ts).
Proof.
  apply (segment_data_is_concatenation (FM := example_math) (PI := example_interface)).
  left. exists example_two_contours, example_params, true,
    (Some example_two_contours_refiner). vm_compute. reflexivity.
Defined.

(** The full circle in the arithmetic of the code: eleven segments. *)
Lemma add_arc_segment_angles_witness :
  exists new,
    add_arc_segment (H := binary32_math) (mk_vec2 1 0) (mk_vec2 1 0) (mk_vec2 0 0) 1
      example_full_circle []
    = [] ++ new
    /\ length new = 11%nat
    /\ Forall (arc_of (mk_vec2 0 0) 1) new
    /\ (forall S0, new !! 0%nat = Some S0 -> m_begin (m_arc_angle S0) = 0)
    /\ (forall i S0 T0,
          new !! i = Some S0 -> new !! (i + 1)%nat = Some T0 ->
          m_begin (m_arc_angle T0) = m_end (m_arc_angle S0)
          \/ (In (m_begin (m_arc_angle T0)) (crit_angles (H := binary32_math))
              /\ strictly_inside example_full_circle (m_begin (m_arc_angle T0))
              /\ m_tangent_with_predecessor T0 = false)).
Proof.
  destruct (add_arc_segment_angles (FM := binary32_math) (mk_vec2 1 0) (mk_vec2 1 0)
              (mk_vec2 0 0) 1 example_full_circle [])
    as (new & Heq & Hall & Hfirst & Hlink).
  { vm_compute. reflexivity. }
  exists new. split; [exact Heq|]. split; [|by repeat split].
  apply (f_equal length) in Heq. vm_compute in Heq. symmetry. exact Heq.
Defined.

(** The second example and its refiner. *)
Lemma refiner_of_path_witness :
  exists r,
    Some example_two_contours_refiner = Some r
    /\ tessellated_path r = example_two_contours_tp
    /\ RefinerPrivate.m_contours r
       = map (fun contour =>
                PerContour.mk
                  (map (path_refiner_edge (H := example_interface)
                          example_params) contour))
           example_two_contours.
Proof.
  apply (refiner_of_path (FM := example_math) (PI := example_interface)
           example_two_contours example_params example_two_contours_tp
           (Some example_two_contours_refiner)).
  - vm_compute. reflexivity.
  - discriminate.
Defined.

(** The refiner of the second example, refined to the distance 1/2. *)
Lemma refined_states_witness :
  RefinerPrivate.m_contours example_refined
  = map (fun c =>
           PerContour.mk
             (map (resumed_edge (H := example_interface)
                     (refiner_params example_two_contours_refiner (1 # 2) 1))
                (PerContour.m_edges c)))
      (RefinerPrivate.m_contours example_two_contours_refiner).
Proof.
  apply (refined_states (FM := example_math) (PI := example_interface)
           example_two_contours_refiner (1 # 2) 1%N example_refined).
  - vm_compute. reflexivity.
  - vm_compute. reflexivity.
Defined.

(** A path of one edge whose interpolator emits nothing. *)
Lemma empty_edge_fails_witness :
  TessellatedPath_from_Path (H := example_math) (H0 := example_silent)
    [[tt]] example_params false = None.
Proof.
  apply (empty_edge_fails (FM := example_math) (PI := example_silent)
           [[tt]] example_params false 0 [tt] 0 tt).
  - reflexivity.
  - reflexivity.
  - reflexivity.
Defined.

(** ** The sweep *)

Import Sweep.

Lemma VertLeq_spec u v :
  VertLeq u v = true <-> s u < s v \/ (s u == s v /\ t u <= t v).
Proof.
  unfold VertLeq. rewrite orb_true_iff, andb_true_iff, Qltb_lt, Qeq_bool_iff,
    Qle_bool_iff. done.
Qed.

Lemma VertEq_spec u v : VertEq u v = true <-> s u == s v /\ t u == t v.
Proof. unfold VertEq. by rewrite andb_true_iff, !Qeq_bool_iff. Qed.

Lemma VertLeq_total u v : VertLeq u v = true \/ VertLeq v u = true.
Proof.
  rewrite !VertLeq_spec.
  destruct (Q_dec (s u) (s v)) as [[H|H]|H]; [by left; left|by right; left|].
  destruct (Qlt_le_dec (t v) (t u)).
  - right. right. split; [by symmetry|]. by apply Qlt_le_weak.
  - left. right. done.
Qed.

Lemma VertLeq_refl u : VertLeq u u = true.
Proof. apply VertLeq_spec. right. split; [reflexivity|apply Qle_refl]. Qed.

Lemma VertLeq_trans u v w :
  VertLeq u v = true -> VertLeq v w = true -> VertLeq u w = true.
Proof.
  rewrite !VertLeq_spec. intros [H1|[H1 H1']] [H2|[H2 H2']].
  - left. lra.
  - left. lra.
  - left. lra.
  - right. split; lra.
Qed.

Lemma VertEq_false_strict v m w :
  VertLeq v m = true -> VertEq m v = false -> VertLeq m w = true ->
  VertEq w v = false.
Proof.
  intros H1 H2 H3. apply not_true_iff_false. intros H4.
  apply not_true_iff_false in H2. apply H2.
  apply VertEq_spec in H4 as [H4 H4']. apply VertEq_spec.
  apply VertLeq_spec in H1, H3.
  destruct H1 as [H1|[H1 H1']], H3 as [H3|[H3 H3']]; split; lra.
Qed.

Lemma pqExtractMin_None q : pqExtractMin q = None -> q = [].
Proof.
  destruct q as [|v q]; [done|]. cbn.
  destruct (pqExtractMin q) as [[m rest]|]; [|done]. by destruct (VertLeq v m).
Qed.

Lemma pqExtractMin_spec q m rest :
  pqExtractMin q = Some (m, rest) ->
  q ≡ₚ m :: rest /\ Forall (fun w => VertLeq m w = true) rest.
Proof.
  revert m rest. induction q as [|v q IH]; intros m rest; [done|].
  cbn [pqExtractMin]. destruct (pqExtractMin q) as [[m' rest']|] eqn:Hrec.
  - destruct (IH _ _ eq_refl) as [Hperm Hall].
    destruct (VertLeq v m') eqn:Hle; intros [= <- <-].
    + split; [done|]. rewrite Hperm. constructor; [done|].
      eapply List.Forall_impl; [|exact Hall]. intros w Hw. by eapply VertLeq_trans.
    + split; [rewrite Hperm; apply Permutation_swap|].
      constructor; [|done]. destruct (VertLeq_total m' v); [done|congruence].
  - intros [= <- <-]. apply pqExtractMin_None in Hrec as ->.
    split; [done|constructor].
Qed.

Section loop.
Context `{SI : SweepInterface}.

Lemma merge_loop_spec fuel :
  forall tess v merged tess',
    merge_loop fuel tess v = Some (merged, tess') ->
    Forall (fun w => VertLeq v w = true) (pq tess) ->
    pq tess ≡ₚ merged ++ pq tess'
    /\ Forall (fun w => VertEq w v = true) merged
    /\ Forall (fun w => VertEq w v = false) (pq tess')
    /\ merged_mesh (mesh tess) v merged = Some (mesh tess')
    /\ dict tess' = dict tess.
Proof.
  induction fuel as [|fuel IH]; intros tess v merged tess' Hm Hall; [done|].
  cbn [merge_loop] in Hm. unfold pqMinimum in Hm.
  destruct (pqExtractMin (pq tess)) as [[vNext pq']|] eqn:Hext; cbn in Hm.
  - destruct (pqExtractMin_spec _ _ _ Hext) as [Hperm Hmin].
    assert (Hv : VertLeq v vNext = true).
    { rewrite Hperm in Hall. by inversion Hall. }
    destruct (VertEq vNext v) eqn:Heq; cbn in Hm.
    + unfold SpliceMergeVertices in Hm. cbn in Hm.
      destruct (glu_fastuidraw_gl_meshSplice (mesh tess) v vNext) as [m'|] eqn:Hsplice;
        [|done].
      cbn in Hm.
      destruct (merge_loop fuel _ v) as [[merged' tess2]|] eqn:Hrec; [|done].
      cbn in Hm. injection Hm as <- <-.
      apply IH in Hrec as (Hp & Hm1 & Hm2 & Hmesh & Hdict).
      * cbn in Hp, Hmesh, Hdict. split; [by rewrite Hperm, Hp|].
        split; [by constructor|]. split; [done|]. split; [|done].
        cbn. by rewrite Hsplice.
      * cbn. rewrite Hperm in Hall. by inversion Hall.
    + injection Hm as <- <-. split; [done|]. split; [constructor|].
      split; [|done]. rewrite Hperm. constructor; [done|].
      eapply List.Forall_impl; [|exact Hmin]. intros w Hw.
      by eapply VertEq_false_strict.
  - injection Hm as <- <-. apply pqExtractMin_None in Hext. rewrite Hext.
    split; [done|]. split; [constructor|]. split; [constructor|done].
Qed.

Lemma merge_loop_total fuel :
  forall tess v,
    (length (pq tess) < fuel)%nat ->
    (forall m w, is_Some (glu_fastuidraw_gl_meshSplice m v w)) ->
    is_Some (merge_loop fuel tess v).
Proof.
  induction fuel as [|fuel IH]; intros tess v Hlen Hsplice; [lia|].
  cbn [merge_loop]. unfold pqMinimum.
  destruct (pqExtractMin (pq tess)) as [[vNext pq']|] eqn:Hext; cbn; [|done].
  destruct (VertEq vNext v); cbn; [|done].
  unfold SpliceMergeVertices. cbn.
  destruct (Hsplice (mesh tess) vNext) as [m' ->]. cbn.
  apply pqExtractMin_spec in Hext as [Hperm _].
  apply Permutation_length in Hperm. cbn in Hperm.
  destruct (IH (mk_tess pq' m' (dict tess)) v) as [[merged tess2] ->]; [cbn; lia|done|].
  done.
Qed.

(** Every call of [SweepEvent] by the event loop is made after the merge. *)
Lemma computeInterior_loop_calls fuel :
  forall tess, Forall sweep_call_ok (fst (glu_fastuidraw_gl_computeInterior_loop fuel tess)).
Proof.
  induction fuel as [|fuel IH]; intros tess; [constructor|].
  cbn [glu_fastuidraw_gl_computeInterior_loop].
  destruct (pqExtractMin (pq tess)) as [[v pq']|] eqn:Hext; [|constructor].
  destruct (pqExtractMin_spec _ _ _ Hext) as [Hperm Hmin].
  destruct (merge_loop _ _ v) as [[merged tess1]|] eqn:Hmerge; [|constructor].
  apply merge_loop_spec in Hmerge as (Hp & Hm1 & Hm2 & Hmesh & _); [|done].
  cbn in Hp, Hmesh.
  assert (Hok : sweep_call_ok (mk_sweep_call v tess merged tess1)).
  { split; [done|]. split; [cbn; by rewrite Hperm, Hp|]. done. }
  destruct (SweepEvent tess1 v) as [tess2|]; [|constructor; [exact Hok|constructor]].
  specialize (IH tess2).
  destruct (glu_fastuidraw_gl_computeInterior_loop fuel tess2) as [calls res].
  cbn in *. by constructor.
Qed.
End loop.



Lemma VertL1dist_nonneg u v : 0 <= VertL1dist u v.
Proof.
  unfold VertL1dist. pose proof (Qabs_nonneg (s u - s v)).
  pose proof (Qabs_nonneg (t u - t v)). lra.
Qed.

Lemma VertL1dist_sum_pos isect org dst :
  VertEq org dst = false -> 0 < VertL1dist org isect + VertL1dist dst isect.
Proof.
  intros Hne. apply Qnot_le_lt. intros Hle.
  apply not_true_iff_false in Hne. apply Hne. apply VertEq_spec.
  unfold VertL1dist in Hle.
  revert Hle. do 4 (apply Qabs_case; intros ?); intros Hle; split; lra.
Qed.


Section sweep_claims.
Context `{SI : SweepInterface}.

(** C4: at every call of [SweepEvent] that the event loop of
    [glu_fastuidraw_gl_computeInterior] makes, no event that is left in the
    priority queue has the coordinates of the event vertex: those that were
    pending with these coordinates have been extracted and merged into the
    vertex by [SpliceMergeVertices].  The loop does call [SweepEvent] on the
    least pending event when the splices do not fail. *)
Theorem SweepEvent_after_merge fuel tess :
  Forall sweep_call_ok (fst (glu_fastuidraw_gl_computeInterior_loop fuel tess))
  /\ (forall v pq',
        pqExtractMin (pq tess) = Some (v, pq') ->
        (forall m w, is_Some (glu_fastuidraw_gl_meshSplice m v w)) ->
        exists c rest,
          fst (glu_fastuidraw_gl_computeInterior_loop (S fuel) tess) = c :: rest
          /\ call_vertex c = v /\ call_before c = tess).
Proof.
  split; [apply computeInterior_loop_calls|].
  intros v pq' Hext Hsplice. cbn [glu_fastuidraw_gl_computeInterior_loop].
  rewrite Hext.
  destruct (merge_loop_total (S (length pq')) (mk_tess pq' (mesh tess) (dict tess)) v)
    as [[merged tess1] ->]; [cbn; lia|done|].
  destruct (SweepEvent tess1 v) as [tess2|]; [|by eexists _, _].
  destruct (glu_fastuidraw_gl_computeInterior_loop fuel tess2) as [calls res].
  by eexists _, _.
Qed.
End sweep_claims.


(** Three pending events, the first and the last at the same place. *)
Lemma SweepEvent_after_merge_witness :
  exists c rest,
    fst (glu_fastuidraw_gl_computeInterior_loop 4 example_tess) = c :: rest
    /\ call_vertex c = mk_GLUvertex 0 0 0 10 /\ call_before c = example_tess.
Proof.
  apply (proj2 (SweepEvent_after_merge (SI := example_sweep) 3 example_tess)
           (mk_GLUvertex 0 0 0 10) [mk_GLUvertex 1 1 0 11; mk_GLUvertex 2 0 0 12]).
  - vm_compute. reflexivity.
  - intros m w. eexists. reflexivity.
Defined.


(** ** The order of the events and the end of the loop *)

Section sweep_order.
Context `{SI : SweepInterface}.

Lemma loop_order_from fuel :
  (forall q m d v q' m' d',
     SweepEvent_body (q, m, d) v = Some (q', m', d') ->
     Forall (fun w => VertLeq v w = true) q ->
     Forall (fun w => VertLeq v w = true) q') ->
  forall tess lb,
    Forall (fun w => VertLeq lb w = true) (pq tess) ->
    Forall (fun c => VertLeq lb (call_vertex c) = true)
      (fst (glu_fastuidraw_gl_computeInterior_loop fuel tess))
    /\ forall i j c1 c2,
         (i < j)%nat ->
         fst (glu_fastuidraw_gl_computeInterior_loop fuel tess) !! i = Some c1 ->
         fst (glu_fastuidraw_gl_computeInterior_loop fuel tess) !! j = Some c2 ->
         VertLeq (call_vertex c1) (call_vertex c2) = true.
Proof.
  intros Hevent. induction fuel as [|fuel IH]; intros tess lb Hlb.
  { cbn. split; [constructor|]. intros i j c1 c2 _ Hi. by rewrite lookup_nil in Hi. }
  cbn [glu_fastuidraw_gl_computeInterior_loop].
  destruct (pqExtractMin (pq tess)) as [[v pq']|] eqn:Hext.
  2:{ cbn. split; [constructor|]. intros i j c1 c2 _ Hi. by rewrite lookup_nil in Hi. }
  destruct (pqExtractMin_spec _ _ _ Hext) as [Hperm Hmin].
  assert (Hv : VertLeq lb v = true).
  { rewrite list.Forall_forall in Hlb. apply Hlb. rewrite Hperm. apply list_elem_of_here. }
  destruct (merge_loop _ _ v) as [[merged tess1]|] eqn:Hmerge.
  2:{ cbn. split; [constructor|]. intros i j c1 c2 _ Hi. by rewrite lookup_nil in Hi. }
  apply merge_loop_spec in Hmerge as (Hp & _); [|done]. cbn in Hp.
  assert (H1 : Forall (fun w => VertLeq v w = true) (pq tess1)).
  { rewrite list.Forall_forall in Hmin |- *. intros w Hw. apply Hmin.
    rewrite Hp. apply elem_of_app. by right. }
  set (call := mk_sweep_call v tess merged tess1).
  destruct (SweepEvent tess1 v) as [tess2|] eqn:Hsweep.
  2:{ cbn. split; [by repeat constructor|].
      intros i j c1 c2 Hij Hi Hj. destruct j as [|j]; [lia|]. by destruct j. }
  assert (H2 : Forall (fun w => VertLeq v w = true) (pq tess2)).
  { unfold SweepEvent in Hsweep.
    destruct (SweepEvent_body _ v) as [[[q' m'] d']|] eqn:Hbody; [|done].
    cbn in Hsweep. injection Hsweep as <-. cbn. by eapply Hevent. }
  destruct (IH tess2 v H2) as [IHlb IHord].
  destruct (glu_fastuidraw_gl_computeInterior_loop fuel tess2) as [calls res].
  cbn [fst] in *. split.
  - constructor; [done|]. eapply List.Forall_impl; [|exact IHlb].
    intros c Hc. cbn in Hc. by eapply VertLeq_trans.
  - intros i j c1 c2 Hij Hi Hj. destruct j as [|j]; [lia|]. cbn in Hj.
    destruct i as [|i].
    + cbn in Hi. injection Hi as <-. cbn.
      rewrite list.Forall_forall in IHlb. apply IHlb. by eapply list_elem_of_lookup_2.
    + cbn in Hi. eapply (IHord i j); [lia|done|done].
Qed.

(** X17: when [SweepEvent] adds no event that is before the event it
    handles, the event loop of [glu_fastuidraw_gl_computeInterior] calls
    [SweepEvent] on events in increasing order: the vertex of an earlier
    call is [VertLeq] the vertex of every later call. *)
Theorem SweepEvent_in_order fuel tess :
  (forall q m d v q' m' d',
     SweepEvent_body (q, m, d) v = Some (q', m', d') ->
     Forall (fun w => VertLeq v w = true) q ->
     Forall (fun w => VertLeq v w = true) q') ->
  forall i j c1 c2,
    (i < j)%nat ->
    fst (glu_fastuidraw_gl_computeInterior_loop fuel tess) !! i = Some c1 ->
    fst (glu_fastuidraw_gl_computeInterior_loop fuel tess) !! j = Some c2 ->
    VertLeq (call_vertex c1) (call_vertex c2) = true.
Proof.
  intros Hevent.
  destruct (pqExtractMin (pq tess)) as [[v pq']|] eqn:Hext.
  - destruct (pqExtractMin_spec _ _ _ Hext) as [Hperm Hmin].
    apply (loop_order_from fuel Hevent tess v). rewrite Hperm.
    constructor; [apply VertLeq_refl|done].
  - apply pqExtractMin_None in Hext.
    apply (loop_order_from fuel Hevent tess (mk_GLUvertex 0 0 0 0)).
    rewrite Hext. constructor.
Qed.

(** X18: when the event loop of [glu_fastuidraw_gl_computeInterior] ends
    normally the priority queue is empty; and it does end normally, within
    as many iterations as there are events, when neither the splices nor
    [SweepEvent] fail and [SweepEvent] adds no event. *)
Theorem computeInterior_loop_drains fuel tess :
  (forall tess',
     snd (glu_fastuidraw_gl_computeInterior_loop fuel tess) = Some tess' ->
     pq tess' = [])
  /\ ((forall m v w, is_Some (glu_fastuidraw_gl_meshSplice m v w)) ->
      (forall q m d v,
         exists q' m' d',
           SweepEvent_body (q, m, d) v = Some (q', m', d')
           /\ (length q' <= length q)%nat) ->
      (length (pq tess) < fuel)%nat ->
      exists tess',
        snd (glu_fastuidraw_gl_computeInterior_loop fuel tess) = Some tess'
        /\ pq tess' = []).
Proof.
  split.
  - revert tess. induction fuel as [|fuel IH]; intros tess tess'; [done|].
    cbn [glu_fastuidraw_gl_computeInterior_loop].
    destruct (pqExtractMin (pq tess)) as [[v pq']|] eqn:Hext.
    2:{ cbn. intros [= <-]. by apply pqExtractMin_None. }
    destruct (merge_loop _ _ v) as [[merged tess1]|]; [|done].
    destruct (SweepEvent tess1 v) as [tess2|]; [|done].
    specialize (IH tess2 tess').
    destruct (glu_fastuidraw_gl_computeInterior_loop fuel tess2) as [calls res].
    exact IH.
  - intros Hsplice Hevent. revert tess.
    induction fuel as [|fuel IH]; intros tess Hlen; [lia|].
    cbn [glu_fastuidraw_gl_computeInterior_loop].
    destruct (pqExtractMin (pq tess)) as [[v pq']|] eqn:Hext.
    2:{ cbn. exists tess. split; [done|]. by apply pqExtractMin_None. }
    destruct (pqExtractMin_spec _ _ _ Hext) as [Hperm Hmin].
    apply Permutation_length in Hperm. cbn in Hperm.
    destruct (merge_loop_total (S (length pq')) (mk_tess pq' (mesh tess) (dict tess)) v)
      as [[merged tess1] Hmerge]; [cbn; lia|done|].
    rewrite Hmerge.
    apply merge_loop_spec in Hmerge as (Hp & _); [|done]. cbn in Hp.
    apply Permutation_length in Hp. rewrite length_app in Hp.
    unfold SweepEvent.
    destruct (Hevent (pq tess1) (mesh tess1) (dict tess1) v)
      as (q' & m' & d' & Hbody & Hq'). rewrite Hbody. cbn.
    destruct (IH (mk_tess q' m' d')) as (tess' & Hres & Hempty); [cbn; lia|].
    destruct (glu_fastuidraw_gl_computeInterior_loop fuel (mk_tess q' m' d'))
      as [calls res].
    cbn in Hres |- *. by exists tess'.
Qed.
End sweep_order.

(** X19: for an edge whose ends differ, with the arithmetic exact,
    [VertexWeights] gives the end that is nearer to the intersection, in the
    L1 distance, a weight that is at least that of the other end; when the
    intersection is at the origin of the edge the origin has the weight 1/2
    and the destination the weight 0. *)
Theorem VertexWeights_nearer isect org dst :
  VertEq org dst = false ->
  (VertL1dist org isect <= VertL1dist dst isect ->
   snd (VertexWeights isect org dst) <= fst (VertexWeights isect org dst))
  /\ (VertL1dist org isect == 0 ->
      fst (VertexWeights isect org dst) == 1 # 2
      /\ snd (VertexWeights isect org dst) == 0).
Proof.
  intros Hne. unfold VertexWeights. cbn [fst snd].
  pose proof (VertL1dist_sum_pos isect org dst Hne) as Hpos.
  pose proof (VertL1dist_nonneg org isect) as H1.
  pose proof (VertL1dist_nonneg dst isect) as H2.
  revert Hpos H1 H2. generalize (VertL1dist org isect) (VertL1dist dst isect).
  intros t1 t2 Hpos H1 H2. split.
  - intros Hle. apply Qle_shift_div_l; [done|].
    assert (He : (1 # 2) * t1 / (t1 + t2) * (t1 + t2) == (1 # 2) * t1) by (field; lra).
    rewrite He. lra.
  - intros Hz. split.
    + rewrite Hz. field. lra.
    + rewrite Hz. field. lra.
Qed.

(** The three events of the example, two of them at the same point: two
    calls, in order. *)
Lemma SweepEvent_in_order_witness :
  length (fst (glu_fastuidraw_gl_computeInterior_loop (H := example_sweep) 4 example_tess))
  = 2%nat
  /\ forall i j c1 c2,
       (i < j)%nat ->
       fst (glu_fastuidraw_gl_computeInterior_loop (H := example_sweep) 4 example_tess) !! i
       = Some c1 ->
       fst (glu_fastuidraw_gl_computeInterior_loop (H := example_sweep) 4 example_tess) !! j
       = Some c2 ->
       VertLeq (call_vertex c1) (call_vertex c2) = true.
Proof.
  split; [reflexivity|].
  apply (SweepEvent_in_order (SI := example_sweep) 4 example_tess).
  intros q m d v q' m' d' Hbody Hq. cbn in Hbody. injection Hbody as <- _ _. exact Hq.
Defined.

(** The three events of the example are handled within four iterations. *)
Lemma computeInterior_loop_drains_witness :
  exists tess',
    snd (glu_fastuidraw_gl_computeInterior_loop (H := example_sweep) 4 example_tess)
    = Some tess'
    /\ pq tess' = [].
Proof.
  apply (proj2 (computeInterior_loop_drains (SI := example_sweep) 4 example_tess)).
  - intros m v w. eexists. reflexivity.
  - intros q m d v. exists q, m, d. split; [reflexivity|lia].
  - vm_compute. lia.
Defined.

(** The upper edge of the crossing example: its ends are as far from the
    intersection as each other; and an intersection at the origin. *)
Lemma VertexWeights_nearer_witness :
  snd (VertexWeights example_isect example_orgUp example_dstUp)
  <= fst (VertexWeights example_isect example_orgUp example_dstUp)
  /\ fst (VertexWeights example_orgUp example_orgUp example_dstUp) == 1 # 2
  /\ snd (VertexWeights example_orgUp example_orgUp example_dstUp) == 0.
Proof.
  split.
  - apply (proj1 (VertexWeights_nearer example_isect example_orgUp example_dstUp
                    ltac:(reflexivity))).
    vm_compute. discriminate.
  - apply (proj2 (VertexWeights_nearer example_orgUp example_orgUp example_dstUp
                    ltac:(reflexivity))).
    vm_compute. reflexivity.
Defined.
